(** * Sequence containment in funky's slices package

    A shallow embedding of [ContainsSequence] and of its two searchers,
    [bruteForceSearch] and [apostolicoCrochemoreSearch], together with the
    proofs of the properties the specification states about them.

    Modelling conventions.
    - A Go slice [[]T] is a [list T]; a Go [int] is a [Z].  Every integer the
      searchers compute lies between [-1] and [len(s) + 1], so the 64-bit
      wrap-around of [int] is never reached and is not modelled.
    - Go's [==] on the element type is a boolean function [eqb].  Nothing is
      assumed about it in the definitions; the theorems that need it assume
      that it is symmetric and transitive.  Reflexivity is not assumed: Go's
      floating-point [NaN] differs from itself.
    - A slice read or write outside the bounds panics in Go: the embedding
      returns [OutOfBounds].
    - A [for cond { ... }] loop is a recursion on a counter that starts at
      [fuel]; a loop that uses it up returns [OutOfFuel].  A [for ... range]
      loop is bounded by the slice and needs no fuel.

    The development goes on with the other functions of the package that
    work on plain slices: the sibling predicates of [ContainsSequence], the
    copying functions, the counting functions, and the functions that go
    through a Go map.  There [make] takes the zero value of the element
    type, a panic of any kind is [OutOfBounds], and an [int] that could
    wrap around (the counter of [NthIndexOf], the position that [Rotate]
    computes) goes through [wrapInt]. *)

From Stdlib Require Import ZArith Lia Bool String.
From stdpp Require Import gmap gmultiset.
From stdpp Require Import base list.

Local Open Scope Z_scope.

(** ** Outcomes of a computation that may panic or run out of fuel *)

Inductive outcome (A : Type) : Type :=
| Ret (a : A)
| OutOfBounds
| OutOfFuel.

Arguments Ret {A} a.
Arguments OutOfBounds {A}.
Arguments OutOfFuel {A}.

#[global] Instance outcome_bind : MBind outcome :=
  fun A B (k : A -> outcome B) (m : outcome A) =>
    match m with
    | Ret a => k a
    | OutOfBounds => OutOfBounds
    | OutOfFuel => OutOfFuel
    end.

(** [len(l)] as a Go [int]. *)
Definition len {A : Type} (l : list A) : Z := Z.of_nat (length l).

(** [l[i]]: panics unless [0 <= i < len(l)]. *)
Definition index {A : Type} (l : list A) (i : Z) : outcome A :=
  if i <? 0 then OutOfBounds
  else match l !! Z.to_nat i with
       | Some a => Ret a
       | None => OutOfBounds
       end.

(** [l[i] = v]: panics unless [0 <= i < len(l)]. *)
Definition store {A : Type} (l : list A) (i : Z) (v : A) : outcome (list A) :=
  if (0 <=? i) && (i <? len l) then Ret (<[Z.to_nat i := v]> l)
  else OutOfBounds.

(** [make([]int, n)]: a slice of [n] zeroes. *)
Definition make (n : Z) : list Z := replicate (Z.to_nat n) 0.

(** ** The option mechanism of [ContainsSequence] *)

Definition containsSequenceSearchAlgorithm := string.

Definition containsSequenceApostolicoCrochemore : containsSequenceSearchAlgorithm :=
  "ApostolicoCrochemore"%string.
Definition containsSequenceBruteForce : containsSequenceSearchAlgorithm :=
  "BruteForce"%string.

Record containsSequenceArgs : Type := mkArgs {
  searchAlgorithm : containsSequenceSearchAlgorithm
}.

(** The zero value [containsSequenceArgs{}]. *)
Definition zeroArgs : containsSequenceArgs := mkArgs ""%string.

(** An option mutates the arguments it is given a pointer to; here it maps
    the old record to the new one. *)
Definition ContainsSequenceOpt := containsSequenceArgs -> containsSequenceArgs.

Definition ContainsSequenceApostolicoCrochemore : ContainsSequenceOpt :=
  fun _ => mkArgs containsSequenceApostolicoCrochemore.

Definition ContainsSequenceBruteForce : ContainsSequenceOpt :=
  fun _ => mkArgs containsSequenceBruteForce.

(** [for _, opt := range opts { opt(&args) }] *)
Fixpoint applyOpts (opts : list ContainsSequenceOpt) (args : containsSequenceArgs)
  : containsSequenceArgs :=
  match opts with
  | [] => args
  | opt :: rest => applyOpts rest (opt args)
  end.

(** ** The searchers *)

Section Search.
Context {T : Type}.
(** Go's [==] on [T]. *)
Variable eqb : T -> T -> bool.

(** [Contains(s, ele)] *)
Fixpoint Contains (s : list T) (ele : T) : bool :=
  match s with
  | [] => false
  | e :: rest => if eqb e ele then true else Contains rest ele
  end.

(** *** Brute force *)

(** The inner [for seqIdx := range seq] of [bruteForceSearch], with
    [cnt] indices left from [seqIdx] on: [Ret false] stands for
    [continue Outer], [Ret true] for falling out of the loop. *)
Fixpoint bruteForceInner (cnt : nat) (s seq : list T) (idx seqIdx : Z)
  : outcome bool :=
  match cnt with
  | O => Ret true
  | S cnt' =>
      a ← index s (idx + seqIdx);
      b ← index seq seqIdx;
      if negb (eqb a b) then Ret false
      else bruteForceInner cnt' s seq idx (seqIdx + 1)
  end.

(** The outer [for idx := range s], with [cnt] indices left from [idx]. *)
Fixpoint bruteForceOuter (cnt : nat) (s seq : list T) (idx : Z)
  : outcome bool :=
  match cnt with
  | O => Ret false
  | S cnt' =>
      if len s - idx <? len seq then Ret false
      else
        m ← bruteForceInner (length seq) s seq idx 0;
        if m : bool then Ret true
        else bruteForceOuter cnt' s seq (idx + 1)
  end.

Definition bruteForceSearch (s seq : list T) : outcome bool :=
  bruteForceOuter (length s) s seq 0.

(** *** Apostolico-Crochemore: preprocessing *)

(** [for y > -1 && (x == len(seq) || seq[x] != seq[y]) { y = kmpNext[y] }] *)
Fixpoint kmpFallback (n : nat) (seq : list T) (kmpNext : list Z) (x y : Z)
  : outcome Z :=
  match n with
  | O => OutOfFuel
  | S n' =>
      if y >? -1 then
        c ← (if x =? len seq then Ret true
              else a ← index seq x; b ← index seq y;
                   Ret (negb (eqb a b)));
        if c : bool then
          y' ← index kmpNext y;
          kmpFallback n' seq kmpNext x y'
        else Ret y
      else Ret y
  end.

(** The body of the table loop after the fallback: [x++], [y++] and the
    assignment of [kmpNext[x]]. *)
Definition kmpAssign (seq : list T) (kmpNext : list Z) (x y : Z)
  : outcome (list Z) :=
  c ← (if negb (x =? len seq) then
          a ← index seq x; b ← index seq y; Ret (eqb a b)
        else Ret false);
  if c : bool then
    v ← index kmpNext y;
    store kmpNext x v
  else store kmpNext x y.

(** [for x < len(seq) { ... }] *)
Fixpoint kmpLoop (fuel n : nat) (seq : list T) (kmpNext : list Z) (x y : Z)
  : outcome (list Z) :=
  match n with
  | O => OutOfFuel
  | S n' =>
      if x <? len seq then
        y1 ← kmpFallback fuel seq kmpNext x y;
        kmpNext' ← kmpAssign seq kmpNext (x + 1) (y1 + 1);
        kmpLoop fuel n' seq kmpNext' (x + 1) (y1 + 1)
      else Ret kmpNext
  end.

(** The table [kmpNext] as it stands when the search starts. *)
Definition preKmp (fuel : nat) (seq : list T) : outcome (list Z) :=
  kmpNext ← store (make (len seq + 1)) 0 (-1);
  kmpLoop fuel fuel seq kmpNext 0 (-1).

(** [for ell < len(seq) && seq[ell-1] == seq[ell] { ell++ }] *)
Fixpoint ellLoop (n : nat) (seq : list T) (ell : Z) : outcome Z :=
  match n with
  | O => OutOfFuel
  | S n' =>
      if ell <? len seq then
        a ← index seq (ell - 1);
        b ← index seq ell;
        if eqb a b then ellLoop n' seq (ell + 1) else Ret ell
      else Ret ell
  end.

(** [ell] as it stands when the search starts. *)
Definition computeEll (fuel : nat) (seq : list T) : outcome Z :=
  ell ← ellLoop fuel seq 1;
  Ret (if ell =? len seq then 0 else ell).

(** *** Apostolico-Crochemore: the search *)

(** [for i < len(seq) && seq[i] == s[i+j] { i++ }], and with [i], [j]
    read as [k], [j] also [for k < ell && seq[k] == s[j+k] { k++ }] with
    [bound = ell]. *)
Fixpoint matchLoop (n : nat) (s seq : list T) (bound j i : Z) : outcome Z :=
  match n with
  | O => OutOfFuel
  | S n' =>
      if i <? bound then
        a ← index seq i;
        b ← index s (i + j);
        if eqb a b then matchLoop n' s seq bound j (i + 1) else Ret i
      else Ret i
  end.

(** The resynchronisation of [k] and [i] at the end of an iteration;
    returns the new [(i, k)]. *)
Definition resync (kmpNext : list Z) (ell i k : Z) : outcome (Z * Z) :=
  if i =? ell then
    Ret (i, if k - 1 >? 0 then k - 1 else 0)
  else
    v ← index kmpNext i;
    if v <=? ell then
      v' ← index kmpNext i;
      if v' >? 0 then
        k' ← index kmpNext i; Ret (ell, k')
      else Ret (ell, 0)
    else
      i' ← index kmpNext i; Ret (i', ell).

(** One iteration of the search loop: [None] stands for [return true],
    [Some (i, j, k)] for the cursors the next iteration starts from. *)
Definition acBody (fuel : nat) (s seq : list T) (kmpNext : list Z)
  (ell i j k : Z) : outcome (option (Z * Z * Z)) :=
  i1 ← matchLoop fuel s seq (len seq) j i;
  '(found, k1) ← (if i1 >=? len seq then
                    k1 ← matchLoop fuel s seq ell j k;
                    Ret (k1 >=? ell, k1)
                  else Ret (false, k));
  if found : bool then Ret None
  else
    v ← index kmpNext i1;
    let j' := j + (i1 - v) in
    '(i', k') ← resync kmpNext ell i1 k1;
    Ret (Some (i', j', k')).

(** [for j <= len(s)-len(seq) { ... }] *)
Fixpoint acLoop (fuel n : nat) (s seq : list T) (kmpNext : list Z)
  (ell i j k : Z) : outcome bool :=
  match n with
  | O => OutOfFuel
  | S n' =>
      if j <=? len s - len seq then
        r ← acBody fuel s seq kmpNext ell i j k;
        match r with
        | None => Ret true
        | Some (i', j', k') => acLoop fuel n' s seq kmpNext ell i' j' k'
        end
      else Ret false
  end.

Definition apostolicoCrochemoreSearch (fuel : nat) (s seq : list T)
  : outcome bool :=
  kmpNext ← preKmp fuel seq;
  ell ← computeEll fuel seq;
  acLoop fuel fuel s seq kmpNext ell ell 0 0.

(** *** Dispatch *)

Definition ContainsSequence (fuel : nat) (s seq : list T)
  (opts : list ContainsSequenceOpt) : outcome bool :=
  if len s <? len seq then Ret false
  else if len seq =? 0 then Ret true
  else if len seq =? 1 then
    e ← index seq 0; Ret (Contains s e)
  else
    let args := applyOpts opts zeroArgs in
    if String.eqb (searchAlgorithm args) containsSequenceApostolicoCrochemore
    then apostolicoCrochemoreSearch fuel s seq
    else if String.eqb (searchAlgorithm args) containsSequenceBruteForce
    then bruteForceSearch s seq
    else bruteForceSearch s seq.

End Search.

(** ** The sibling predicates of [ContainsSequence] *)

(** The two's-complement wrap-around of a Go [int] (64 bits). *)
Definition wrapInt (z : Z) : Z := (z + 2 ^ 63) mod 2 ^ 64 - 2 ^ 63.

Section Predicates.
Context {T : Type}.
(** Go's [==] on [T]. *)
Variable eqb : T -> T -> bool.

(** [for idx, ele := range s1 { if ele != s2[idx] { return false } }],
    [rest] being what is left of [s1] from [idx] on. *)
Fixpoint EqualLoop (rest s2 : list T) (idx : Z) : outcome bool :=
  match rest with
  | [] => Ret true
  | ele :: rest' =>
      b ← index s2 idx;
      if negb (eqb ele b) then Ret false
      else EqualLoop rest' s2 (idx + 1)
  end.

(** [Equal(s1, s2)] *)
Definition Equal (s1 s2 : list T) : outcome bool :=
  if negb (len s1 =? len s2) then Ret false
  else EqualLoop s1 s2 0.

(** [for idx, ele := range seq { if s[idx] != ele { return false } }],
    [rest] being what is left of [seq] from [idx] on. *)
Fixpoint StartsWithSequenceLoop (rest s : list T) (idx : Z) : outcome bool :=
  match rest with
  | [] => Ret true
  | ele :: rest' =>
      a ← index s idx;
      if negb (eqb a ele) then Ret false
      else StartsWithSequenceLoop rest' s (idx + 1)
  end.

(** [StartsWithSequence(s, seq)] *)
Definition StartsWithSequence (s seq : list T) : outcome bool :=
  if len s <? len seq then Ret false
  else StartsWithSequenceLoop seq s 0.

(** [for idx := len(seq) - 1; idx >= 0; idx-- { ... }] of
    [EndsWithSequence]. *)
Fixpoint EndsWithSequenceLoop (n : nat) (s seq : list T) (lenDiff idx : Z)
  : outcome bool :=
  match n with
  | O => OutOfFuel
  | S n' =>
      if idx >=? 0 then
        a ← index s (idx + lenDiff);
        b ← index seq idx;
        if negb (eqb a b) then Ret false
        else EndsWithSequenceLoop n' s seq lenDiff (idx - 1)
      else Ret true
  end.

(** [EndsWithSequence(s, seq)] *)
Definition EndsWithSequence (fuel : nat) (s seq : list T) : outcome bool :=
  let lenDiff := len s - len seq in
  if lenDiff <? 0 then Ret false
  else EndsWithSequenceLoop fuel s seq lenDiff (len seq - 1).

(** [for idx, e := range s { if e == ele { return idx } }], [rest] being
    what is left of [s] from [idx] on. *)
Fixpoint FirstIndexOfLoop (rest : list T) (ele : T) (idx : Z) : Z :=
  match rest with
  | [] => -1
  | e :: rest' =>
      if eqb e ele then idx else FirstIndexOfLoop rest' ele (idx + 1)
  end.

(** [FirstIndexOf(s, ele)] *)
Definition FirstIndexOf (s : list T) (ele : T) : Z :=
  FirstIndexOfLoop s ele 0.

(** [for idx := len(s) - 1; idx >= 0; idx-- { if ele == s[idx] { return idx } }] *)
Fixpoint LastIndexOfLoop (n : nat) (s : list T) (ele : T) (idx : Z)
  : outcome Z :=
  match n with
  | O => OutOfFuel
  | S n' =>
      if idx >=? 0 then
        a ← index s idx;
        if eqb ele a then Ret idx
        else LastIndexOfLoop n' s ele (idx - 1)
      else Ret (-1)
  end.

(** [LastIndexOf(s, ele)] *)
Definition LastIndexOf (fuel : nat) (s : list T) (ele : T) : outcome Z :=
  LastIndexOfLoop fuel s ele (len s - 1).

(** [for idx, e := range s { if e == ele { n--; if n == 0 { return idx } } }],
    [rest] being what is left of [s] from [idx] on. *)
Fixpoint NthIndexOfLoop (rest : list T) (n : Z) (ele : T) (idx : Z) : Z :=
  match rest with
  | [] => -1
  | e :: rest' =>
      if eqb e ele then
        let n' := wrapInt (n - 1) in
        if n' =? 0 then idx else NthIndexOfLoop rest' n' ele (idx + 1)
      else NthIndexOfLoop rest' n ele (idx + 1)
  end.

(** [NthIndexOf(s, n, ele)] *)
Definition NthIndexOf (s : list T) (n : Z) (ele : T) : Z :=
  NthIndexOfLoop s n ele 0.

End Predicates.

(** ** Copies and sub-slices *)

(** [errors.New(msg)]: an error is its message. *)
Definition error := string.

(** [make([]T, n)] with the zero value of [T] given: a negative length
    panics, for which [OutOfBounds] stands. *)
Definition makeOf {A : Type} (zero : A) (n : Z) : outcome (list A) :=
  if n <? 0 then OutOfBounds else Ret (replicate (Z.to_nat n) zero).

(** [copy(dst, src)]: [dst] with its first [min(len(dst), len(src))]
    elements taken from [src]. *)
Definition copySlice {A : Type} (dst src : list A) : list A :=
  take (length dst) src ++ drop (length src) dst.

(** [s[lo:]]; panics unless [0 <= lo <= len(s)]. *)
Definition sliceFrom {A : Type} (s : list A) (lo : Z) : outcome (list A) :=
  if (0 <=? lo) && (lo <=? len s) then Ret (drop (Z.to_nat lo) s)
  else OutOfBounds.

(** [s[:hi]]; Go allows [hi] up to the capacity of [s], the embedding only
    up to its length, which is as far as the code below goes. *)
Definition sliceTo {A : Type} (s : list A) (hi : Z) : outcome (list A) :=
  if (0 <=? hi) && (hi <=? len s) then Ret (take (Z.to_nat hi) s)
  else OutOfBounds.

(** [a % b] on [int]: the remainder has the sign of [a]; a zero divisor
    panics, for which [OutOfBounds] stands. *)
Definition goRem (a b : Z) : outcome Z :=
  if b =? 0 then OutOfBounds else Ret (Z.rem a b).

Section Copies.
Context {T : Type}.
(** The zero value of [T]. *)
Variable zero : T.

(** [Append(s, eles...)] *)
Definition Append (s eles : list T) : list T :=
  let result := [] in
  let result := result ++ s in
  result ++ eles.

(** [Prepend(s, eles...)] *)
Definition Prepend (s eles : list T) : list T :=
  let result := [] in
  let result := result ++ eles in
  result ++ s.

(** [Drop(s, num)] *)
Definition Drop (s : list T) (num : Z) : outcome (list T) :=
  let num := if num <? 0 then 0 else num in
  let num := if len s <? num then len s else num in
  result ← makeOf zero (len s - num);
  src ← sliceFrom s num;
  Ret (copySlice result src).

(** [Take(s, num)] *)
Definition Take (s : list T) (num : Z) : outcome (list T) :=
  let num := if num <? 0 then 0 else num in
  let num := if num >? len s then len s else num in
  result ← makeOf zero num;
  src ← sliceTo s num;
  Ret (copySlice result src).

(** [SplitAt(s, idx)] *)
Definition SplitAt (s : list T) (idx : Z) : outcome (list T * list T) :=
  let idx := if idx <? 0 then 0 else idx in
  let idx := if len s <? idx then len s else idx in
  before ← makeOf zero idx;
  after ← makeOf zero (len s - idx);
  src1 ← sliceTo s idx;
  let before := copySlice before src1 in
  src2 ← sliceFrom s idx;
  let after := copySlice after src2 in
  Ret (before, after).

(** [for idx, ele := range s { if !fn(ele) { break }; limit = idx + 1 }] of
    [TakeWhile] and [DropWhile], [rest] being what is left of [s] from
    [idx] on. *)
Fixpoint whileLimit (rest : list T) (fn : T -> bool) (idx limit : Z) : Z :=
  match rest with
  | [] => limit
  | ele :: rest' =>
      if negb (fn ele) then limit
      else whileLimit rest' fn (idx + 1) (idx + 1)
  end.

(** [TakeWhile(s, fn)] *)
Definition TakeWhile (s : list T) (fn : T -> bool) : outcome (list T) :=
  let limit := whileLimit s fn 0 0 in
  result ← makeOf zero limit;
  src ← sliceTo s limit;
  Ret (copySlice result src).

(** [DropWhile(slice, fn)] *)
Definition DropWhile (slice : list T) (fn : T -> bool) : outcome (list T) :=
  let limit := whileLimit slice fn 0 0 in
  result ← makeOf zero (len slice - limit);
  src ← sliceFrom slice limit;
  Ret (copySlice result src).

(** [Updated(s, idx, ele)]: the slice and the error that are returned. *)
Definition Updated (s : list T) (idx : Z) (ele : T)
  : outcome (list T * option error) :=
  if (idx <? 0) || (idx >=? len s) then
    Ret ([], Some "index out of bounds"%string)
  else
    ss ← makeOf zero (len s);
    let ss := copySlice ss s in
    ss ← store ss idx ele;
    Ret (ss, None).



(** [for idx, ele := range s { result[len(s)-idx-1] = ele }], [rest] being
    what is left of [s] from [idx] on. *)
Fixpoint ReversedLoop (rest : list T) (result : list T) (n idx : Z)
  : outcome (list T) :=
  match rest with
  | [] => Ret result
  | ele :: rest' =>
      result ← store result (n - idx - 1) ele;
      ReversedLoop rest' result n (idx + 1)
  end.

(** [Reversed(s)] *)
Definition Reversed (s : list T) : outcome (list T) :=
  result ← makeOf zero (len s);
  ReversedLoop s result (len s) 0.

(** [for idx, ele := range s { result[(idx+k)%n] = ele }], [rest] being
    what is left of [s] from [idx] on. *)
Fixpoint RotateLoop (rest : list T) (result : list T) (n k idx : Z)
  : outcome (list T) :=
  match rest with
  | [] => Ret result
  | ele :: rest' =>
      pos ← goRem (wrapInt (idx + k)) n;
      result ← store result pos ele;
      RotateLoop rest' result n k (idx + 1)
  end.

(** [Rotate(s, k)] *)
Definition Rotate (s : list T) (k : Z) : outcome (list T) :=
  let n := len s in
  k ← (if negb (n =? 0) then goRem k n else Ret k);
  let k := if k <? 0 then n + k else k in
  result ← makeOf zero n;
  RotateLoop s result n k 0.

End Copies.

(** ** Counting and selecting with a predicate *)

Section Counting.
Context {T : Type}.

(** [All(s, fn)] *)
Fixpoint All (s : list T) (fn : T -> bool) : bool :=
  match s with
  | [] => true
  | ele :: rest => if negb (fn ele) then false else All rest fn
  end.

(** [Any(s, fn)] *)
Fixpoint Any (s : list T) (fn : T -> bool) : bool :=
  match s with
  | [] => false
  | ele :: rest => if fn ele then true else Any rest fn
  end.

(** The loop of [Count], [cnt] being the count so far. *)
Fixpoint CountLoop (s : list T) (fn : T -> bool) (cnt : Z) : Z :=
  match s with
  | [] => cnt
  | ele :: rest =>
      if fn ele then CountLoop rest fn (cnt + 1) else CountLoop rest fn cnt
  end.

(** [Count(s, fn)] *)
Definition Count (s : list T) (fn : T -> bool) : Z := CountLoop s fn 0.

(** The loop and the final [return cnt >= n] of [AtLeast]. *)
Fixpoint AtLeastLoop (s : list T) (n : Z) (fn : T -> bool) (cnt : Z) : bool :=
  match s with
  | [] => cnt >=? n
  | ele :: rest =>
      if fn ele then
        let cnt := cnt + 1 in
        if cnt >=? n then true else AtLeastLoop rest n fn cnt
      else AtLeastLoop rest n fn cnt
  end.

(** [AtLeast(s, n, fn)] *)
Definition AtLeast (s : list T) (n : Z) (fn : T -> bool) : bool :=
  AtLeastLoop s n fn 0.

(** The loop and the final [return cnt <= n] of [AtMost]. *)
Fixpoint AtMostLoop (s : list T) (n : Z) (fn : T -> bool) (cnt : Z) : bool :=
  match s with
  | [] => cnt <=? n
  | ele :: rest =>
      if fn ele then
        let cnt := cnt + 1 in
        if cnt >? n then false else AtMostLoop rest n fn cnt
      else AtMostLoop rest n fn cnt
  end.

(** [AtMost(s, n, fn)] *)
Definition AtMost (s : list T) (n : Z) (fn : T -> bool) : bool :=
  AtMostLoop s n fn 0.

(** The loop and the final [return cnt == n] of [Exactly]. *)
Fixpoint ExactlyLoop (s : list T) (n : Z) (fn : T -> bool) (cnt : Z) : bool :=
  match s with
  | [] => cnt =? n
  | ele :: rest =>
      if fn ele then
        let cnt := cnt + 1 in
        if cnt >? n then false else ExactlyLoop rest n fn cnt
      else ExactlyLoop rest n fn cnt
  end.

(** [Exactly(s, n, fn)] *)
Definition Exactly (s : list T) (n : Z) (fn : T -> bool) : bool :=
  ExactlyLoop s n fn 0.

(** The loop of [Filter], [ss] being the slice built so far. *)
Fixpoint FilterLoop (s : list T) (fn : T -> bool) (ss : list T) : list T :=
  match s with
  | [] => ss
  | ele :: rest =>
      if fn ele then FilterLoop rest fn (ss ++ [ele]) else FilterLoop rest fn ss
  end.

(** [Filter(s, fn)] *)
Definition Filter (s : list T) (fn : T -> bool) : list T := FilterLoop s fn [].

(** The loop of [Partition], [a] and [b] being the slices built so far. *)
Fixpoint PartitionLoop (s : list T) (fn : T -> bool) (a b : list T)
  : list T * list T :=
  match s with
  | [] => (a, b)
  | ele :: rest =>
      if fn ele then PartitionLoop rest fn (a ++ [ele]) b
      else PartitionLoop rest fn a (b ++ [ele])
  end.

(** [Partition(s, fn)] *)
Definition Partition (s : list T) (fn : T -> bool) : list T * list T :=
  PartitionLoop s fn [] [].

(** [for idx, ele := range s { if fn(ele) { return idx } }], [rest] being
    what is left of [s] from [idx] on. *)
Fixpoint FirstIndexWhereLoop (rest : list T) (fn : T -> bool) (idx : Z) : Z :=
  match rest with
  | [] => -1
  | ele :: rest' =>
      if fn ele then idx else FirstIndexWhereLoop rest' fn (idx + 1)
  end.

(** [FirstIndexWhere(s, fn)] *)
Definition FirstIndexWhere (s : list T) (fn : T -> bool) : Z :=
  FirstIndexWhereLoop s fn 0.

End Counting.

(** ** Extremes and zipping *)

Section Ordered.
Context {T : Type}.
(** The zero value of [T]. *)
Variable zero : T.
(** Go's [<] on [T]; [a > b] is [b < a]. *)
Variable lt : T -> T -> bool.

(** [for idx := 1; idx < len(s); idx++ { if s[idx] > best { best = s[idx] } }] *)
Fixpoint MaxLoop (n : nat) (s : list T) (best : T) (idx : Z) : outcome T :=
  match n with
  | O => OutOfFuel
  | S n' =>
      if idx <? len s then
        a ← index s idx;
        if lt best a then
          best ← index s idx;
          MaxLoop n' s best (idx + 1)
        else MaxLoop n' s best (idx + 1)
      else Ret best
  end.

(** [Max(s)] *)
Definition Max (fuel : nat) (s : list T) : outcome (T * option error) :=
  if len s <=? 0 then Ret (zero, Some "no such element"%string)
  else
    best ← index s 0;
    best ← MaxLoop fuel s best 1;
    Ret (best, None).

(** [for idx := 1; idx < len(s); idx++ { if s[idx] < best { best = s[idx] } }] *)
Fixpoint MinLoop (n : nat) (s : list T) (best : T) (idx : Z) : outcome T :=
  match n with
  | O => OutOfFuel
  | S n' =>
      if idx <? len s then
        a ← index s idx;
        if lt a best then
          best ← index s idx;
          MinLoop n' s best (idx + 1)
        else MinLoop n' s best (idx + 1)
      else Ret best
  end.

(** [Min(s)] *)
Definition Min (fuel : nat) (s : list T) : outcome (T * option error) :=
  if len s <=? 0 then Ret (zero, Some "no such element"%string)
  else
    best ← index s 0;
    best ← MinLoop fuel s best 1;
    Ret (best, None).

End Ordered.

(** [pairs.Pair[T, U]] *)
Record Pair (T U : Type) : Type := mkPair { Left : T; Right : U }.

Arguments mkPair {T U} _ _.
Arguments Left {T U} _.
Arguments Right {T U} _.

Section Zipping.
Context {T U : Type}.
(** The zero values of [T] and [U]. *)
Variable zeroT : T.
Variable zeroU : U.

(** [for idx := range result { ... }] of [Zip], with [cnt] indices left
    from [idx] on. *)
Fixpoint ZipLoop (cnt : nat) (s : list T) (ss : list U)
  (result : list (Pair T U)) (idx : Z) : outcome (list (Pair T U)) :=
  match cnt with
  | O => Ret result
  | S cnt' =>
      left ← (if idx <? len s then index s idx else Ret zeroT);
      right ← (if idx <? len ss then index ss idx else Ret zeroU);
      p ← index result idx;
      result ← store result idx (mkPair left (Right p));
      p ← index result idx;
      result ← store result idx (mkPair (Left p) right);
      ZipLoop cnt' s ss result (idx + 1)
  end.

(** [Zip(s, ss)] *)
Definition Zip (s : list T) (ss : list U) : outcome (list (Pair T U)) :=
  let max := len s in
  let max := if len ss >? max then len ss else max in
  result ← makeOf (mkPair zeroT zeroU) max;
  ZipLoop (length result) s ss result 0.

(** The pair that [Zip] is to put at index [i]: the elements of [s] and
    [ss] there, the zero value where a slice is too short. *)
Definition zipAt (s : list T) (ss : list U) (i : Z) : Pair T U :=
  mkPair (match index s i with Ret a => a | _ => zeroT end)
         (match index ss i with Ret b => b | _ => zeroU end).

End Zipping.

(** ** Functions that go through a Go map

    For an element type whose [==] is the equality of values (integers,
    strings, booleans, and structs and arrays of these), a
    [map[T]struct{}] is a finite set and a [map[T]int] a finite map to
    [Z]; [_, ok := m[k]] is the membership test, and a read [m[k]] of a
    missing key gives [0]. *)

Section Maps.
Context `{Countable T}.

(** [for _, ele := range eles { seen[ele] = struct{}{} }] *)
Fixpoint seenLoop (eles : list T) (seen : gset T) : gset T :=
  match eles with
  | [] => seen
  | ele :: rest => seenLoop rest ({[ele]} ∪ seen)
  end.

(** [for _, ele := range s { if _, ok := seen[ele]; !ok { return false } }] *)
Fixpoint ConsistsOfLoop (s : list T) (seen : gset T) : bool :=
  match s with
  | [] => true
  | ele :: rest =>
      if negb (bool_decide (ele ∈ seen)) then false
      else ConsistsOfLoop rest seen
  end.

(** [ConsistsOf(s, eles...)] *)
Definition ConsistsOf (s eles : list T) : bool :=
  ConsistsOfLoop s (seenLoop eles ∅).

(** [for _, ele := range s { if _, ok := seen[ele]; ok { return true } }] *)
Fixpoint ContainsAnyLoop (s : list T) (seen : gset T) : bool :=
  match s with
  | [] => false
  | ele :: rest =>
      if bool_decide (ele ∈ seen) then true
      else ContainsAnyLoop rest seen
  end.

(** [ContainsAny(s, eles...)] *)
Definition ContainsAny (s eles : list T) : bool :=
  if len eles =? 0 then false
  else ContainsAnyLoop s (seenLoop eles ∅).

(** [cnts[ele]++] *)
Definition incr (cnts : gmap T Z) (ele : T) : gmap T Z :=
  <[ele := default 0 (cnts !! ele) + 1]> cnts.

(** [cnts[ele]--; if cnts[ele] == 0 { delete(cnts, ele) }] *)
Definition decr (cnts : gmap T Z) (ele : T) : gmap T Z :=
  let cnts := <[ele := default 0 (cnts !! ele) - 1]> cnts in
  if default 0 (cnts !! ele) =? 0 then delete ele cnts else cnts.

(** [for _, ele := range eles { cnts[ele]++ }] *)
Fixpoint countsLoop (eles : list T) (cnts : gmap T Z) : gmap T Z :=
  match eles with
  | [] => cnts
  | ele :: rest => countsLoop rest (incr cnts ele)
  end.

(** The second loop of [Comprises] and its [return len(cnts) == 0]. *)
Fixpoint ComprisesLoop (s : list T) (cnts : gmap T Z) : bool :=
  match s with
  | [] => Z.of_nat (size cnts) =? 0
  | ele :: rest =>
      match cnts !! ele with
      | None => false
      | Some _ => ComprisesLoop rest (decr cnts ele)
      end
  end.

(** [Comprises(s, eles...)] *)
Definition Comprises (s eles : list T) : bool :=
  if negb (len eles =? len s) then false
  else ComprisesLoop s (countsLoop eles ∅).

(** The second loop of [ContainsAll] and its [return false]. *)
Fixpoint ContainsAllLoop (s : list T) (cnts : gmap T Z) : bool :=
  match s with
  | [] => false
  | ele :: rest =>
      let cnts := match cnts !! ele with
                  | Some _ => decr cnts ele
                  | None => cnts
                  end in
      if Z.of_nat (size cnts) =? 0 then true
      else ContainsAllLoop rest cnts
  end.

(** [ContainsAll(s, eles...)] *)
Definition ContainsAll (s eles : list T) : bool :=
  if len eles =? 0 then true
  else if len eles >? len s then false
  else ContainsAllLoop s (countsLoop eles ∅).

(** The loop of [Distinct], [result] and [seen] being what is built so
    far. *)
Fixpoint DistinctLoop (s result : list T) (seen : gset T) : list T :=
  match s with
  | [] => result
  | ele :: rest =>
      if negb (bool_decide (ele ∈ seen)) then
        DistinctLoop rest (result ++ [ele]) ({[ele]} ∪ seen)
      else DistinctLoop rest result seen
  end.

(** [Distinct(s)] *)
Definition Distinct (s : list T) : list T := DistinctLoop s [] ∅.


(** What a map of counts stands for: the multiset in which every key
    occurs as often as its count says, a count being positive. *)
Definition countsOf (cnts : gmap T Z) (X : gmultiset T) : Prop :=
  forall x, cnts !! x =
            if decide (multiplicity x X = 0%nat) then None
            else Some (Z.of_nat (multiplicity x X)).

End Maps.

(** ** Transposition *)

Section Transposition.
Context {T : Type}.
(** The zero value of [T]. *)
Variable zero : T.

(** [for i := 1; i < len(s); i++ { if len(s[i]) != n { return nil, errors.New(...) } }]:
    [true] stands for the return of the error. *)
Fixpoint raggedLoop (k : nat) (s : list (list T)) (n i : Z) : outcome bool :=
  match k with
  | O => OutOfFuel
  | S k' =>
      if i <? len s then
        row ← index s i;
        if negb (len row =? n) then Ret true
        else raggedLoop k' s n (i + 1)
      else Ret false
  end.

(** [for j := 0; j < m; j++ { result[i][j] = s[j][i] }] *)
Fixpoint TransposeInner (k : nat) (s result : list (list T)) (m i j : Z)
  : outcome (list (list T)) :=
  match k with
  | O => OutOfFuel
  | S k' =>
      if j <? m then
        row ← index s j;
        v ← index row i;
        dst ← index result i;
        dst ← store dst j v;
        result ← store result i dst;
        TransposeInner k' s result m i (j + 1)
      else Ret result
  end.

(** [for i := 0; i < n; i++ { result[i] = make([]T, m); ... }] *)
Fixpoint TransposeOuter (fuel k : nat) (s result : list (list T)) (m n i : Z)
  : outcome (list (list T)) :=
  match k with
  | O => OutOfFuel
  | S k' =>
      if i <? n then
        row ← makeOf zero m;
        result ← store result i row;
        result ← TransposeInner fuel s result m i 0;
        TransposeOuter fuel k' s result m n (i + 1)
      else Ret result
  end.

(** [Transpose(s)]: the matrix and the error that are returned; a nil
    slice is the empty list. *)
Definition Transpose (fuel : nat) (s : list (list T))
  : outcome (list (list T) * option error) :=
  let m := len s in
  if m =? 0 then
    r ← makeOf [] 0;
    Ret (r, None)
  else
    row0 ← index s 0;
    let n := len row0 in
    bad ← raggedLoop fuel s n 1;
    if bad : bool then
      Ret ([], Some "all slices in s must have the same length"%string)
    else
      result ← makeOf [] n;
      result ← TransposeOuter fuel fuel s result m n 0;
      Ret (result, None).

End Transposition.

(** [s[a][b]] *)
Definition cell {A : Type} (s : list (list A)) (a b : Z) : outcome A :=
  row ← index s a;
  index row b.

(** ** Specification-level notions *)

(** What a computation establishes: it does not panic, it returns once
    [enough] fuel is given, and what it returns satisfies [Q]. *)
Definition post {A : Type} (m : outcome A) (enough : Prop) (Q : A -> Prop) : Prop :=
  match m with
  | Ret a => Q a
  | OutOfBounds => False
  | OutOfFuel => ~ enough
  end.

Section Spec.
Context {T : Type}.
Variable eqb : T -> T -> bool.

(** The two properties of Go's [==] that the correctness of the
    Apostolico-Crochemore search rests on. *)
Definition PER : Prop :=
  (forall a b, eqb a b = true -> eqb b a = true) /\
  (forall a b c, eqb a b = true -> eqb b c = true -> eqb a c = true).

(** [l1[i] == l2[j]], both reads being within bounds. *)
Definition E (l1 : list T) (i : Z) (l2 : list T) (j : Z) : Prop :=
  exists a b, index l1 i = Ret a /\ index l2 j = Ret b /\ eqb a b = true.

(** [seq[t] == s[idx + t]] for every [t] in [[0, len(seq))]. *)
Definition matchAt (s seq : list T) (idx : Z) : Prop :=
  forall t, 0 <= t < len seq -> E seq t s (idx + t).

(** [seq] occurs in [s] at the start offset [idx]. *)
Definition occurs (s seq : list T) (idx : Z) : Prop :=
  0 <= idx <= len s - len seq /\ matchAt s seq idx.

(** The first [b] elements of [p] match the [b] elements before
    position [i]. *)
Definition border (p : list T) (i b : Z) : Prop :=
  0 <= b <= i /\ i <= len p /\
  forall t, 0 <= t < b -> E p t p (i - b + t).

(** [b] is a border of the prefix of length [i] after which the pattern
    continues differently than it does at [i]. *)
Definition cand (p : list T) (i b : Z) : Prop :=
  b < i /\ border p i b /\ (i = len p \/ ~ E p i p b).

(** [v] is the greatest such border, or [-1] when there is none. *)
Definition strongNext (p : list T) (i v : Z) : Prop :=
  (0 <= v -> cand p i v) /\ (forall b, cand p i b -> b <= v).

(** [y] is the longest proper border of the prefix of length [x]. *)
Definition weakNext (p : list T) (x y : Z) : Prop :=
  (0 <= y -> border p x y) /\ (forall b, b < x -> border p x b -> b <= y).

(** The entries [0..x] of the table are filled and bounded by their
    position; they are the strong failure function when [==] is a
    partial equivalence. *)
Definition tableUpTo (p : list T) (kmpNext : list Z) (x : Z) : Prop :=
  len kmpNext = len p + 1 /\
  forall i, 0 <= i <= x ->
    exists v, index kmpNext i = Ret v /\ -1 <= v < i /\
              (PER -> strongNext p i v).

(** The pattern starts with a run of [ell] matching elements that ends
    at [ell]. *)
Definition ellRun (p : list T) (ell : Z) : Prop :=
  (forall t, 1 <= t < ell -> E p (t - 1) p t) /\
  (1 <= ell -> ~ E p (ell - 1) p ell).

(** What the cursors [(i, j, k)] of the search stand for at the head of its
    loop: the pattern matches the haystack at alignment [j] on the
    positions [[ell, i)] and [[0, k)], and it occurs at no earlier
    alignment. *)
Definition acSem (s p : list T) (ell i j k : Z) : Prop :=
  (forall t, ell <= t < i -> E p t s (j + t)) /\
  (forall t, 0 <= t < k -> E p t s (j + t)) /\
  (forall j0, j0 < j -> ~ occurs s p j0).

(** The period prefix length as the specification words it, on the list
    itself: one more than the number of leading positions whose element
    matches the next one... *)
Fixpoint initialRun (p : list T) : Z :=
  match p with
  | a :: ((b :: _) as rest) => if eqb a b then 1 + initialRun rest else 1
  | _ => 1
  end.

(** ... reset to [0] when the run is the whole pattern. *)
Definition ComputePeriodPrefix_spec (p : list T) : Z :=
  if initialRun p =? len p then 0 else initialRun p.

End Spec.

(** The values met when following the table from [idx] down to the first
    negative one. *)
Fixpoint followNext (n : nat) (kmpNext : list Z) (idx : Z) : outcome (list Z) :=
  match n with
  | O => OutOfFuel
  | S n' =>
      if idx <? 0 then Ret []
      else v ← index kmpNext idx;
           rest ← followNext n' kmpNext v;
           Ret (v :: rest)
  end.

(** [l] is strictly decreasing and every element of it is below [top]. *)
Fixpoint decreasingFrom (top : Z) (l : list Z) : Prop :=
  match l with
  | [] => True
  | v :: rest => v < top /\ decreasingFrom v rest
  end.

(** ** Outcomes, reads and writes *)

Lemma bind_Ret {A B : Type} (a : A) (k : A -> outcome B) : (Ret a ≫= k) = k a.
Proof. reflexivity. Qed.

Lemma post_bind {A B : Type} (m : outcome A) (k : A -> outcome B)
  (e : Prop) (Q : A -> Prop) (R : B -> Prop) :
  post m e Q -> (forall a, Q a -> post (k a) e R) -> post (m ≫= k) e R.
Proof.
  destruct m as [a| |]; simpl; intros Hm Hk.
  - apply Hk, Hm.
  - exact Hm.
  - exact Hm.
Qed.

Lemma post_weaken {A : Type} (m : outcome A) (e e' : Prop) (Q Q' : A -> Prop) :
  post m e Q -> (e' -> e) -> (forall a, Q a -> Q' a) -> post m e' Q'.
Proof.
  destruct m as [a| |]; simpl; intros Hm He HQ.
  - apply HQ, Hm.
  - exact Hm.
  - intros H; apply Hm, He, H.
Qed.

Lemma post_Ret_inv {A : Type} (m : outcome A) (e : Prop) (Q : A -> Prop) :
  post m e Q -> e -> exists a, m = Ret a /\ Q a.
Proof.
  destruct m as [a| |]; simpl; intros Hm He.
  - exists a; split; [reflexivity | exact Hm].
  - destruct Hm.
  - destruct (Hm He).
Qed.

Lemma post_not_OutOfBounds {A : Type} (m : outcome A) (e : Prop) (Q : A -> Prop) :
  post m e Q -> m <> OutOfBounds.
Proof. destruct m; simpl; intros Hm; [discriminate | destruct Hm | discriminate]. Qed.

Lemma len_nonneg {A : Type} (l : list A) : 0 <= len l.
Proof. unfold len; lia. Qed.

Lemma len_cons {A : Type} (a : A) (l : list A) : len (a :: l) = len l + 1.
Proof. unfold len; simpl; lia. Qed.

Lemma index_inb {A : Type} (l : list A) (i : Z) :
  0 <= i < len l -> exists a, index l i = Ret a.
Proof.
  intros Hi. unfold index.
  destruct (Z.ltb_spec i 0) as [Hneg|_]; [lia|].
  destruct (l !! Z.to_nat i) as [a|] eqn:Hl.
  - exists a; reflexivity.
  - apply lookup_ge_None in Hl. unfold len in Hi. lia.
Qed.

Lemma index_Ret_inb {A : Type} (l : list A) (i : Z) (a : A) :
  index l i = Ret a -> 0 <= i < len l.
Proof.
  unfold index.
  destruct (Z.ltb_spec i 0) as [Hneg|Hpos]; [discriminate|].
  destruct (l !! Z.to_nat i) as [a'|] eqn:Hl; [|discriminate].
  intros _. apply lookup_lt_Some in Hl. unfold len. lia.
Qed.

Lemma store_inb {A : Type} (l : list A) (i : Z) (v : A) :
  0 <= i < len l -> store l i v = Ret (<[Z.to_nat i := v]> l).
Proof.
  intros Hi. unfold store.
  destruct (Z.leb_spec 0 i); [|lia].
  destruct (Z.ltb_spec i (len l)); [|lia].
  reflexivity.
Qed.

Lemma len_insert {A : Type} (l : list A) (n : nat) (v : A) :
  len (<[n := v]> l) = len l.
Proof. unfold len. rewrite length_insert. reflexivity. Qed.

Lemma index_insert_eq {A : Type} (l : list A) (i : Z) (v : A) :
  0 <= i < len l -> index (<[Z.to_nat i := v]> l) i = Ret v.
Proof.
  intros Hi. unfold index.
  destruct (Z.ltb_spec i 0) as [Hneg|_]; [lia|].
  rewrite list_lookup_insert_eq; [reflexivity|]. unfold len in Hi. lia.
Qed.

Lemma index_insert_ne {A : Type} (l : list A) (i j : Z) (v : A) :
  0 <= i -> i <> j -> index (<[Z.to_nat i := v]> l) j = index l j.
Proof.
  intros Hi Hne. unfold index.
  destruct (Z.ltb_spec j 0) as [Hneg|Hj]; [reflexivity|].
  rewrite list_lookup_insert_ne; [reflexivity|]. lia.
Qed.

Lemma len_make (n : Z) : 0 <= n -> len (make n) = n.
Proof. intros Hn. unfold len, make. rewrite length_replicate. lia. Qed.

(** ** Element comparisons *)

Section Comparisons.
Context {T : Type}.
Variable eqb : T -> T -> bool.

Lemma E_intro (l1 l2 : list T) (i j : Z) (a b : T) :
  index l1 i = Ret a -> index l2 j = Ret b -> eqb a b = true ->
  E eqb l1 i l2 j.
Proof. intros Ha Hb Hab. exists a, b. auto. Qed.

Lemma E_false (l1 l2 : list T) (i j : Z) (a b : T) :
  index l1 i = Ret a -> index l2 j = Ret b -> eqb a b = false ->
  ~ E eqb l1 i l2 j.
Proof.
  intros Ha Hb Hab (a' & b' & Ha' & Hb' & Hab').
  rewrite Ha in Ha'. rewrite Hb in Hb'.
  injection Ha' as <-. injection Hb' as <-. congruence.
Qed.

Lemma E_sym (l1 l2 : list T) (i j : Z) :
  PER eqb -> E eqb l1 i l2 j -> E eqb l2 j l1 i.
Proof.
  intros [Hsym _] (a & b & Ha & Hb & Hab). exists b, a. auto.
Qed.

Lemma E_trans (l1 l2 l3 : list T) (i j k : Z) :
  PER eqb -> E eqb l1 i l2 j -> E eqb l2 j l3 k -> E eqb l1 i l3 k.
Proof.
  intros [_ Htrans] (a & b & Ha & Hb & Hab) (b' & c & Hb' & Hc & Hbc).
  rewrite Hb in Hb'. injection Hb' as <-.
  exists a, c. eauto.
Qed.

Lemma E_shift (l1 l2 : list T) (i i' j j' : Z) :
  i = i' -> j = j' -> E eqb l1 i l2 j -> E eqb l1 i' l2 j'.
Proof. intros -> ->. auto. Qed.

End Comparisons.

(** ** The dispatch and its short cuts *)

Section Dispatch.
Context {T : Type}.
Variable eqb : T -> T -> bool.

Lemma Contains_spec (s : list T) (x : T) :
  Contains eqb s x = true <-> exists e, e ∈ s /\ eqb e x = true.
Proof.
  induction s as [|a s IH]; simpl.
  - split; [discriminate|]. intros (e & He & _). inversion He.
  - destruct (eqb a x) eqn:Hax.
    + split; [|reflexivity]. intros _. exists a. split; [left|exact Hax].
    + rewrite IH. split.
      * intros (e & He & Hex). exists e. split; [right; exact He|exact Hex].
      * intros (e & He & Hex). inversion He; subst.
        -- congruence.
        -- exists e. auto.
Qed.

Lemma applyOpts_app (opts1 opts2 : list ContainsSequenceOpt)
  (args : containsSequenceArgs) :
  applyOpts (opts1 ++ opts2) args = applyOpts opts2 (applyOpts opts1 args).
Proof.
  revert args. induction opts1 as [|o opts1 IH]; intros args; simpl.
  - reflexivity.
  - apply IH.
Qed.

Lemma ContainsSequence_dispatch (fuel : nat) (s seq : list T)
  (opts : list ContainsSequenceOpt) :
  2 <= len seq <= len s ->
  ContainsSequence eqb fuel s seq opts =
    if String.eqb (searchAlgorithm (applyOpts opts zeroArgs))
         containsSequenceApostolicoCrochemore
    then apostolicoCrochemoreSearch eqb fuel s seq
    else bruteForceSearch eqb s seq.
Proof.
  intros Hlen. unfold ContainsSequence.
  destruct (Z.ltb_spec (len s) (len seq)); [lia|].
  destruct (Z.eqb_spec (len seq) 0); [lia|].
  destruct (Z.eqb_spec (len seq) 1); [lia|].
  destruct (String.eqb _ containsSequenceApostolicoCrochemore); [reflexivity|].
  destruct (String.eqb _ containsSequenceBruteForce); reflexivity.
Qed.

(** *** Brute force *)

Lemma bruteForceInner_spec (s seq : list T) (idx : Z) :
  0 <= idx -> idx + len seq <= len s ->
  forall (cnt : nat) (seqIdx : Z),
    0 <= seqIdx -> Z.of_nat cnt = len seq - seqIdx ->
    exists b, bruteForceInner eqb cnt s seq idx seqIdx = Ret b /\
      (b = true <->
       forall t, seqIdx <= t < len seq -> E eqb s (idx + t) seq t).
Proof.
  intros Hidx Hfit. induction cnt as [|cnt IH]; intros seqIdx Hpos Hcnt.
  - exists true. split; [reflexivity|]. split; [|reflexivity].
    intros _ t Ht. lia.
  - cbn [bruteForceInner].
    destruct (index_inb s (idx + seqIdx)) as [a Ha]; [lia|].
    destruct (index_inb seq seqIdx) as [b Hb]; [lia|].
    rewrite Ha, bind_Ret, Hb, bind_Ret.
    destruct (eqb a b) eqn:Hab; simpl.
    + destruct (IH (seqIdx + 1)) as (r & Hr & Hiff); [lia|lia|].
      exists r. split; [exact Hr|]. rewrite Hiff. split.
      * intros Hall t Ht. destruct (Z.eq_dec t seqIdx) as [->|Hne].
        -- eapply E_intro; eauto.
        -- apply Hall. lia.
      * intros Hall t Ht. apply Hall. lia.
    + exists false. split; [reflexivity|]. split; [discriminate|].
      intros Hall. exfalso.
      eapply (E_false eqb s seq); eauto. apply Hall. lia.
Qed.

Lemma bruteForceOuter_spec (s seq : list T) :
  forall (cnt : nat) (idx : Z),
    0 <= idx -> Z.of_nat cnt = len s - idx ->
    exists b, bruteForceOuter eqb cnt s seq idx = Ret b /\
      (b = true <->
       exists j, idx <= j < len s /\ j <= len s - len seq /\
         forall t, 0 <= t < len seq -> E eqb s (j + t) seq t).
Proof.
  induction cnt as [|cnt IH]; intros idx Hidx Hcnt.
  - exists false. split; [reflexivity|]. split; [discriminate|].
    intros (j & Hj & _). lia.
  - cbn [bruteForceOuter].
    destruct (Z.ltb_spec (len s - idx) (len seq)) as [Hshort|Hfit].
    + exists false. split; [reflexivity|]. split; [discriminate|].
      intros (j & Hj & Hj' & _). lia.
    + destruct (bruteForceInner_spec s seq idx Hidx ltac:(lia)
                  (length seq) 0 ltac:(lia) ltac:(unfold len; lia))
        as (m & Hm & Hiff).
      rewrite Hm, bind_Ret. destruct m.
      * exists true. split; [reflexivity|]. split; [|reflexivity].
        intros _. exists idx. split; [lia|]. split; [lia|].
        apply Hiff; reflexivity.
      * destruct (IH (idx + 1)) as (r & Hr & Hriff); [lia|lia|].
        exists r. split; [exact Hr|]. rewrite Hriff. split.
        -- intros (j & Hj & Hj' & Hall). exists j. split; [lia|]. auto.
        -- intros (j & Hj & Hj' & Hall).
           destruct (Z.eq_dec j idx) as [->|Hne].
           ++ assert (false = true) as Habs by (apply Hiff; exact Hall).
              discriminate.
           ++ exists j. split; [lia|]. auto.
Qed.

(** [bruteForceSearch] never panics, needs no fuel, and finds exactly the
    offsets within the haystack; the offset [len(s)] of an empty pattern
    in an empty haystack is not one of them. *)
Lemma bruteForceSearch_spec (s seq : list T) :
  (forall a b, eqb a b = true -> eqb b a = true) ->
  exists b, bruteForceSearch eqb s seq = Ret b /\
    (b = true <-> exists idx, idx < len s /\ occurs eqb s seq idx).
Proof.
  intros Hsym. unfold bruteForceSearch.
  destruct (bruteForceOuter_spec s seq (length s) 0) as (b & Hb & Hiff);
    [lia|unfold len; lia|].
  exists b. split; [exact Hb|]. rewrite Hiff. split.
  - intros (j & Hj & Hj' & Hall). exists j. split; [lia|].
    split; [lia|]. intros t Ht.
    destruct (Hall t Ht) as (x & y & Hx & Hy & Hxy).
    exists y, x. auto.
  - intros (j & Hj & [Hrange Hall]). exists j. split; [lia|].
    split; [lia|]. intros t Ht.
    destruct (Hall t Ht) as (x & y & Hx & Hy & Hxy).
    exists y, x. auto.
Qed.

End Dispatch.

(** ** The failure table *)

Ltac read l i a H :=
  destruct (index_inb l i) as [a H]; [try lia | rewrite H, ?bind_Ret].

Section Table.
Context {T : Type}.
Variable eqb : T -> T -> bool.
Variable p : list T.

Abbreviation Ep := (E eqb p).

Lemma border_zero (x : Z) : 0 <= x <= len p -> border eqb p x 0.
Proof. intros Hx. repeat split; try lia. Qed.

Lemma border_border (x y b : Z) :
  PER eqb -> border eqb p x y -> border eqb p y b -> border eqb p x b.
Proof.
  intros Hper (Hy & Hx & Hxy) (Hb & _ & Hyb).
  repeat split; try lia. intros t Ht.
  eapply E_trans; [exact Hper | apply Hyb; lia |].
  eapply E_shift; [reflexivity | | apply (Hxy (y - b + t)); lia]. lia.
Qed.

Lemma border_of_smaller (x y b : Z) :
  PER eqb -> border eqb p x y -> border eqb p x b -> b <= y ->
  border eqb p y b.
Proof.
  intros Hper (Hy & Hx & Hxy) (Hb & _ & Hxb) Hle.
  repeat split; try lia. intros t Ht.
  eapply E_trans; [exact Hper | apply Hxb; lia |].
  apply E_sym; [exact Hper|].
  eapply E_shift; [reflexivity | | apply (Hxy (y - b + t)); lia]. lia.
Qed.

Lemma border_extend (x y : Z) :
  PER eqb -> x < len p -> border eqb p x y -> Ep x p y ->
  border eqb p (x + 1) (y + 1).
Proof.
  intros Hper Hlt (Hy & Hx & Hxy) Hxy'.
  repeat split; try lia. intros t Ht.
  destruct (Z.eq_dec t y) as [->|Hne].
  - apply E_sym; [exact Hper|].
    eapply E_shift; [| reflexivity | exact Hxy']. lia.
  - eapply E_shift; [reflexivity | | apply (Hxy t); lia]. lia.
Qed.

Lemma border_shrink (x b : Z) :
  0 <= b -> border eqb p (x + 1) (b + 1) ->
  border eqb p x b /\ Ep b p x.
Proof.
  intros Hb (Hb' & Hx & Hall). split.
  - repeat split; try lia. intros t Ht.
    eapply E_shift; [reflexivity | | apply (Hall t); lia]. lia.
  - eapply E_shift; [reflexivity | | apply (Hall b); lia]. lia.
Qed.

Lemma strongNext_unique (i v w : Z) :
  -1 <= v -> -1 <= w ->
  strongNext eqb p i v -> strongNext eqb p i w -> v = w.
Proof.
  intros Hv Hw [Hv1 Hv2] [Hw1 Hw2].
  destruct (Z_lt_le_dec v 0) as [Hvneg|Hvpos];
    destruct (Z_lt_le_dec w 0) as [Hwneg|Hwpos].
  - lia.
  - specialize (Hv2 w (Hw1 Hwpos)). lia.
  - specialize (Hw2 v (Hv1 Hvpos)). lia.
  - specialize (Hv2 w (Hw1 Hwpos)). specialize (Hw2 v (Hv1 Hvpos)). lia.
Qed.

(** The fallback loop: from a border [y] of the prefix of length [x] that
    bounds every border after which the pattern continues as at [x], it
    reaches the longest such border. *)
Lemma kmpFallback_spec (kmpNext : list Z) (x : Z) :
  0 <= x < len p -> tableUpTo eqb p kmpNext x ->
  forall (n : nat) (y : Z),
    -1 <= y < x ->
    (PER eqb ->
     (0 <= y -> border eqb p x y) /\
     (forall b, b < x -> border eqb p x b -> Ep x p b -> b <= y)) ->
    post (kmpFallback eqb n p kmpNext x y) (y + 1 < Z.of_nat n)
      (fun y1 => -1 <= y1 <= y /\
         (PER eqb ->
          (0 <= y1 -> border eqb p x y1 /\ Ep x p y1) /\
          (forall b, b < x -> border eqb p x b -> Ep x p b -> b <= y1))).
Proof.
  intros Hx [Hlen Htab]. induction n as [|n IH]; intros y Hy Hinv.
  - simpl. lia.
  - cbn [kmpFallback].
    destruct (Z.gtb_spec y (-1)) as [Hpos|Hneg].
    + destruct (Z.eqb_spec x (len p)) as [Heq|_]; [lia|].
      read p x a Ha. read p y b Hb.
      destruct (eqb a b) eqn:Hab; simpl.
      * split; [lia|]. intros Hper. destruct (Hinv Hper) as [Hbor Hmax].
        split; [|exact Hmax]. intros _. split; [apply Hbor; lia|].
        eapply E_intro; eauto.
      * destruct (Htab y) as (v & Hv & Hvb & Hstrong); [lia|].
        rewrite Hv, bind_Ret.
        eapply post_weaken; [apply (IH v); [lia|] | lia |].
        -- intros Hper. destruct (Hinv Hper) as [Hbor Hmax].
           destruct (Hstrong Hper) as [Hcand Hgreatest].
           assert (Hnot : ~ Ep x p y) by (eapply E_false; eauto).
           split.
           ++ intros Hv0. destruct (Hcand Hv0) as (_ & Hbv & _).
              eapply border_border; [exact Hper | apply Hbor; lia | exact Hbv].
           ++ intros c Hcx Hc Hxc. specialize (Hmax c Hcx Hc Hxc).
              assert (c <> y) by (intros ->; contradiction).
              apply Hgreatest. split; [lia|]. split.
              ** eapply border_of_smaller;
                   [exact Hper | apply Hbor; lia | exact Hc | lia].
              ** right. intros Hyc. apply Hnot.
                 eapply E_trans; [exact Hper | exact Hxc |].
                 apply E_sym; [exact Hper | exact Hyc].
        -- intros y1 [Hy1 Hrest]. split; [lia | exact Hrest].
    + simpl. split; [lia|]. intros Hper. destruct (Hinv Hper) as [Hbor Hmax].
      split; [intros; lia | exact Hmax].
Qed.

(** The assignment of [kmpNext[x]], [y] being the longest proper border
    of the prefix of length [x]. *)
Lemma kmpAssign_spec (kmpNext : list Z) (x y : Z) :
  1 <= x <= len p -> 0 <= y < x ->
  tableUpTo eqb p kmpNext (x - 1) ->
  (PER eqb -> weakNext eqb p x y) ->
  post (kmpAssign eqb p kmpNext x y) True
    (fun kmpNext' => tableUpTo eqb p kmpNext' x).
Proof.
  intros Hx Hy [Hlen Htab] Hweak. unfold kmpAssign.
  assert (Hkeep : forall v, -1 <= v < x -> (PER eqb -> strongNext eqb p x v) ->
            post (store kmpNext x v) True
              (fun kmpNext' => tableUpTo eqb p kmpNext' x)).
  { intros v Hv Hstrong. rewrite store_inb by lia. simpl. split.
    - rewrite len_insert. exact Hlen.
    - intros i Hi. destruct (Z.eq_dec i x) as [->|Hne].
      + exists v. split; [apply index_insert_eq; lia|]. split; [lia|exact Hstrong].
      + rewrite index_insert_ne by lia. apply Htab. lia. }
  assert (Hplain : (x = len p \/ PER eqb -> x = len p \/ ~ Ep x p y) ->
            post (store kmpNext x y) True
              (fun kmpNext' => tableUpTo eqb p kmpNext' x)).
  { intros Hdiff. apply Hkeep; [lia|]. intros Hper.
    destruct (Hweak Hper) as [Hbor Hmax]. split.
    - intros _. split; [lia|]. split; [apply Hbor; lia|].
      apply Hdiff. right; exact Hper.
    - intros b (Hb & Hbb & _). apply Hmax; assumption. }
  destruct (Z.eqb_spec x (len p)) as [Heq|Hne]; simpl.
  - apply Hplain. intros _. left; exact Heq.
  - read p x a Ha. read p y b Hb.
    destruct (eqb a b) eqn:Hab.
    + destruct (Htab y) as (v & Hv & Hvb & Hstrong); [lia|].
      rewrite Hv, bind_Ret. apply Hkeep; [lia|]. intros Hper.
      destruct (Hweak Hper) as [Hbor Hmax].
      destruct (Hstrong Hper) as [Hcand Hgreatest].
      assert (Hxy : Ep x p y) by (eapply E_intro; eauto).
      split.
      * intros Hv0. destruct (Hcand Hv0) as (_ & Hbv & Hdiff).
        split; [lia|]. split.
        -- eapply border_border; [exact Hper | apply Hbor; lia | exact Hbv].
        -- right. intros Hxv. destruct Hdiff as [Hend|Hyv]; [lia|].
           apply Hyv. eapply E_trans; [exact Hper | | exact Hxv].
           apply E_sym; [exact Hper | exact Hxy].
      * intros c (Hc & Hbc & Hdiff). destruct Hdiff as [Hend|Hxc]; [lia|].
        specialize (Hmax c Hc Hbc).
        assert (c <> y) by (intros ->; contradiction).
        apply Hgreatest. split; [lia|]. split.
        -- eapply border_of_smaller;
             [exact Hper | apply Hbor; lia | exact Hbc | lia].
        -- right. intros Hyc. apply Hxc.
           eapply E_trans; [exact Hper | exact Hxy | exact Hyc].
    + apply Hplain. intros _. right. eapply E_false; eauto.
Qed.

(** The table loop. *)
Lemma kmpLoop_spec (fuel : nat) :
  forall (n : nat) (kmpNext : list Z) (x y : Z),
    0 <= x <= len p -> -1 <= y < x ->
    tableUpTo eqb p kmpNext x ->
    (PER eqb -> weakNext eqb p x y) ->
    post (kmpLoop eqb fuel n p kmpNext x y)
      (len p - x < Z.of_nat n /\ len p < Z.of_nat fuel)
      (fun kmpNext' => tableUpTo eqb p kmpNext' (len p)).
Proof.
  induction n as [|n IH]; intros kmpNext x y Hx Hy Htab Hweak.
  - simpl. lia.
  - cbn [kmpLoop]. destruct (Z.ltb_spec x (len p)) as [Hlt|Hge].
    + eapply post_bind.
      { eapply post_weaken;
          [apply (kmpFallback_spec kmpNext x); [lia | exact Htab | exact Hy |]
          | | intros y1 Hy1; exact Hy1].
        - intros Hper. destruct (Hweak Hper) as [Hbor Hmax]. split.
          + exact Hbor.
          + intros b Hbx Hb _. apply Hmax; assumption.
        - lia. }
      intros y1 [Hy1 Hsem]. simpl.
      assert (Hweak' : PER eqb -> weakNext eqb p (x + 1) (y1 + 1)).
      { intros Hper. destruct (Hsem Hper) as [Hbor Hmax]. split.
        - intros _. destruct (Z_lt_le_dec y1 0) as [Hneg|Hpos].
          + replace (y1 + 1) with 0 by lia. apply border_zero. lia.
          + destruct (Hbor Hpos) as [Hb HE].
            apply border_extend; assumption.
        - intros b Hb Hbb. destruct (Z_le_gt_dec b 0) as [Hb0|Hb1]; [lia|].
          replace b with ((b - 1) + 1) in Hbb by lia.
          apply border_shrink in Hbb; [|lia]. destruct Hbb as [Hbb HE].
          assert (b - 1 <= y1); [|lia].
          apply Hmax; [lia | exact Hbb |]. apply E_sym; [exact Hper | exact HE]. }
      eapply post_bind.
      { eapply post_weaken;
          [apply (kmpAssign_spec kmpNext (x + 1) (y1 + 1)); [lia | lia | | exact Hweak']
          | auto | intros K HK; exact HK].
        replace (x + 1 - 1) with x by lia. exact Htab. }
      intros K HK. simpl.
      eapply post_weaken; [apply IH; [lia | lia | exact HK | exact Hweak'] | lia | auto].
    + simpl. replace (len p) with x by lia. exact Htab.
Qed.

(** The preprocessing never panics, returns once [fuel] exceeds the
    length of the pattern, and fills the whole table. *)
Lemma preKmp_spec (fuel : nat) :
  post (preKmp eqb fuel p) (len p < Z.of_nat fuel)
    (fun kmpNext => tableUpTo eqb p kmpNext (len p)).
Proof.
  unfold preKmp. pose proof (len_nonneg p) as Hp.
  rewrite store_inb by (rewrite len_make; lia). rewrite bind_Ret.
  eapply post_weaken; [apply (kmpLoop_spec fuel fuel _ 0 (-1)); try lia | | auto].
  - split.
    + rewrite len_insert, len_make; lia.
    + intros i Hi. assert (i = 0) as -> by lia. exists (-1).
      split; [apply index_insert_eq; rewrite len_make; lia|].
      split; [lia|]. intros _. split; [lia|].
      intros b (Hb & (Hb' & _) & _). lia.
  - intros _. split; [lia|]. intros b Hb (Hb' & _). lia.
  - lia.
Qed.

End Table.

(** ** The period prefix length *)

Section Period.
Context {T : Type}.
Variable eqb : T -> T -> bool.
Variable p : list T.

Abbreviation Ep := (E eqb p).

Lemma ellLoop_spec :
  forall (n : nat) (ell : Z),
    1 <= ell ->
    (forall t, 1 <= t < ell -> Ep (t - 1) p t) ->
    post (ellLoop eqb n p ell) (Z.max 0 (len p - ell) < Z.of_nat n)
      (fun e => ell <= e <= Z.max ell (len p) /\
         (forall t, 1 <= t < e -> Ep (t - 1) p t) /\
         (e < len p -> ~ Ep (e - 1) p e)).
Proof.
  induction n as [|n IH]; intros ell Hell Hrun.
  - simpl. lia.
  - cbn [ellLoop]. destruct (Z.ltb_spec ell (len p)) as [Hlt|Hge].
    + read p (ell - 1) a Ha. read p ell b Hb.
      destruct (eqb a b) eqn:Hab.
      * eapply post_weaken; [apply (IH (ell + 1)); [lia|] | lia |].
        -- intros t Ht. destruct (Z.eq_dec t ell) as [->|Hne].
           ++ eapply E_intro; eauto.
           ++ apply Hrun. lia.
        -- intros e (He & Hrest). split; [lia | exact Hrest].
      * simpl. split; [lia|]. split; [exact Hrun|].
        intros _. eapply E_false; eauto.
    + simpl. split; [lia|]. split; [exact Hrun|]. lia.
Qed.

(** [ell] is a position of the pattern, and the run of matching elements
    the pattern starts with ends there. *)
Lemma computeEll_spec (fuel : nat) :
  1 <= len p ->
  post (computeEll eqb fuel p) (len p <= Z.of_nat fuel)
    (fun ell => 0 <= ell < len p /\ ellRun eqb p ell).
Proof.
  intros Hp. unfold computeEll. eapply post_bind.
  - eapply post_weaken; [apply (ellLoop_spec fuel 1); [lia|intros; lia] | lia |].
    intros e He; exact He.
  - intros e (He & Hrun & Hstop). simpl.
    destruct (Z.eqb_spec e (len p)) as [Heq|Hne].
    + split; [lia|]. split; intros; lia.
    + split; [lia|]. split; [exact Hrun|]. intros _. apply Hstop. lia.
Qed.

Lemma initialRun_short (l : list T) : len l <= 1 -> initialRun eqb l = 1.
Proof.
  destruct l as [|a [|b l]]; [reflexivity | reflexivity |].
  rewrite !len_cons. pose proof (len_nonneg l). lia.
Qed.

Lemma initialRun_cons (a b : T) (l : list T) :
  initialRun eqb (a :: b :: l) =
    if eqb a b then 1 + initialRun eqb (b :: l) else 1.
Proof. reflexivity. Qed.

Lemma index_drop (i : Z) (a : T) :
  index p i = Ret a ->
  drop (Z.to_nat i) p = a :: drop (Z.to_nat (i + 1)) p.
Proof.
  intros Ha. pose proof (index_Ret_inb _ _ _ Ha) as Hi.
  unfold index in Ha. destruct (Z.ltb_spec i 0); [lia|].
  destruct (p !! Z.to_nat i) as [a'|] eqn:Hl; [|discriminate].
  injection Ha as ->.
  replace (Z.to_nat (i + 1)) with (S (Z.to_nat i)) by lia.
  apply drop_S. exact Hl.
Qed.

(** The loop computes the run the specification describes. *)
Lemma ellLoop_initialRun :
  forall (n : nat) (ell : Z),
    1 <= ell -> Z.max 0 (len p - ell) < Z.of_nat n ->
    ellLoop eqb n p ell =
      Ret (ell - 1 + initialRun eqb (drop (Z.to_nat (ell - 1)) p)).
Proof.
  induction n as [|n IH]; intros ell Hell Hn; [lia|].
  cbn [ellLoop]. destruct (Z.ltb_spec ell (len p)) as [Hlt|Hge].
  - read p (ell - 1) a Ha. read p ell b Hb.
    rewrite (index_drop _ _ Ha). replace (ell - 1 + 1) with ell by lia.
    rewrite (index_drop _ _ Hb), initialRun_cons.
    destruct (eqb a b).
    + rewrite IH by lia. f_equal.
      replace (ell + 1 - 1) with ell by lia.
      rewrite (index_drop _ _ Hb). lia.
    + f_equal. lia.
  - rewrite initialRun_short; [f_equal; lia|].
    unfold len in *. rewrite length_drop. lia.
Qed.

(** Consequences of [ellRun] when [==] is a partial equivalence. *)

Lemma run_eq (ell : Z) :
  PER eqb -> ellRun eqb p ell ->
  forall (d : nat) (a : Z), 0 <= a -> a + 1 + Z.of_nat d < ell ->
    Ep a p (a + 1 + Z.of_nat d).
Proof.
  intros Hper [Hrun _]. induction d as [|d IH]; intros a Ha Hlt.
  - eapply E_shift; [| | apply (Hrun (a + 1)); lia]; lia.
  - eapply E_trans; [exact Hper | apply (IH a); lia |].
    eapply E_shift; [| | apply (Hrun (a + 1 + Z.of_nat (S d))); lia]; lia.
Qed.

Lemma run_ne (ell a : Z) :
  PER eqb -> ellRun eqb p ell -> 0 <= a < ell -> ~ Ep a p ell.
Proof.
  intros Hper Hrun Ha Hae. pose proof Hrun as [_ Hstop].
  apply Hstop; [lia|].
  destruct (Z.eq_dec a (ell - 1)) as [->|Hne]; [exact Hae|].
  eapply E_trans; [exact Hper | | exact Hae].
  apply E_sym; [exact Hper|].
  eapply E_shift; [reflexivity | |
    apply (run_eq ell Hper Hrun (Z.to_nat (ell - 1 - a - 1)) a); lia].
  lia.
Qed.

(** The table sends [ell] to [ell - 1]. *)
Lemma strongNext_ell (ell : Z) :
  PER eqb -> 0 <= ell < len p -> ellRun eqb p ell ->
  strongNext eqb p ell (ell - 1).
Proof.
  intros Hper Hell Hrun. split.
  - intros Hpos. split; [lia|]. split.
    + repeat split; try lia. intros t Ht.
      eapply E_shift; [| | apply (proj1 Hrun (t + 1)); lia]; lia.
    + right. intros Hx. apply (proj2 Hrun); [lia|].
      apply E_sym; [exact Hper | exact Hx].
  - intros b (Hb & _). lia.
Qed.

(** A border of a prefix that reaches beyond [ell] starts at least [ell]
    positions before the end of that prefix. *)
Lemma border_past_run (ell i v : Z) :
  PER eqb -> ellRun eqb p ell -> 0 <= ell < i ->
  border eqb p i v -> v < i -> ell <= i - v.
Proof.
  intros Hper Hrun Hell (Hv & Hi & Hall) Hlt.
  destruct (Z_le_gt_dec ell (i - v)) as [Hok|Hbad]; [exact Hok|].
  exfalso. apply (run_ne ell (ell - (i - v)) Hper Hrun); [lia|].
  eapply E_shift; [reflexivity | | apply (Hall (ell - (i - v))); lia]. lia.
Qed.

End Period.

(** ** The Apostolico-Crochemore search *)

Section Scan.
Context {T : Type}.
Variable eqb : T -> T -> bool.
Variables s p : list T.

Abbreviation Eps := (fun t u => E eqb p t s u).

Lemma matchLoop_spec (bound j : Z) :
  0 <= j -> j + len p <= len s -> bound <= len p ->
  forall (n : nat) (i : Z),
    0 <= i <= bound ->
    post (matchLoop eqb n s p bound j i) (bound - i < Z.of_nat n)
      (fun i1 => i <= i1 <= bound /\
         (forall t, i <= t < i1 -> Eps t (j + t)) /\
         (i1 < bound -> ~ Eps i1 (j + i1))).
Proof.
  intros Hj Hfit Hbound. induction n as [|n IH]; intros i Hi.
  - simpl. lia.
  - cbn [matchLoop]. destruct (Z.ltb_spec i bound) as [Hlt|Hge].
    + read p i a Ha. read s (i + j) b Hb.
      replace (i + j) with (j + i) in Hb by lia.
      destruct (eqb a b) eqn:Hab.
      * eapply post_weaken; [apply (IH (i + 1)); lia | lia |].
        intros i1 (Hi1 & Hall & Hstop). split; [lia|]. split; [|exact Hstop].
        intros t Ht. destruct (Z.eq_dec t i) as [->|Hne].
        -- eapply E_intro; eauto.
        -- apply Hall. lia.
      * simpl. split; [lia|]. split; [intros; lia|].
        intros _. eapply E_false; eauto.
    + simpl. split; [lia|]. split; intros; lia.
Qed.

Lemma resync_eq (kmpNext : list Z) (ell i k v : Z) :
  index kmpNext i = Ret v ->
  resync kmpNext ell i k =
    Ret (if i =? ell then (i, if k - 1 >? 0 then k - 1 else 0)
         else if v <=? ell then (ell, if v >? 0 then v else 0)
         else (v, ell)).
Proof.
  intros Hv. unfold resync. destruct (i =? ell); [reflexivity|].
  rewrite Hv, bind_Ret. destruct (v <=? ell); rewrite bind_Ret.
  - destruct (v >? 0); [rewrite bind_Ret|]; reflexivity.
  - reflexivity.
Qed.

(** A mismatch rules the current alignment out. *)
Lemma mismatch_no_occurrence (j t : Z) :
  0 <= t < len p -> ~ Eps t (j + t) -> ~ occurs eqb s p j.
Proof. intros Ht Hne [_ Hall]. apply Hne, Hall, Ht. Qed.

(** No alignment that the shift [i - kmpNext[i]] passes over holds an
    occurrence. *)
Lemma no_occurrence_skipped (ell i j v : Z) :
  PER eqb -> ellRun eqb p ell -> 0 <= ell < i -> i <= len p ->
  (forall t, ell <= t < i -> Eps t (j + t)) ->
  (i < len p -> ~ Eps i (j + i)) ->
  -1 <= v -> strongNext eqb p i v ->
  forall j0, j < j0 < j + (i - v) -> ~ occurs eqb s p j0.
Proof.
  intros Hper Hrun Hell Hi Hsuf Hmis Hv [_ Hgreatest] j0 Hj0 [Hrange Hocc].
  destruct (Z_lt_le_dec (j0 - j) ell) as [Hshort|Hlong].
  - apply (run_ne eqb p ell (ell - (j0 - j)) Hper Hrun); [lia|].
    eapply E_trans; [exact Hper | |
      apply E_sym; [exact Hper | apply (Hsuf ell); lia]].
    eapply E_shift; [reflexivity | | apply (Hocc (ell - (j0 - j))); lia]. lia.
  - assert (Hcand : cand eqb p i (i - (j0 - j))).
    { split; [lia|]. split.
      - repeat split; try lia. intros t Ht.
        eapply E_trans; [exact Hper | apply (Hocc t); lia |].
        apply E_sym; [exact Hper|].
        eapply E_shift; [| | apply (Hsuf (j0 - j + t)); lia]; lia.
      - destruct (Z.eq_dec i (len p)) as [Heq|Hne]; [left; exact Heq|].
        right. intros Hib. apply Hmis; [lia|].
        eapply E_trans; [exact Hper | exact Hib |].
        eapply E_shift; [reflexivity | | apply (Hocc (i - (j0 - j))); lia]. lia. }
    specialize (Hgreatest _ Hcand). lia.
Qed.

(** The cursors the resynchronisation leaves are within their ranges. *)
Lemma resync_bounds (ell i k v i' k' : Z) :
  0 <= ell -> ell <= i -> 0 <= k <= ell -> -1 <= v < i ->
  (if i =? ell then (i, if k - 1 >? 0 then k - 1 else 0)
   else if v <=? ell then (ell, if v >? 0 then v else 0)
   else (v, ell)) = (i', k') ->
  ell <= i' <= i /\ 0 <= k' <= ell.
Proof.
  intros Hell Hi Hk Hv.
  destruct (Z.eqb_spec i ell) as [Heq|Hne].
  - destruct (Z.gtb_spec (k - 1) 0); intros [= <- <-]; lia.
  - destruct (Z.leb_spec v ell).
    + destruct (Z.gtb_spec v 0); intros [= <- <-]; lia.
    + intros [= <- <-]; lia.
Qed.

(** The cursors the resynchronisation leaves describe the next alignment. *)
Lemma acSem_advance (ell i j k v i' k' : Z) :
  PER eqb -> ellRun eqb p ell -> 0 <= ell < len p ->
  ell <= i <= len p -> 0 <= k <= ell ->
  acSem eqb s p ell i j k ->
  (i < len p -> ~ Eps i (j + i)) ->
  ~ occurs eqb s p j ->
  -1 <= v < i -> strongNext eqb p i v ->
  (if i =? ell then (i, if k - 1 >? 0 then k - 1 else 0)
   else if v <=? ell then (ell, if v >? 0 then v else 0)
   else (v, ell)) = (i', k') ->
  acSem eqb s p ell i' (j + (i - v)) k'.
Proof.
  intros Hper Hrun Hell Hi Hk (Hsuf & Hpre & Hnone) Hmis Hnot Hv Hstrong.
  destruct (Z.eqb_spec i ell) as [Heq|Hne].
  - (* the mismatch is at [ell]: the shift is 1 *)
    subst i.
    assert (v = ell - 1) as ->.
    { apply (strongNext_unique eqb p ell); [lia | lia | exact Hstrong |].
      apply strongNext_ell; assumption. }
    replace (j + (ell - (ell - 1))) with (j + 1) by lia.
    intros Hik. assert (i' = ell /\ k' = Z.max (k - 1) 0) as [-> ->].
    { destruct (Z.gtb_spec (k - 1) 0); injection Hik as <- <-; lia. }
    split; [intros; lia|]. split.
    + intros t Ht.
      eapply E_trans;
        [exact Hper
        | eapply E_shift; [| reflexivity | apply (proj1 Hrun (t + 1)); lia]; lia
        |].
      eapply E_shift; [| | apply (Hpre (t + 1)); lia]; lia.
    + intros j0 Hj0. destruct (Z.eq_dec j0 j) as [->|Hnej]; [exact Hnot|].
      apply Hnone. lia.
  - (* the mismatch is beyond [ell] *)
    assert (Hshift : 0 <= v -> ell <= i - v).
    { intros Hv0. destruct Hstrong as [Hcand _].
      destruct (Hcand Hv0) as (_ & Hbor & _).
      eapply border_past_run; eauto; lia. }
    assert (Hall : forall t, 0 <= t < v -> Eps t (j + (i - v) + t)).
    { intros t Ht. destruct Hstrong as [Hcand _].
      destruct (Hcand ltac:(lia)) as (_ & (_ & _ & Hbor) & _).
      eapply E_trans; [exact Hper | apply (Hbor t); lia |].
      eapply E_shift; [reflexivity | | apply (Hsuf (i - v + t)); lia]. lia. }
    assert (Hnone' : forall j0, j0 < j + (i - v) -> ~ occurs eqb s p j0).
    { intros j0 Hj0. destruct (Z_lt_le_dec j0 j) as [Hlt|Hge].
      - apply Hnone, Hlt.
      - destruct (Z.eq_dec j0 j) as [->|Hnej]; [exact Hnot|].
        apply (no_occurrence_skipped ell i j v); auto; lia. }
    destruct (Z.leb_spec v ell) as [Hle|Hgt].
    + intros Hik. assert (i' = ell /\ k' = Z.max v 0) as [-> ->].
      { destruct (Z.gtb_spec v 0); injection Hik as <- <-; lia. }
      split; [intros; lia|]. split; [|exact Hnone'].
      intros t Ht. apply Hall. lia.
    + intros [= <- <-].
      split; [|split; [|exact Hnone']]; intros t Ht; apply Hall; lia.
Qed.

(** One iteration of the search loop: it either reports an occurrence at
    the current alignment or moves to a strictly greater one.  The
    cursors stay within their ranges whatever [==] is; under a guard [G]
    that makes it a partial equivalence they keep their meaning. *)
Lemma acBody_spec (G : Prop) (fuel : nat) (kmpNext : list Z) (ell i j k : Z) :
  (G -> PER eqb) ->
  tableUpTo eqb p kmpNext (len p) ->
  0 <= ell < len p -> ellRun eqb p ell ->
  ell <= i <= len p -> 0 <= k <= ell -> 0 <= j <= len s - len p ->
  (G -> acSem eqb s p ell i j k) ->
  post (acBody eqb fuel s p kmpNext ell i j k) (len p < Z.of_nat fuel)
    (fun r => match r with
              | None => G -> occurs eqb s p j
              | Some (i', j', k') =>
                  ell <= i' <= len p /\ 0 <= k' <= ell /\
                  j < j' <= j + len p + 1 /\
                  (G -> acSem eqb s p ell i' j' k')
              end).
Proof.
  intros HG [Hlen Htab] Hell Hrun Hi Hk Hj Hsem. unfold acBody.
  eapply post_bind.
  { eapply post_weaken;
      [apply (matchLoop_spec (len p) j) with (i := i); lia | lia |].
    intros i1 H; exact H. }
  intros i1 (Hi1 & Hsuf & Hmis).
  eapply (post_bind _ _ _
    (fun r : bool * Z =>
       k <= snd r <= ell /\
       (forall t, k <= t < snd r -> Eps t (j + t)) /\
       (fst r = true -> i1 = len p /\ snd r = ell) /\
       (fst r = false -> ~ occurs eqb s p j))).
  { destruct (Z.geb_spec i1 (len p)) as [Hfull|Hpart].
    - eapply post_bind.
      { eapply post_weaken;
          [apply (matchLoop_spec ell j) with (i := k); lia | lia |].
        intros k1 H; exact H. }
      intros k1 (Hk1 & Hpre & Hstop). simpl.
      split; [lia|]. split; [exact Hpre|].
      destruct (Z.geb_spec k1 ell) as [Hdone|Hshort]; split; try discriminate.
      + intros _. lia.
      + intros _. apply (mismatch_no_occurrence j k1); [lia|]. apply Hstop. lia.
    - simpl. split; [lia|]. split; [intros; lia|]. split; [discriminate|].
      intros _. apply (mismatch_no_occurrence j i1); [lia|]. apply Hmis. lia. }
  intros [found k1] (Hk1 & Hpre & Hfound & Hnot). simpl in *.
  destruct found.
  - simpl. intros Hg. destruct (Hsem Hg) as (Hsuf0 & Hpre0 & _).
    destruct Hfound as [-> ->]; [reflexivity|].
    split; [lia|]. intros t Ht.
    destruct (Z_lt_le_dec t ell) as [Hlow|Hhigh].
    + destruct (Z_lt_le_dec t k); [apply Hpre0 | apply Hpre]; lia.
    + destruct (Z_lt_le_dec t i); [apply Hsuf0 | apply Hsuf]; lia.
  - destruct (Htab i1) as (v & Hv & Hvb & Hstrong); [lia|].
    rewrite Hv, bind_Ret. cbv zeta. rewrite (resync_eq _ _ _ _ _ Hv), bind_Ret.
    match goal with
    | |- context [let '(_, _) := ?R in _] => destruct R as [i' k'] eqn:HR
    end.
    simpl.
    destruct (resync_bounds ell i1 k1 v i' k') as [Hi' Hk']; try lia; [exact HR|].
    split; [lia|]. split; [lia|]. split; [lia|].
    intros Hg. pose proof (HG Hg) as Hper.
    destruct (Hsem Hg) as (Hsuf0 & Hpre0 & Hnone).
    apply (acSem_advance ell i1 j k1 v i' k'); auto; try lia.
    split; [|split; [|exact Hnone]].
    + intros t Ht. destruct (Z_lt_le_dec t i); [apply Hsuf0 | apply Hsuf]; lia.
    + intros t Ht. destruct (Z_lt_le_dec t k); [apply Hpre0 | apply Hpre]; lia.
Qed.

(** The search loop. *)
Lemma acLoop_spec (fuel : nat) (kmpNext : list Z) (ell : Z) :
  tableUpTo eqb p kmpNext (len p) ->
  0 <= ell < len p -> ellRun eqb p ell ->
  forall (n : nat) (i j k : Z),
    ell <= i <= len p -> 0 <= k <= ell -> 0 <= j ->
    (PER eqb -> acSem eqb s p ell i j k) ->
    post (acLoop eqb fuel n s p kmpNext ell i j k)
      (Z.max 0 (len s - len p - j + 1) < Z.of_nat n /\ len p < Z.of_nat fuel)
      (fun b => PER eqb -> (b = true <-> exists j0, occurs eqb s p j0)).
Proof.
  intros Htab Hell Hrun. induction n as [|n IH]; intros i j k Hi Hk Hj Hsem.
  - simpl. lia.
  - cbn [acLoop]. destruct (Z.leb_spec j (len s - len p)) as [Hin|Hout].
    + eapply post_bind.
      { eapply post_weaken;
          [apply (acBody_spec (PER eqb) fuel kmpNext ell i j k); auto; lia
          | tauto |].
        intros r H; exact H. }
      intros [[[i' j'] k']|]; simpl.
      * intros (Hi' & Hk' & Hj' & Hsem').
        eapply post_weaken; [apply (IH i' j' k'); auto; lia | lia | auto].
      * intros Hocc Hper. split; [|reflexivity].
        intros _. exists j. apply Hocc, Hper.
    + simpl. intros Hper. split; [discriminate|].
      intros (j0 & Hocc). exfalso.
      destruct (Hsem Hper) as (_ & _ & Hnone).
      apply (Hnone j0); [|exact Hocc]. destruct Hocc as [Hr _]. lia.
Qed.

(** [apostolicoCrochemoreSearch] never panics, returns once [fuel]
    exceeds the length of the haystack, and finds the pattern exactly when
    it occurs. *)
Lemma apostolicoCrochemoreSearch_spec (fuel : nat) :
  1 <= len p <= len s ->
  post (apostolicoCrochemoreSearch eqb fuel s p) (len s < Z.of_nat fuel)
    (fun b => PER eqb -> (b = true <-> exists j0, occurs eqb s p j0)).
Proof.
  intros Hlen. unfold apostolicoCrochemoreSearch.
  eapply post_bind.
  { eapply post_weaken; [apply preKmp_spec | lia | intros K H; exact H]. }
  intros K HK. eapply post_bind.
  { eapply post_weaken;
      [apply computeEll_spec; lia | lia | intros e H; exact H]. }
  intros ell [Hell Hrun].
  eapply post_weaken;
    [apply (acLoop_spec fuel K ell HK Hell Hrun fuel ell 0 0); try lia
    | lia | auto].
  intros _. repeat split; try (intros; lia).
  intros j0 Hj0 [Hr _]. lia.
Qed.

End Scan.

(** ** Following the table *)

Lemma followNext_spec (kmpNext : list Z) (m : Z) :
  (forall i, 0 <= i <= m -> exists v, index kmpNext i = Ret v /\ -1 <= v < i) ->
  forall (n : nat) (idx : Z),
    -1 <= idx <= m -> idx + 1 < Z.of_nat n ->
    exists chain, followNext n kmpNext idx = Ret chain /\
      decreasingFrom idx chain /\
      (0 <= idx -> last chain = Some (-1)).
Proof.
  intros Htab. induction n as [|n IH]; intros idx Hidx Hn; [lia|].
  cbn [followNext]. destruct (Z.ltb_spec idx 0) as [Hneg|Hpos].
  - exists []. split; [reflexivity|]. split; [exact I | lia].
  - destruct (Htab idx) as (v & Hv & Hvb); [lia|].
    rewrite Hv, bind_Ret.
    destruct (IH v) as (rest & Hrest & Hdec & Hlast); [lia | lia |].
    rewrite Hrest, bind_Ret. exists (v :: rest).
    split; [reflexivity|]. split; [simpl; split; [lia | exact Hdec]|].
    intros _. destruct rest as [|w rest].
    + destruct n as [|n]; [lia|]. cbn [followNext] in Hrest.
      destruct (Z.ltb_spec v 0) as [Hvneg|Hvpos].
      * simpl. f_equal. lia.
      * destruct (Htab v) as (w & Hw & _); [lia|].
        rewrite Hw, bind_Ret in Hrest.
        destruct (followNext n kmpNext w); discriminate.
    + rewrite last_cons_cons. apply Hlast.
      destruct (Z_lt_le_dec v 0) as [Hvneg|Hvpos]; [|exact Hvpos].
      destruct n as [|n]; [lia|]. cbn [followNext] in Hrest.
      destruct (Z.ltb_spec v 0); [discriminate | lia].
Qed.

(** ** The searchers under the dispatch *)

Section Searchers.
Context {T : Type}.
Variable eqb : T -> T -> bool.

Lemma bruteForceSearch_returns (s seq : list T) :
  exists b, bruteForceSearch eqb s seq = Ret b.
Proof.
  destruct (bruteForceOuter_spec eqb s seq (length s) 0) as (b & Hb & _);
    [lia | unfold len; lia |].
  exists b. exact Hb.
Qed.

Lemma fuel_enough (s : list T) (fuel : nat) :
  (length s < fuel)%nat -> len s < Z.of_nat fuel.
Proof. unfold len. lia. Qed.

Lemma apostolicoCrochemoreSearch_returns (s seq : list T) (fuel : nat) :
  1 <= len seq <= len s -> (length s < fuel)%nat ->
  exists b, apostolicoCrochemoreSearch eqb fuel s seq = Ret b.
Proof.
  intros Hlen Hfuel.
  destruct (post_Ret_inv _ _ _
              (apostolicoCrochemoreSearch_spec eqb s seq fuel Hlen)
              (fuel_enough s fuel Hfuel)) as (b & Hb & _).
  exists b. exact Hb.
Qed.

(** With a partial equivalence for [==], both searchers return whether
    the pattern occurs. *)
Lemma searchers_find_occurrences (s seq : list T) (fuel : nat) :
  PER eqb -> 1 <= len seq <= len s -> (length s < fuel)%nat ->
  exists b, bruteForceSearch eqb s seq = Ret b /\
            apostolicoCrochemoreSearch eqb fuel s seq = Ret b /\
            (b = true <-> exists idx, occurs eqb s seq idx).
Proof.
  intros Hper Hlen Hfuel.
  destruct (bruteForceSearch_spec eqb s seq (proj1 Hper)) as (b1 & Hb1 & Hiff1).
  destruct (post_Ret_inv _ _ _
              (apostolicoCrochemoreSearch_spec eqb s seq fuel Hlen)
              (fuel_enough s fuel Hfuel)) as (b2 & Hb2 & Hiff2).
  specialize (Hiff2 Hper).
  assert (Hsame : (exists idx, idx < len s /\ occurs eqb s seq idx) <->
                  exists idx, occurs eqb s seq idx).
  { split.
    - intros (idx & _ & Hocc). exists idx. exact Hocc.
    - intros (idx & Hocc). exists idx. split; [|exact Hocc].
      destruct Hocc as [Hr _]. lia. }
  assert (b1 = b2) as <-.
  { destruct b1, b2; try reflexivity.
    - symmetry. apply Hiff2, Hsame, Hiff1. reflexivity.
    - apply Hiff1, Hsame, Hiff2. reflexivity. }
  exists b1. split; [exact Hb1|]. split; [exact Hb2|].
  rewrite Hiff1. exact Hsame.
Qed.

Lemma ContainsSequence_short (fuel : nat) (s seq : list T)
  (opts : list ContainsSequenceOpt) :
  len s < len seq -> ContainsSequence eqb fuel s seq opts = Ret false.
Proof.
  intros Hlt. unfold ContainsSequence.
  destruct (Z.ltb_spec (len s) (len seq)); [reflexivity | lia].
Qed.

Lemma ContainsSequence_empty (fuel : nat) (s : list T)
  (opts : list ContainsSequenceOpt) :
  ContainsSequence eqb fuel s [] opts = Ret true.
Proof.
  unfold ContainsSequence.
  destruct (Z.ltb_spec (len s) (len (@nil T))) as [Hlt|_].
  - pose proof (len_nonneg s). unfold len in Hlt at 2. simpl in Hlt. lia.
  - reflexivity.
Qed.

Lemma ContainsSequence_single (fuel : nat) (s : list T) (x : T)
  (opts : list ContainsSequenceOpt) :
  ContainsSequence eqb fuel s [x] opts = Ret (Contains eqb s x).
Proof.
  unfold ContainsSequence. change (len [x]) with 1.
  destruct (Z.ltb_spec (len s) 1) as [Hlt|Hge].
  - destruct s as [|a s]; [reflexivity|].
    rewrite len_cons in Hlt. pose proof (len_nonneg s). lia.
  - reflexivity.
Qed.

(** [ContainsSequence] never panics, whatever the fuel. *)
Lemma ContainsSequence_no_panic (fuel : nat) (s seq : list T)
  (opts : list ContainsSequenceOpt) :
  ContainsSequence eqb fuel s seq opts <> OutOfBounds.
Proof.
  destruct (Z_lt_le_dec (len s) (len seq)) as [Hlt|Hge].
  - rewrite ContainsSequence_short by exact Hlt. discriminate.
  - destruct seq as [|x [|y seq]].
    + rewrite ContainsSequence_empty. discriminate.
    + rewrite ContainsSequence_single. discriminate.
    + assert (Hlen : 2 <= len (x :: y :: seq) <= len s).
      { rewrite !len_cons in *. pose proof (len_nonneg seq). lia. }
      rewrite ContainsSequence_dispatch by exact Hlen.
      destruct (String.eqb _ _).
      * eapply post_not_OutOfBounds.
        apply apostolicoCrochemoreSearch_spec. lia.
      * destruct (bruteForceSearch_returns s (x :: y :: seq)) as (b & ->).
        discriminate.
Qed.

(** [ContainsSequence] returns a boolean once [fuel] exceeds the length of
    the haystack. *)
Lemma ContainsSequence_returns (fuel : nat) (s seq : list T)
  (opts : list ContainsSequenceOpt) :
  (length s < fuel)%nat ->
  exists b, ContainsSequence eqb fuel s seq opts = Ret b.
Proof.
  intros Hfuel. destruct (Z_lt_le_dec (len s) (len seq)) as [Hlt|Hge].
  - rewrite ContainsSequence_short by exact Hlt. eauto.
  - destruct seq as [|x [|y seq]].
    + rewrite ContainsSequence_empty. eauto.
    + rewrite ContainsSequence_single. eauto.
    + assert (Hlen : 2 <= len (x :: y :: seq) <= len s).
      { rewrite !len_cons in *. pose proof (len_nonneg seq). lia. }
      rewrite ContainsSequence_dispatch by exact Hlen.
      destruct (String.eqb _ _).
      * apply apostolicoCrochemoreSearch_returns; [lia | exact Hfuel].
      * apply bruteForceSearch_returns.
Qed.

End Searchers.

(** ** The properties of the specification *)

Section Claims.
Context {T : Type}.
Variable eqb : T -> T -> bool.

(** C1: with [==] symmetric and transitive, [ContainsSequence] returns the
    same boolean whatever options it is given: without option, with the
    brute-force option, with the Apostolico-Crochemore option, and with
    any list of options.  In particular the two searchers return the same
    result on every pattern of at least two elements that is no longer
    than the haystack. *)
Theorem ContainsSequence_selector_agreement (s seq : list T) (fuel : nat) :
  PER eqb -> (length s < fuel)%nat ->
  (exists b,
     ContainsSequence eqb fuel s seq [] = Ret b /\
     ContainsSequence eqb fuel s seq [ContainsSequenceBruteForce] = Ret b /\
     ContainsSequence eqb fuel s seq [ContainsSequenceApostolicoCrochemore] = Ret b /\
     forall opts, ContainsSequence eqb fuel s seq opts = Ret b) /\
  (2 <= len seq <= len s ->
   bruteForceSearch eqb s seq = apostolicoCrochemoreSearch eqb fuel s seq).
Proof.
  intros Hper Hfuel.
  assert (Hall : exists b, forall opts, ContainsSequence eqb fuel s seq opts = Ret b).
  { destruct (Z_lt_le_dec (len s) (len seq)) as [Hlt|Hge].
    - exists false. intros opts. apply ContainsSequence_short, Hlt.
    - destruct seq as [|x [|y seq]].
      + exists true. intros opts. apply ContainsSequence_empty.
      + exists (Contains eqb s x). intros opts. apply ContainsSequence_single.
      + assert (Hlen : 2 <= len (x :: y :: seq) <= len s).
        { rewrite !len_cons in *. pose proof (len_nonneg seq). lia. }
        destruct (searchers_find_occurrences eqb s (x :: y :: seq) fuel)
          as (b & Hbf & Hac & _); [exact Hper | lia | exact Hfuel |].
        exists b. intros opts. rewrite ContainsSequence_dispatch by exact Hlen.
        destruct (String.eqb _ _); assumption. }
  split.
  - destruct Hall as (b & Hb). exists b. auto.
  - intros Hlen.
    destruct (searchers_find_occurrences eqb s seq fuel)
      as (b & Hbf & Hac & _); [exact Hper | lia | exact Hfuel |].
    congruence.
Qed.

(** C2, amended: for a haystack and a pattern that are not both empty,
    and [==] symmetric, [bruteForceSearch] returns true exactly when the
    pattern occurs at some start offset [idx] with
    [0 <= idx <= len(s) - len(seq)], and false when it occurs at none. *)
Theorem bruteForceSearch_occurrence_nonempty (s seq : list T) :
  (forall a b, eqb a b = true -> eqb b a = true) ->
  s <> [] \/ seq <> [] ->
  (bruteForceSearch eqb s seq = Ret true <->
   exists idx, occurs eqb s seq idx) /\
  (~ (exists idx, occurs eqb s seq idx) ->
   bruteForceSearch eqb s seq = Ret false).
Proof.
  intros Hsym Hne.
  destruct (bruteForceSearch_spec eqb s seq Hsym) as (b & Hb & Hiff).
  assert (Hsame : (exists idx, idx < len s /\ occurs eqb s seq idx) <->
                  exists idx, occurs eqb s seq idx).
  { split.
    - intros (idx & _ & Hocc). exists idx. exact Hocc.
    - intros (idx & Hocc).
      destruct (Z_lt_le_dec idx (len s)) as [Hlt|Hge];
        [exists idx; split; assumption|].
      destruct Hocc as [Hr Hm].
      assert (Hseq : len seq = 0) by (pose proof (len_nonneg seq); lia).
      assert (Hs : 0 < len s).
      { destruct s as [|a s]; [|rewrite len_cons; pose proof (len_nonneg s); lia].
        destruct seq as [|x seq]; [destruct Hne; congruence|].
        rewrite len_cons in Hseq. pose proof (len_nonneg seq). lia. }
      exists 0. split; [exact Hs|]. split; [lia|].
      intros t Ht. lia. }
  rewrite Hb. split.
  - rewrite <- Hsame, <- Hiff. split; [intros [= ->]; reflexivity | intros ->; reflexivity].
  - intros Hnone. destruct b; [|reflexivity].
    exfalso. apply Hnone, Hsame, Hiff. reflexivity.
Qed.

(** C3: [ContainsSequence] returns for every haystack, pattern and list of
    options once the fuel exceeds the length of the haystack.  For the
    Apostolico-Crochemore search the table and [ell] are computed, every
    entry [kmpNext[i]] is below [i], and every iteration of the scanning
    loop either returns or moves the alignment [j] strictly forward and
    keeps the cursors within their ranges. *)
Theorem ContainsSequence_terminates (s seq : list T)
  (opts : list ContainsSequenceOpt) (fuel : nat) :
  (length s < fuel)%nat ->
  (exists b, ContainsSequence eqb fuel s seq opts = Ret b) /\
  (2 <= len seq <= len s ->
   exists kmpNext ell,
     preKmp eqb fuel seq = Ret kmpNext /\
     computeEll eqb fuel seq = Ret ell /\
     0 <= ell < len seq /\
     (forall i, 0 <= i <= len seq ->
        exists v, index kmpNext i = Ret v /\ 1 <= i - v) /\
     (forall i j k,
        ell <= i <= len seq -> 0 <= k <= ell -> 0 <= j <= len s - len seq ->
        exists r, acBody eqb fuel s seq kmpNext ell i j k = Ret r /\
          match r with
          | None => True
          | Some (i', j', k') =>
              j < j' <= j + len seq + 1 /\
              ell <= i' <= len seq /\ 0 <= k' <= ell
          end)).
Proof.
  intros Hfuel. split; [apply ContainsSequence_returns, Hfuel|].
  intros Hlen. pose proof (fuel_enough s fuel Hfuel) as Hf.
  destruct (post_Ret_inv _ _ _ (preKmp_spec eqb seq fuel)) as (K & HK & Htab);
    [lia|].
  destruct (post_Ret_inv _ _ _ (computeEll_spec eqb seq fuel ltac:(lia)))
    as (ell & Hell & Hbound & Hrun); [lia|].
  exists K, ell. split; [exact HK|]. split; [exact Hell|]. split; [exact Hbound|].
  split.
  - intros i Hi. destruct (proj2 Htab i Hi) as (v & Hv & Hvb & _).
    exists v. split; [exact Hv | lia].
  - intros i j k Hi Hk Hj.
    destruct (post_Ret_inv _ _ _
                (acBody_spec eqb s seq False fuel K ell i j k
                   ltac:(intros []) Htab Hbound Hrun Hi Hk Hj ltac:(intros [])))
      as (r & Hr & Hpost); [lia|].
    exists r. split; [exact Hr|].
    destruct r as [[[i' j'] k']|]; [|exact I].
    destruct Hpost as (Hi' & Hk' & Hj' & _). auto.
Qed.

(** C4: [ContainsSequence] has no failure path.  Whatever the haystack,
    the pattern, the options and the fuel, no read or write of the
    haystack, of the pattern or of the table is out of bounds; with fuel
    above the length of the haystack the result is a boolean.  The same
    holds of the two searchers under the conditions the dispatch calls
    them in. *)
Theorem ContainsSequence_in_bounds (s seq : list T)
  (opts : list ContainsSequenceOpt) (fuel : nat) :
  ContainsSequence eqb fuel s seq opts <> OutOfBounds /\
  ((length s < fuel)%nat ->
   exists b, ContainsSequence eqb fuel s seq opts = Ret b) /\
  (2 <= len seq <= len s ->
   bruteForceSearch eqb s seq <> OutOfBounds /\
   apostolicoCrochemoreSearch eqb fuel s seq <> OutOfBounds /\
   preKmp eqb fuel seq <> OutOfBounds).
Proof.
  split; [apply ContainsSequence_no_panic|].
  split; [apply ContainsSequence_returns|].
  intros Hlen. split; [|split].
  - destruct (bruteForceSearch_returns eqb s seq) as (b & ->). discriminate.
  - eapply post_not_OutOfBounds. apply apostolicoCrochemoreSearch_spec. lia.
  - eapply post_not_OutOfBounds. apply preKmp_spec.
Qed.

(** C5: for a pattern of at least two elements the preprocessing returns a
    table of [len(seq) + 1] entries with [kmpNext[0] = -1] and
    [-1 <= kmpNext[idx] < idx] at every index [idx] of [[0, len(seq)]];
    following the table from any such index gives a strictly decreasing
    sequence that ends at [-1]. *)
Theorem kmpNext_bounded_by_position (seq : list T) (fuel : nat) :
  2 <= len seq -> (length seq < fuel)%nat ->
  exists kmpNext,
    preKmp eqb fuel seq = Ret kmpNext /\
    len kmpNext = len seq + 1 /\
    index kmpNext 0 = Ret (-1) /\
    (forall idx, 0 <= idx <= len seq ->
       exists v, index kmpNext idx = Ret v /\ -1 <= v < idx) /\
    (forall idx, 0 <= idx <= len seq ->
       exists chain,
         followNext (Z.to_nat idx + 2) kmpNext idx = Ret chain /\
         decreasingFrom idx chain /\ last chain = Some (-1)).
Proof.
  intros Hlen Hfuel.
  destruct (post_Ret_inv _ _ _ (preKmp_spec eqb seq fuel)) as (K & HK & Hl & Htab);
    [unfold len; lia|].
  assert (Hb : forall i, 0 <= i <= len seq ->
            exists v, index K i = Ret v /\ -1 <= v < i).
  { intros i Hi. destruct (Htab i Hi) as (v & Hv & Hvb & _). eauto. }
  exists K. split; [exact HK|]. split; [exact Hl|]. split; [|split; [exact Hb|]].
  - destruct (Hb 0) as (v & Hv & Hvb); [lia|]. rewrite Hv. f_equal. lia.
  - intros idx Hidx.
    destruct (followNext_spec K (len seq) Hb (Z.to_nat idx + 2) idx)
      as (chain & Hc & Hdec & Hlast); [lia | lia |].
    exists chain. split; [exact Hc|]. split; [exact Hdec|]. apply Hlast. lia.
Qed.

(** C6: for a pattern of at least two elements the code computes the
    period prefix length the specification describes: the run counted
    from [1] while the next element matches, reset to [0] when it is the
    whole pattern.  The result lies in [[0, len(seq))]. *)
Theorem computeEll_period_prefix (seq : list T) (fuel : nat) :
  2 <= len seq -> (length seq <= fuel)%nat ->
  computeEll eqb fuel seq = Ret (ComputePeriodPrefix_spec eqb seq) /\
  0 <= ComputePeriodPrefix_spec eqb seq < len seq /\
  1 <= initialRun eqb seq <= len seq /\
  (forall t, 1 <= t < initialRun eqb seq -> E eqb seq (t - 1) seq t) /\
  (initialRun eqb seq < len seq ->
   ~ E eqb seq (initialRun eqb seq - 1) seq (initialRun eqb seq)).
Proof.
  intros Hlen Hfuel.
  assert (Hn : Z.max 0 (len seq - 1) < Z.of_nat fuel) by (unfold len in *; lia).
  pose proof (ellLoop_initialRun eqb seq fuel 1 ltac:(lia) Hn) as Hrun.
  change (Z.to_nat (1 - 1)) with 0%nat in Hrun. rewrite drop_0 in Hrun.
  replace (1 - 1 + initialRun eqb seq) with (initialRun eqb seq) in Hrun by lia.
  pose proof (ellLoop_spec eqb seq fuel 1 ltac:(lia) ltac:(intros; lia)) as Hpost.
  rewrite Hrun in Hpost. simpl in Hpost. destruct Hpost as (Hr & Hall & Hstop).
  unfold computeEll, ComputePeriodPrefix_spec. rewrite Hrun, bind_Ret.
  split; [reflexivity|]. split.
  - destruct (Z.eqb_spec (initialRun eqb seq) (len seq)); lia.
  - split; [lia|]. split; [exact Hall | exact Hstop].
Qed.

(** C7: [ContainsSequence] of the empty pattern is true for every
    haystack, the empty one included, every list of options and every
    fuel. *)
Theorem ContainsSequence_empty_pattern (s : list T)
  (opts : list ContainsSequenceOpt) (fuel : nat) :
  ContainsSequence eqb fuel s [] opts = Ret true /\
  ContainsSequence eqb fuel [] [] opts = Ret true.
Proof. split; apply ContainsSequence_empty. Qed.

(** C8: when the pattern is longer than the haystack, [ContainsSequence]
    is false; in particular it is false for the empty haystack and any
    nonempty pattern. *)
Theorem ContainsSequence_longer_pattern (s seq : list T)
  (opts : list ContainsSequenceOpt) (fuel : nat) :
  (len seq > len s -> ContainsSequence eqb fuel s seq opts = Ret false) /\
  (seq <> [] -> ContainsSequence eqb fuel [] seq opts = Ret false).
Proof.
  split.
  - intros Hgt. apply ContainsSequence_short. lia.
  - intros Hne. apply ContainsSequence_short.
    destruct seq as [|x seq]; [congruence|].
    rewrite len_cons. pose proof (len_nonneg seq). change (len (@nil T)) with 0. lia.
Qed.

(** C9: for a pattern of the single element [x], [ContainsSequence] is
    [Contains(s, x)], which is true exactly when some element of the
    haystack equals [x]. *)
Theorem ContainsSequence_single_element (s : list T) (x : T)
  (opts : list ContainsSequenceOpt) (fuel : nat) :
  ContainsSequence eqb fuel s [x] opts = Ret (Contains eqb s x) /\
  (ContainsSequence eqb fuel s [x] opts = Ret true <->
   exists e, e ∈ s /\ eqb e x = true).
Proof.
  split; [apply ContainsSequence_single|].
  rewrite ContainsSequence_single, <- Contains_spec.
  split; [intros [= ->]; reflexivity | intros ->; reflexivity].
Qed.

(** C10: the options are applied in the order they are passed, each one
    overwriting the field [searchAlgorithm], so the last one decides which
    searcher runs; without option the field keeps its zero value and the
    dispatch runs the brute-force search. *)
Theorem ContainsSequence_last_option_wins (s seq : list T)
  (opts : list ContainsSequenceOpt) (args : containsSequenceArgs) (fuel : nat) :
  (forall opt rest, applyOpts (opt :: rest) args = applyOpts rest (opt args)) /\
  searchAlgorithm (applyOpts (opts ++ [ContainsSequenceApostolicoCrochemore]) args)
    = containsSequenceApostolicoCrochemore /\
  searchAlgorithm (applyOpts (opts ++ [ContainsSequenceBruteForce]) args)
    = containsSequenceBruteForce /\
  applyOpts [] args = args /\
  (2 <= len seq <= len s ->
   ContainsSequence eqb fuel s seq (opts ++ [ContainsSequenceApostolicoCrochemore])
     = apostolicoCrochemoreSearch eqb fuel s seq /\
   ContainsSequence eqb fuel s seq (opts ++ [ContainsSequenceBruteForce])
     = bruteForceSearch eqb s seq /\
   ContainsSequence eqb fuel s seq [] = bruteForceSearch eqb s seq).
Proof.
  split; [reflexivity|].
  split; [rewrite applyOpts_app; reflexivity|].
  split; [rewrite applyOpts_app; reflexivity|].
  split; [reflexivity|].
  intros Hlen. rewrite !ContainsSequence_dispatch by exact Hlen.
  rewrite !applyOpts_app. split; [reflexivity|]. split; reflexivity.
Qed.

End Claims.

(** ** The searchers on integers *)

Lemma Z_eqb_sym (a b : Z) : (a =? b) = true -> (b =? a) = true.
Proof. rewrite !Z.eqb_eq. auto. Qed.

Lemma Z_eqb_PER : PER Z.eqb.
Proof.
  split.
  - exact Z_eqb_sym.
  - intros a b c. rewrite !Z.eqb_eq. congruence.
Qed.

(** The table and [ell] of the pattern [GCAGAGAG] (with [G = 0], [C = 1],
    [A = 2]) of the algorithm's reference description. *)
Example preKmp_GCAGAGAG :
  preKmp Z.eqb 9 [0; 1; 2; 0; 2; 0; 2; 0] = Ret [-1; 0; 0; -1; 1; -1; 1; -1; 1].
Proof. vm_compute. reflexivity. Qed.

Example computeEll_GCAGAGAG : computeEll Z.eqb 9 [0; 1; 2; 0; 2; 0; 2; 0] = Ret 1.
Proof. vm_compute. reflexivity. Qed.

Example computeEll_constant : computeEll Z.eqb 3 [3; 3; 3] = Ret 0.
Proof. vm_compute. reflexivity. Qed.

(** The repetition, overlap and periodic cases of the test suite, under
    both searchers. *)
Example run_in_the_middle :
  ContainsSequence Z.eqb 6 [1; 3; 3; 3; 5] [3; 3; 3]
    [ContainsSequenceApostolicoCrochemore] = Ret true /\
  ContainsSequence Z.eqb 6 [1; 3; 3; 3; 5] [3; 3; 3]
    [ContainsSequenceBruteForce] = Ret true.
Proof. split; vm_compute; reflexivity. Qed.

Example partial_run :
  ContainsSequence Z.eqb 6 [1; 3; 3; 4; 5] [3; 3; 3]
    [ContainsSequenceApostolicoCrochemore] = Ret false /\
  ContainsSequence Z.eqb 6 [1; 3; 3; 4; 5] [3; 3; 3] [] = Ret false.
Proof. split; vm_compute; reflexivity. Qed.

Example run_at_the_start :
  ContainsSequence Z.eqb 6 [3; 3; 3; 4; 5] [3; 3; 3]
    [ContainsSequenceApostolicoCrochemore] = Ret true.
Proof. vm_compute. reflexivity. Qed.

Example overlapping_partial_matches :
  ContainsSequence Z.eqb 6 [1; 2; 1; 2; 1] [1; 2; 3]
    [ContainsSequenceApostolicoCrochemore] = Ret false /\
  ContainsSequence Z.eqb 8 [1; 2; 1; 2; 1; 2; 3] [1; 2; 3]
    [ContainsSequenceApostolicoCrochemore] = Ret true.
Proof. split; vm_compute; reflexivity. Qed.

Example periodic_pattern :
  ContainsSequence Z.eqb 9 [1; 2; 1; 3; 1; 2; 1; 1] [1; 2; 1; 1]
    [ContainsSequenceApostolicoCrochemore] = Ret true /\
  ContainsSequence Z.eqb 9 [1; 2; 1; 3; 1; 2; 1; 2] [1; 2; 1; 1]
    [ContainsSequenceApostolicoCrochemore] = Ret false.
Proof. split; vm_compute; reflexivity. Qed.

(** Without enough fuel the search does not return. *)
Example too_little_fuel :
  ContainsSequence Z.eqb 2 [1; 2; 1; 2; 1; 2; 3] [1; 2; 3]
    [ContainsSequenceApostolicoCrochemore] = OutOfFuel.
Proof. vm_compute. reflexivity. Qed.

(** Outside the conditions of the dispatch the Apostolico-Crochemore
    search reads the empty pattern out of bounds. *)
Example apostolicoCrochemoreSearch_empty_pattern :
  apostolicoCrochemoreSearch Z.eqb 3 [1; 2] [] = OutOfBounds.
Proof. vm_compute. reflexivity. Qed.

Lemma ContainsSequence_selector_agreement_witness :
  PER Z.eqb /\ (7 < 8)%nat /\
  (exists b,
     ContainsSequence Z.eqb 8 [1; 2; 1; 2; 1; 2; 3] [1; 2; 3] [] = Ret b /\
     ContainsSequence Z.eqb 8 [1; 2; 1; 2; 1; 2; 3] [1; 2; 3]
       [ContainsSequenceBruteForce] = Ret b /\
     ContainsSequence Z.eqb 8 [1; 2; 1; 2; 1; 2; 3] [1; 2; 3]
       [ContainsSequenceApostolicoCrochemore] = Ret b /\
     forall opts,
       ContainsSequence Z.eqb 8 [1; 2; 1; 2; 1; 2; 3] [1; 2; 3] opts = Ret b) /\
  (2 <= len [1; 2; 3] <= len [1; 2; 1; 2; 1; 2; 3] ->
   bruteForceSearch Z.eqb [1; 2; 1; 2; 1; 2; 3] [1; 2; 3] =
   apostolicoCrochemoreSearch Z.eqb 8 [1; 2; 1; 2; 1; 2; 3] [1; 2; 3]).
Proof.
  split; [exact Z_eqb_PER|]. split; [lia|].
  apply (ContainsSequence_selector_agreement Z.eqb
           [1; 2; 1; 2; 1; 2; 3] [1; 2; 3] 8 Z_eqb_PER).
  simpl. lia.
Defined.

(** C2 as stated fails for the empty pattern in the empty haystack: the
    offset [0] is an occurrence, and the loop over the haystack does not
    run. *)
Lemma bruteForceSearch_empty_in_empty :
  ~ ((bruteForceSearch Z.eqb [] [] = Ret true <->
      exists idx, occurs Z.eqb [] [] idx) /\
     (~ (exists idx, occurs Z.eqb [] [] idx) ->
      bruteForceSearch Z.eqb [] [] = Ret false)).
Proof.
  intros [[_ Hfind] _].
  assert (Habs : bruteForceSearch Z.eqb [] [] = Ret true).
  { apply Hfind. exists 0. split.
    - unfold len. simpl. lia.
    - intros t Ht. unfold len in Ht. simpl in Ht. lia. }
  vm_compute in Habs. discriminate Habs.
Qed.

Lemma bruteForceSearch_occurrence_nonempty_witness :
  (forall a b, (a =? b) = true -> (b =? a) = true) /\
  ([1; 2; 1; 2; 1; 2; 3] <> [] \/ [1; 2; 3] <> []) /\
  (bruteForceSearch Z.eqb [1; 2; 1; 2; 1; 2; 3] [1; 2; 3] = Ret true <->
   exists idx, occurs Z.eqb [1; 2; 1; 2; 1; 2; 3] [1; 2; 3] idx) /\
  (~ (exists idx, occurs Z.eqb [1; 2; 1; 2; 1; 2; 3] [1; 2; 3] idx) ->
   bruteForceSearch Z.eqb [1; 2; 1; 2; 1; 2; 3] [1; 2; 3] = Ret false).
Proof.
  split; [exact Z_eqb_sym|]. split; [left; discriminate|].
  apply (bruteForceSearch_occurrence_nonempty Z.eqb
           [1; 2; 1; 2; 1; 2; 3] [1; 2; 3] Z_eqb_sym).
  left. discriminate.
Defined.

Lemma ContainsSequence_terminates_witness :
  (7 < 8)%nat /\
  exists b,
    ContainsSequence Z.eqb 8 [1; 2; 1; 2; 1; 2; 3] [1; 2; 3]
      [ContainsSequenceApostolicoCrochemore] = Ret b.
Proof.
  split; [lia|].
  apply (ContainsSequence_terminates Z.eqb [1; 2; 1; 2; 1; 2; 3] [1; 2; 3]
           [ContainsSequenceApostolicoCrochemore] 8).
  simpl. lia.
Defined.

Lemma ContainsSequence_in_bounds_witness :
  (7 < 8)%nat /\ 2 <= len [1; 2; 3] <= len [1; 2; 1; 2; 1; 2; 3] /\
  (exists b,
     ContainsSequence Z.eqb 8 [1; 2; 1; 2; 1; 2; 3] [1; 2; 3]
       [ContainsSequenceApostolicoCrochemore] = Ret b) /\
  apostolicoCrochemoreSearch Z.eqb 8 [1; 2; 1; 2; 1; 2; 3] [1; 2; 3]
    <> OutOfBounds.
Proof.
  assert (Hfuel : (length [1; 2; 1; 2; 1; 2; 3] < 8)%nat) by (simpl; lia).
  assert (Hlen : 2 <= len [1; 2; 3] <= len [1; 2; 1; 2; 1; 2; 3])
    by (unfold len; simpl; lia).
  split; [lia|]. split; [exact Hlen|].
  destruct (ContainsSequence_in_bounds Z.eqb [1; 2; 1; 2; 1; 2; 3] [1; 2; 3]
              [ContainsSequenceApostolicoCrochemore] 8)
    as (_ & Hret & Hsearch).
  split; [exact (Hret Hfuel)|]. exact (proj1 (proj2 (Hsearch Hlen))).
Defined.

Lemma kmpNext_bounded_by_position_witness :
  2 <= len [1; 2; 1; 1] /\ (4 < 5)%nat /\
  exists kmpNext,
    preKmp Z.eqb 5 [1; 2; 1; 1] = Ret kmpNext /\
    len kmpNext = len [1; 2; 1; 1] + 1 /\
    index kmpNext 0 = Ret (-1) /\
    (forall idx, 0 <= idx <= len [1; 2; 1; 1] ->
       exists v, index kmpNext idx = Ret v /\ -1 <= v < idx) /\
    (forall idx, 0 <= idx <= len [1; 2; 1; 1] ->
       exists chain,
         followNext (Z.to_nat idx + 2) kmpNext idx = Ret chain /\
         decreasingFrom idx chain /\ last chain = Some (-1)).
Proof.
  assert (Hlen : 2 <= len [1; 2; 1; 1]) by (unfold len; simpl; lia).
  split; [exact Hlen|]. split; [lia|].
  apply (kmpNext_bounded_by_position Z.eqb [1; 2; 1; 1] 5 Hlen).
  simpl. lia.
Defined.

Lemma computeEll_period_prefix_witness :
  2 <= len [3; 3; 4; 3] /\ (4 <= 4)%nat /\
  computeEll Z.eqb 4 [3; 3; 4; 3] = Ret (ComputePeriodPrefix_spec Z.eqb [3; 3; 4; 3]) /\
  0 <= ComputePeriodPrefix_spec Z.eqb [3; 3; 4; 3] < len [3; 3; 4; 3].
Proof.
  assert (Hlen : 2 <= len [3; 3; 4; 3]) by (unfold len; simpl; lia).
  assert (Hfuel : (length [3; 3; 4; 3] <= 4)%nat) by (simpl; lia).
  split; [exact Hlen|]. split; [lia|].
  destruct (computeEll_period_prefix Z.eqb [3; 3; 4; 3] 4 Hlen Hfuel)
    as (Hrun & Hrange & _).
  split; [exact Hrun | exact Hrange].
Defined.

Lemma ContainsSequence_longer_pattern_witness :
  len [1; 2; 3] > len [1; 2] /\
  ContainsSequence Z.eqb 0 [1; 2] [1; 2; 3] [] = Ret false /\
  [1; 2; 3] <> [] /\
  ContainsSequence Z.eqb 0 [] [1; 2; 3] [] = Ret false.
Proof.
  assert (Hgt : len [1; 2; 3] > len [1; 2]) by (unfold len; simpl; lia).
  assert (Hne : [1; 2; 3] <> @nil Z) by discriminate.
  split; [exact Hgt|].
  split; [exact (proj1 (ContainsSequence_longer_pattern Z.eqb [1; 2] [1; 2; 3] [] 0) Hgt)|].
  split; [exact Hne|].
  exact (proj2 (ContainsSequence_longer_pattern Z.eqb [1; 2] [1; 2; 3] [] 0) Hne).
Defined.

Lemma ContainsSequence_last_option_wins_witness :
  2 <= len [1; 2; 3] <= len [1; 2; 1; 2; 1; 2; 3] /\
  ContainsSequence Z.eqb 8 [1; 2; 1; 2; 1; 2; 3] [1; 2; 3]
    ([ContainsSequenceBruteForce] ++ [ContainsSequenceApostolicoCrochemore])
    = apostolicoCrochemoreSearch Z.eqb 8 [1; 2; 1; 2; 1; 2; 3] [1; 2; 3] /\
  ContainsSequence Z.eqb 8 [1; 2; 1; 2; 1; 2; 3] [1; 2; 3]
    ([ContainsSequenceApostolicoCrochemore] ++ [ContainsSequenceBruteForce])
    = bruteForceSearch Z.eqb [1; 2; 1; 2; 1; 2; 3] [1; 2; 3].
Proof.
  assert (Hlen : 2 <= len [1; 2; 3] <= len [1; 2; 1; 2; 1; 2; 3])
    by (unfold len; simpl; lia).
  split; [exact Hlen|]. split.
  - exact (proj1 (proj2 (proj2 (proj2 (proj2
             (ContainsSequence_last_option_wins Z.eqb [1; 2; 1; 2; 1; 2; 3]
                [1; 2; 3] [ContainsSequenceBruteForce] zeroArgs 8)))) Hlen)).
  - exact (proj1 (proj2 (proj2 (proj2 (proj2 (proj2
             (ContainsSequence_last_option_wins Z.eqb [1; 2; 1; 2; 1; 2; 3]
                [1; 2; 3] [ContainsSequenceApostolicoCrochemore] zeroArgs 8)))) Hlen))).
Defined.

(** ** Reads of composed slices *)

Lemma index_head {A : Type} (a : A) (l : list A) : index (a :: l) 0 = Ret a.
Proof. reflexivity. Qed.

Lemma index_tail {A : Type} (a : A) (l : list A) (i : Z) :
  0 <= i -> index (a :: l) (i + 1) = index l i.
Proof.
  intros Hi. unfold index.
  destruct (Z.ltb_spec (i + 1) 0); [lia|].
  destruct (Z.ltb_spec i 0); [lia|].
  replace (Z.to_nat (i + 1)) with (S (Z.to_nat i)) by lia.
  reflexivity.
Qed.

Lemma len_app {A : Type} (l1 l2 : list A) : len (l1 ++ l2) = len l1 + len l2.
Proof. unfold len. rewrite length_app. lia. Qed.

Lemma len_nil {A : Type} : len (@nil A) = 0.
Proof. reflexivity. Qed.

Lemma index_app_l {A : Type} (l1 l2 : list A) (i : Z) :
  i < len l1 -> index (l1 ++ l2) i = index l1 i.
Proof.
  intros Hi. unfold index. destruct (Z.ltb_spec i 0); [reflexivity|].
  rewrite lookup_app_l; [reflexivity|]. unfold len in Hi. lia.
Qed.

Lemma index_app_r {A : Type} (l1 l2 : list A) (i : Z) :
  0 <= i -> index (l1 ++ l2) (len l1 + i) = index l2 i.
Proof.
  intros Hi. unfold index, len.
  destruct (Z.ltb_spec (Z.of_nat (length l1) + i) 0); [lia|].
  destruct (Z.ltb_spec i 0); [lia|].
  rewrite lookup_app_r by lia.
  replace (Z.to_nat (Z.of_nat (length l1) + i) - length l1)%nat
    with (Z.to_nat i) by lia.
  reflexivity.
Qed.

Lemma index_middle {A : Type} (l1 l2 : list A) (a : A) :
  index (l1 ++ a :: l2) (len l1) = Ret a.
Proof.
  replace (len l1) with (len l1 + 0) by lia.
  rewrite index_app_r by lia. reflexivity.
Qed.

Lemma index_Ret_elem_of {A : Type} (l : list A) (i : Z) (a : A) :
  index l i = Ret a -> a ∈ l.
Proof.
  unfold index. destruct (Z.ltb_spec i 0); [discriminate|].
  destruct (l !! Z.to_nat i) as [a'|] eqn:Hl; [|discriminate].
  intros [= <-]. apply list_elem_of_lookup. eauto.
Qed.

Lemma elem_of_index {A : Type} (l : list A) (a : A) :
  a ∈ l -> exists i, 0 <= i < len l /\ index l i = Ret a.
Proof.
  intros Ha. apply list_elem_of_lookup in Ha as [n Hn].
  exists (Z.of_nat n). pose proof (lookup_lt_Some _ _ _ Hn) as Hlt.
  split; [unfold len; lia|]. unfold index.
  destruct (Z.ltb_spec (Z.of_nat n) 0); [lia|].
  rewrite Nat2Z.id, Hn. reflexivity.
Qed.

(** ** Prefixes, suffixes and equality *)

Section Siblings.
Context {T : Type}.
Variable eqb : T -> T -> bool.

Lemma StartsWithSequenceLoop_spec (s : list T) :
  forall (rest pre : list T),
    len pre + len rest <= len s ->
    exists b, StartsWithSequenceLoop eqb rest s (len pre) = Ret b /\
      (b = true <->
       forall t, len pre <= t < len pre + len rest ->
         E eqb s t (pre ++ rest) t).
Proof.
  induction rest as [|ele rest IH]; intros pre Hfit.
  - exists true. split; [reflexivity|]. split; [|reflexivity].
    intros _ t Ht. rewrite len_nil in Ht. lia.
  - rewrite len_cons in Hfit. pose proof (len_nonneg pre). pose proof (len_nonneg rest).
    cbn [StartsWithSequenceLoop]. read s (len pre) a Ha.
    destruct (eqb a ele) eqn:Hab; simpl.
    + destruct (IH (pre ++ [ele])) as (b & Hb & Hiff).
      { rewrite len_app, len_cons, len_nil. lia. }
      rewrite len_app, len_cons, len_nil in Hb, Hiff.
      rewrite <- app_assoc in Hiff. simpl in Hiff. simpl in Hb.
      exists b. split; [exact Hb|]. rewrite Hiff, len_cons. split.
      * intros Hall t Ht. destruct (Z.eq_dec t (len pre)) as [->|Hne].
        -- eapply E_intro; [exact Ha | apply index_middle | exact Hab].
        -- apply Hall. lia.
      * intros Hall t Ht. apply Hall. lia.
    + exists false. split; [reflexivity|]. split; [discriminate|].
      intros Hall. exfalso. rewrite len_cons in Hall.
      eapply (E_false eqb s (pre ++ ele :: rest));
        [exact Ha | apply index_middle | exact Hab | apply Hall; lia].
Qed.

(** [StartsWithSequence] never panics; it is true exactly when [seq] is no
    longer than [s] and [s[t] == seq[t]] at every index [t] of [seq]. *)
Lemma StartsWithSequence_spec (s seq : list T) :
  exists b, StartsWithSequence eqb s seq = Ret b /\
    (b = true <->
     len seq <= len s /\ forall t, 0 <= t < len seq -> E eqb s t seq t).
Proof.
  unfold StartsWithSequence.
  destruct (Z.ltb_spec (len s) (len seq)) as [Hlt|Hge].
  - exists false. split; [reflexivity|]. split; [discriminate | lia].
  - destruct (StartsWithSequenceLoop_spec s seq []) as (b & Hb & Hiff).
    { rewrite len_nil. lia. }
    rewrite len_nil in Hb, Hiff. simpl in Hiff.
    exists b. split; [exact Hb|]. rewrite Hiff. split.
    + intros Hall. split; [lia|]. intros t Ht. apply Hall. lia.
    + intros [_ Hall] t Ht. apply Hall. lia.
Qed.

Lemma EndsWithSequenceLoop_spec (s seq : list T) (lenDiff : Z) :
  lenDiff = len s - len seq -> 0 <= lenDiff ->
  forall (n : nat) (idx : Z),
    -1 <= idx < len seq ->
    post (EndsWithSequenceLoop eqb n s seq lenDiff idx) (idx + 1 < Z.of_nat n)
      (fun b => b = true <->
         forall t, 0 <= t <= idx -> E eqb s (t + lenDiff) seq t).
Proof.
  intros Hdiff Hpos. induction n as [|n IH]; intros idx Hidx.
  - simpl. lia.
  - cbn [EndsWithSequenceLoop]. destruct (Z.geb_spec idx 0) as [Hge|Hlt].
    + read s (idx + lenDiff) a Ha. read seq idx b Hb.
      destruct (eqb a b) eqn:Hab; simpl.
      * eapply post_weaken; [apply (IH (idx - 1)); lia | lia |].
        intros r Hiff. rewrite Hiff. split.
        -- intros Hall t Ht. destruct (Z.eq_dec t idx) as [->|Hne].
           ++ eapply E_intro; eauto.
           ++ apply Hall. lia.
        -- intros Hall t Ht. apply Hall. lia.
      * split; [discriminate|]. intros Hall. exfalso.
        eapply (E_false eqb s seq); [exact Ha | exact Hb | exact Hab | apply Hall; lia].
    + simpl. split; [|reflexivity]. intros _ t Ht. lia.
Qed.

(** [EndsWithSequence] never panics, returns once [fuel] exceeds the
    length of [seq], and is true exactly when the last [len(seq)] elements
    of [s] match [seq]. *)
Lemma EndsWithSequence_spec (fuel : nat) (s seq : list T) :
  post (EndsWithSequence eqb fuel s seq) (len seq < Z.of_nat fuel)
    (fun b => b = true <->
       len seq <= len s /\
       forall t, 0 <= t < len seq -> E eqb s (len s - len seq + t) seq t).
Proof.
  unfold EndsWithSequence. cbv zeta.
  destruct (Z.ltb_spec (len s - len seq) 0) as [Hlt|Hge].
  - simpl. split; [discriminate | lia].
  - pose proof (len_nonneg seq).
    eapply post_weaken;
      [apply (EndsWithSequenceLoop_spec s seq (len s - len seq) eq_refl Hge
                fuel (len seq - 1)); lia
      | lia |].
    intros b Hiff. rewrite Hiff. split.
    + intros Hall. split; [lia|]. intros t Ht.
      eapply E_shift; [| reflexivity | apply (Hall t); lia]. lia.
    + intros [_ Hall] t Ht.
      eapply E_shift; [| reflexivity | apply (Hall t); lia]. lia.
Qed.

Lemma EqualLoop_spec (s2 : list T) :
  forall (rest pre : list T),
    len pre + len rest <= len s2 ->
    exists b, EqualLoop eqb rest s2 (len pre) = Ret b /\
      (b = true <->
       forall t, len pre <= t < len pre + len rest ->
         E eqb (pre ++ rest) t s2 t).
Proof.
  induction rest as [|ele rest IH]; intros pre Hfit.
  - exists true. split; [reflexivity|]. split; [|reflexivity].
    intros _ t Ht. rewrite len_nil in Ht. lia.
  - rewrite len_cons in Hfit. pose proof (len_nonneg pre). pose proof (len_nonneg rest).
    cbn [EqualLoop]. read s2 (len pre) b Hb.
    destruct (eqb ele b) eqn:Hab; simpl.
    + destruct (IH (pre ++ [ele])) as (r & Hr & Hiff).
      { rewrite len_app, len_cons, len_nil. lia. }
      rewrite len_app, len_cons, len_nil in Hr, Hiff.
      rewrite <- app_assoc in Hiff. simpl in Hiff. simpl in Hr.
      exists r. split; [exact Hr|]. rewrite Hiff, len_cons. split.
      * intros Hall t Ht. destruct (Z.eq_dec t (len pre)) as [->|Hne].
        -- eapply E_intro; [apply index_middle | exact Hb | exact Hab].
        -- apply Hall. lia.
      * intros Hall t Ht. apply Hall. lia.
    + exists false. split; [reflexivity|]. split; [discriminate|].
      intros Hall. exfalso. rewrite len_cons in Hall.
      eapply (E_false eqb (pre ++ ele :: rest) s2);
        [apply index_middle | exact Hb | exact Hab | apply Hall; lia].
Qed.

(** [Equal] never panics; it is true exactly when the slices have the same
    length and [s1[t] == s2[t]] at every index. *)
Lemma Equal_spec (s1 s2 : list T) :
  exists b, Equal eqb s1 s2 = Ret b /\
    (b = true <->
     len s1 = len s2 /\ forall t, 0 <= t < len s1 -> E eqb s1 t s2 t).
Proof.
  unfold Equal. destruct (Z.eqb_spec (len s1) (len s2)) as [Heq|Hne]; simpl.
  - destruct (EqualLoop_spec s2 s1 []) as (b & Hb & Hiff).
    { rewrite len_nil. lia. }
    rewrite len_nil in Hb, Hiff. simpl in Hiff.
    exists b. split; [exact Hb|]. rewrite Hiff. split.
    + intros Hall. split; [exact Heq|]. intros t Ht. apply Hall. lia.
    + intros [_ Hall] t Ht. apply Hall. lia.
  - exists false. split; [reflexivity|]. split; [discriminate|].
    intros [Heq _]. contradiction.
Qed.

End Siblings.

(** ** Containment as the existence of an occurrence *)

Section Containment.
Context {T : Type}.
Variable eqb : T -> T -> bool.

Lemma occurs_single (s : list T) (x : T) :
  (forall a b, eqb a b = true -> eqb b a = true) ->
  (exists idx, occurs eqb s [x] idx) <-> exists e, e ∈ s /\ eqb e x = true.
Proof.
  intros Hsym. split.
  - intros (idx & Hr & Hm). destruct (Hm 0) as (a & b & Ha & Hb & Hab).
    { change (len [x]) with 1. lia. }
    rewrite index_head in Ha. injection Ha as <-.
    exists b. split; [eapply index_Ret_elem_of; exact Hb | auto].
  - intros (e & He & Hex). destruct (elem_of_index s e He) as (i & Hi & Hie).
    exists i. split; [change (len [x]) with 1; lia|].
    intros t Ht. change (len [x]) with 1 in Ht. assert (t = 0) as -> by lia.
    exists x, e. split; [apply index_head|].
    split; [replace (i + 0) with i by lia; exact Hie | auto].
Qed.

(** With [==] symmetric and transitive and fuel above the length of the
    haystack, [ContainsSequence] returns whether the pattern occurs. *)
Lemma ContainsSequence_occurs (fuel : nat) (s seq : list T)
  (opts : list ContainsSequenceOpt) :
  PER eqb -> (length s < fuel)%nat ->
  exists b, ContainsSequence eqb fuel s seq opts = Ret b /\
    (b = true <-> exists idx, occurs eqb s seq idx).
Proof.
  intros Hper Hfuel. destruct (Z_lt_le_dec (len s) (len seq)) as [Hlt|Hge].
  - rewrite ContainsSequence_short by exact Hlt. exists false.
    split; [reflexivity|]. split; [discriminate|].
    intros (idx & Hr & _). lia.
  - destruct seq as [|x [|y seq]].
    + rewrite ContainsSequence_empty. exists true. split; [reflexivity|].
      split; [|reflexivity]. intros _. exists 0. split.
      * change (len (@nil T)) with 0. pose proof (len_nonneg s). lia.
      * intros t Ht. change (len (@nil T)) with 0 in Ht. lia.
    + rewrite ContainsSequence_single. exists (Contains eqb s x).
      split; [reflexivity|].
      rewrite Contains_spec, (occurs_single s x (proj1 Hper)). reflexivity.
    + assert (Hlen : 2 <= len (x :: y :: seq) <= len s).
      { rewrite !len_cons in *. pose proof (len_nonneg seq). lia. }
      destruct (searchers_find_occurrences eqb s (x :: y :: seq) fuel)
        as (b & Hbf & Hac & Hiff); [exact Hper | lia | exact Hfuel |].
      exists b. split; [|exact Hiff].
      rewrite ContainsSequence_dispatch by exact Hlen.
      destruct (String.eqb _ _); assumption.
Qed.

Lemma ContainsSequence_true_iff (fuel : nat) (s seq : list T)
  (opts : list ContainsSequenceOpt) :
  PER eqb -> (length s < fuel)%nat ->
  ContainsSequence eqb fuel s seq opts = Ret true <->
  exists idx, occurs eqb s seq idx.
Proof.
  intros Hper Hfuel.
  destruct (ContainsSequence_occurs fuel s seq opts Hper Hfuel) as (b & Hb & Hiff).
  rewrite Hb, <- Hiff. split; [intros [= ->]; reflexivity | intros ->; reflexivity].
Qed.

Lemma occurs_trans (s seq sub : list T) (a b : Z) :
  PER eqb -> occurs eqb s seq a -> occurs eqb seq sub b ->
  occurs eqb s sub (a + b).
Proof.
  intros Hper [Hra Hma] [Hrb Hmb]. split; [lia|].
  intros t Ht.
  eapply E_trans; [exact Hper | apply (Hmb t Ht) |].
  eapply E_shift; [reflexivity | | apply (Hma (b + t)); lia]. lia.
Qed.

Lemma occurs_app (pre s post seq : list T) (idx : Z) :
  occurs eqb s seq idx -> occurs eqb (pre ++ s ++ post) seq (len pre + idx).
Proof.
  intros [Hr Hm]. pose proof (len_nonneg pre). pose proof (len_nonneg post).
  split; [rewrite !len_app; lia|].
  intros t Ht. destruct (Hm t Ht) as (a & b & Ha & Hb & Hab).
  exists a, b. split; [exact Ha|]. split; [|exact Hab].
  replace (len pre + idx + t) with (len pre + (idx + t)) by lia.
  rewrite index_app_r by lia. rewrite index_app_l; [exact Hb|].
  apply (index_Ret_inb _ _ _ Hb).
Qed.

End Containment.

(** ** Copies and sub-slices *)

Lemma copySlice_same_length {A : Type} (dst src : list A) :
  length dst = length src -> copySlice dst src = src.
Proof.
  intros Hlen. unfold copySlice.
  rewrite take_ge by lia. rewrite drop_ge by lia. apply app_nil_r.
Qed.

Lemma makeOf_Ret {A : Type} (zero : A) (n : Z) :
  0 <= n -> makeOf zero n = Ret (replicate (Z.to_nat n) zero).
Proof. intros Hn. unfold makeOf. destruct (Z.ltb_spec n 0); [lia | reflexivity]. Qed.

Lemma sliceFrom_Ret {A : Type} (s : list A) (lo : Z) :
  0 <= lo <= len s -> sliceFrom s lo = Ret (drop (Z.to_nat lo) s).
Proof.
  intros Hlo. unfold sliceFrom.
  destruct (Z.leb_spec 0 lo); [|lia]. destruct (Z.leb_spec lo (len s)); [|lia].
  reflexivity.
Qed.

Lemma sliceTo_Ret {A : Type} (s : list A) (hi : Z) :
  0 <= hi <= len s -> sliceTo s hi = Ret (take (Z.to_nat hi) s).
Proof.
  intros Hhi. unfold sliceTo.
  destruct (Z.leb_spec 0 hi); [|lia]. destruct (Z.leb_spec hi (len s)); [|lia].
  reflexivity.
Qed.

Section CopiesFacts.
Context {T : Type}.
Variable zero : T.

Lemma Take_eq (s : list T) (num : Z) :
  Take zero s num = Ret (take (Z.to_nat num) s).
Proof.
  unfold Take. cbv zeta. pose proof (len_nonneg s) as Hs.
  set (n1 := if num <? 0 then 0 else num).
  set (n2 := if n1 >? len s then len s else n1).
  assert (Hn2 : 0 <= n2 <= len s).
  { subst n2 n1. destruct (Z.ltb_spec num 0);
      [destruct (Z.gtb_spec 0 (len s)) | destruct (Z.gtb_spec num (len s))]; lia. }
  rewrite makeOf_Ret by lia. rewrite bind_Ret.
  rewrite sliceTo_Ret by lia. rewrite bind_Ret.
  rewrite copySlice_same_length.
  - f_equal. subst n2 n1. unfold len in *.
    destruct (Z.ltb_spec num 0).
    + destruct (Z.gtb_spec 0 (Z.of_nat (length s))); [lia|].
      replace (Z.to_nat num) with 0%nat by lia. reflexivity.
    + destruct (Z.gtb_spec num (Z.of_nat (length s))); [|reflexivity].
      rewrite Nat2Z.id. rewrite !take_ge by lia. reflexivity.
  - rewrite length_replicate, length_take. unfold len in *. lia.
Qed.

Lemma Drop_eq (s : list T) (num : Z) :
  Drop zero s num = Ret (drop (Z.to_nat num) s).
Proof.
  unfold Drop. cbv zeta. pose proof (len_nonneg s) as Hs.
  set (n1 := if num <? 0 then 0 else num).
  set (n2 := if len s <? n1 then len s else n1).
  assert (Hn2 : 0 <= n2 <= len s).
  { subst n2 n1. destruct (Z.ltb_spec num 0);
      [destruct (Z.ltb_spec (len s) 0) | destruct (Z.ltb_spec (len s) num)]; lia. }
  rewrite makeOf_Ret by lia. rewrite bind_Ret.
  rewrite sliceFrom_Ret by lia. rewrite bind_Ret.
  rewrite copySlice_same_length.
  - f_equal. subst n2 n1. unfold len in *.
    destruct (Z.ltb_spec num 0).
    + destruct (Z.ltb_spec (Z.of_nat (length s)) 0); [lia|].
      replace (Z.to_nat num) with 0%nat by lia. reflexivity.
    + destruct (Z.ltb_spec (Z.of_nat (length s)) num); [|reflexivity].
      rewrite Nat2Z.id. rewrite !drop_ge by lia. reflexivity.
  - rewrite length_replicate, length_drop. unfold len in *. lia.
Qed.

Lemma SplitAt_eq (s : list T) (idx : Z) :
  SplitAt zero s idx = Ret (take (Z.to_nat idx) s, drop (Z.to_nat idx) s).
Proof.
  unfold SplitAt. cbv zeta. pose proof (len_nonneg s) as Hs.
  set (n1 := if idx <? 0 then 0 else idx).
  set (n2 := if len s <? n1 then len s else n1).
  assert (Hn2 : 0 <= n2 <= len s).
  { subst n2 n1. destruct (Z.ltb_spec idx 0);
      [destruct (Z.ltb_spec (len s) 0) | destruct (Z.ltb_spec (len s) idx)]; lia. }
  rewrite !makeOf_Ret by lia. rewrite !bind_Ret.
  rewrite sliceTo_Ret by lia. rewrite bind_Ret.
  rewrite sliceFrom_Ret by lia. rewrite bind_Ret.
  rewrite !copySlice_same_length.
  - f_equal. subst n2 n1. unfold len in *.
    destruct (Z.ltb_spec idx 0).
    + destruct (Z.ltb_spec (Z.of_nat (length s)) 0); [lia|].
      replace (Z.to_nat idx) with 0%nat by lia. reflexivity.
    + destruct (Z.ltb_spec (Z.of_nat (length s)) idx); [|reflexivity].
      rewrite Nat2Z.id. rewrite !take_ge, !drop_ge by lia. reflexivity.
  - rewrite length_replicate, length_drop. unfold len in *. lia.
  - rewrite length_replicate, length_take. unfold len in *. lia.
Qed.

Lemma whileLimit_spec (fn : T -> bool) :
  forall (rest pre : list T),
    All pre fn = true ->
    exists pre' suf,
      pre ++ rest = pre' ++ suf /\
      whileLimit rest fn (len pre) (len pre) = len pre' /\
      All pre' fn = true /\
      match suf with [] => True | x :: _ => fn x = false end.
Proof.
  induction rest as [|ele rest IH]; intros pre Hpre.
  - exists pre, []. rewrite app_nil_r. auto.
  - cbn [whileLimit]. destruct (fn ele) eqn:Hfn; simpl.
    + destruct (IH (pre ++ [ele])) as (pre' & suf & Heq & Hlim & Hall & Hsuf).
      { clear IH. induction pre as [|a pre IHp]; simpl in *.
        - rewrite Hfn. reflexivity.
        - destruct (fn a); [apply IHp, Hpre | discriminate]. }
      rewrite len_app, len_cons in Hlim. change (len (@nil T)) with 0 in Hlim.
      replace (len pre + (0 + 1)) with (len pre + 1) in Hlim by lia.
      exists pre', suf. rewrite <- app_assoc in Heq. auto.
    + exists pre, (ele :: rest). auto.
Qed.

End CopiesFacts.

Lemma list_ext_index {A : Type} (l1 l2 : list A) :
  len l1 = len l2 ->
  (forall i, 0 <= i < len l1 -> index l1 i = index l2 i) ->
  l1 = l2.
Proof.
  intros Hlen Hall. apply list_eq. intros n.
  destruct (Nat.lt_ge_cases n (length l1)) as [Hlt|Hge].
  - specialize (Hall (Z.of_nat n)). unfold index, len in *.
    destruct (Z.ltb_spec (Z.of_nat n) 0); [lia|].
    rewrite Nat2Z.id in Hall.
    destruct (lookup_lt_is_Some_2 l1 n Hlt) as [a Ha].
    destruct (lookup_lt_is_Some_2 l2 n ltac:(lia)) as [b Hb].
    rewrite Ha, Hb in *. specialize (Hall ltac:(lia)). congruence.
  - rewrite !lookup_ge_None_2; [reflexivity | unfold len in *; lia | exact Hge].
Qed.

Lemma wrapInt_small (z : Z) : - 2 ^ 63 <= z < 2 ^ 63 -> wrapInt z = z.
Proof.
  intros Hz. unfold wrapInt. rewrite Z.mod_small by lia. lia.
Qed.

Lemma insert_replicate_last {A : Type} (k : nat) (z x : A) (l : list A) :
  <[k := x]> (replicate (S k) z ++ l) = replicate k z ++ x :: l.
Proof.
  induction k as [|k IH]; [reflexivity|].
  change (replicate (S (S k)) z) with (z :: replicate (S k) z).
  simpl. f_equal. exact IH.
Qed.


Lemma rem_normalised (k n : Z) :
  0 < n ->
  (if Z.rem k n <? 0 then n + Z.rem k n else Z.rem k n) = k mod n.
Proof.
  intros Hn. pose proof (Z.quot_rem' k n) as Hk.
  assert (Hb : - n < Z.rem k n < n).
  { pose proof (Z.rem_bound_abs k n ltac:(lia)). lia. }
  assert (Hmod : k mod n = Z.rem k n mod n).
  { rewrite Hk at 1. rewrite Z.add_comm, Z.mul_comm. apply Z.mod_add. lia. }
  rewrite Hmod. destruct (Z.ltb_spec (Z.rem k n) 0).
  - replace (Z.rem k n) with (n + Z.rem k n + (-1) * n) at 2 by lia.
    rewrite Z.mod_add by lia. rewrite Z.mod_small by lia. reflexivity.
  - rewrite Z.mod_small by lia. reflexivity.
Qed.

Section RewritingCopies.
Context {T : Type}.
Variable zero : T.

Lemma Updated_eq (s : list T) (idx : Z) (ele : T) :
  Updated zero s idx ele =
    if (idx <? 0) || (idx >=? len s)
    then Ret ([], Some "index out of bounds"%string)
    else Ret (<[Z.to_nat idx := ele]> s, None).
Proof.
  unfold Updated. pose proof (len_nonneg s).
  destruct (Z.ltb_spec idx 0) as [Hneg|Hpos]; [reflexivity|].
  destruct (Z.geb_spec idx (len s)) as [Hbig|Hin]; [reflexivity|]. simpl.
  rewrite makeOf_Ret by lia. rewrite bind_Ret.
  rewrite copySlice_same_length
    by (rewrite length_replicate; unfold len; lia).
  rewrite store_inb by lia. reflexivity.
Qed.


Lemma ReversedLoop_spec (n : Z) :
  forall (rest pre : list T),
    len pre + len rest = n ->
    ReversedLoop rest (replicate (Z.to_nat (n - len pre)) zero ++ reverse pre)
      n (len pre) = Ret (reverse (pre ++ rest)).
Proof.
  induction rest as [|ele rest IH]; intros pre Hn.
  - simpl. change (len (@nil T)) with 0 in Hn.
    replace (Z.to_nat (n - len pre)) with 0%nat by lia.
    rewrite app_nil_r. reflexivity.
  - rewrite len_cons in Hn. pose proof (len_nonneg pre). pose proof (len_nonneg rest).
    cbn [ReversedLoop]. rewrite store_inb.
    2:{ unfold len in *. rewrite length_app, length_replicate. lia. }
    rewrite bind_Ret.
    replace (Z.to_nat (n - len pre)) with (S (Z.to_nat (n - len pre - 1))) by lia.
    rewrite insert_replicate_last.
    specialize (IH (pre ++ [ele])).
    rewrite len_app, len_cons in IH. change (len (@nil T)) with 0 in IH.
    rewrite reverse_app, <- app_assoc in IH. simpl in IH.
    replace (n - (len pre + (0 + 1))) with (n - len pre - 1) in IH by lia.
    replace (len pre + (0 + 1)) with (len pre + 1) in IH by lia.
    apply IH. lia.
Qed.

Lemma RotateLoop_spec (s : list T) (n k : Z) :
  n = len s -> 0 < n <= 2 ^ 62 -> 0 <= k < n ->
  forall (rest pre result : list T),
    pre ++ rest = s -> len result = n ->
    (forall i, 0 <= i < n ->
       index result i =
         if (i - k) mod n <? len pre then index s ((i - k) mod n)
         else Ret zero) ->
    exists r, RotateLoop rest result n k (len pre) = Ret r /\
      len r = n /\
      forall i, 0 <= i < n -> index r i = index s ((i - k) mod n).
Proof.
  intros Hn Hbound Hk. induction rest as [|ele rest IH]; intros pre result Hs Hlen Hinv.
  - exists result. split; [reflexivity|]. split; [exact Hlen|].
    intros i Hi. rewrite (Hinv i Hi).
    rewrite app_nil_r in Hs. subst pre.
    pose proof (Z.mod_pos_bound (i - k) n ltac:(lia)).
    destruct (Z.ltb_spec ((i - k) mod n) (len s)); [reflexivity | lia].
  - assert (Hpre : len pre + len rest + 1 = n).
    { rewrite Hn, <- Hs, len_app, len_cons. lia. }
    pose proof (len_nonneg pre). pose proof (len_nonneg rest).
    cbn [RotateLoop]. rewrite wrapInt_small by lia.
    unfold goRem. destruct (Z.eqb_spec n 0); [lia|]. rewrite bind_Ret.
    rewrite Z.rem_mod_nonneg by lia.
    pose proof (Z.mod_pos_bound (len pre + k) n ltac:(lia)) as Hpos.
    rewrite store_inb by lia. rewrite bind_Ret.
    assert (Hback : ((len pre + k) mod n - k) mod n = len pre).
    { rewrite Zminus_mod_idemp_l.
      replace (len pre + k - k) with (len pre) by lia.
      apply Z.mod_small. lia. }
    destruct (IH (pre ++ [ele]) (<[Z.to_nat ((len pre + k) mod n) := ele]> result))
      as (r & Hr & Hrl & Hrall).
    + rewrite <- app_assoc. exact Hs.
    + rewrite len_insert. exact Hlen.
    + intros i Hi. rewrite len_app, len_cons. change (len (@nil T)) with 0.
      destruct (Z.eq_dec i ((len pre + k) mod n)) as [->|Hne].
      * rewrite index_insert_eq by lia. rewrite Hback.
        destruct (Z.ltb_spec (len pre) (len pre + (0 + 1))); [|lia].
        rewrite <- Hs. symmetry. apply index_middle.
      * rewrite index_insert_ne by lia. rewrite (Hinv i Hi).
        assert ((i - k) mod n <> len pre).
        { intros Heq. apply Hne. rewrite <- Heq.
          rewrite Zplus_mod_idemp_l. replace (i - k + k) with i by lia.
          symmetry. apply Z.mod_small. lia. }
        destruct (Z.ltb_spec ((i - k) mod n) (len pre));
          destruct (Z.ltb_spec ((i - k) mod n) (len pre + (0 + 1)));
          try reflexivity; lia.
    + rewrite len_app, len_cons in Hr. change (len (@nil T)) with 0 in Hr.
      replace (len pre + (0 + 1)) with (len pre + 1) in Hr by lia.
      exists r. auto.
Qed.

(** [Rotate] on a slice of at most [2^62] elements: the element at [i]
    comes from [(i - k) mod len(s)]. *)
Lemma Rotate_spec (s : list T) (k : Z) :
  len s <= 2 ^ 62 ->
  exists r, Rotate zero s k = Ret r /\ len r = len s /\
    forall i, 0 <= i < len s -> index r i = index s ((i - k) mod len s).
Proof.
  intros Hbound. unfold Rotate. cbv zeta.
  destruct (Z.eqb_spec (len s) 0) as [Hz|Hnz]; simpl.
  - destruct s as [|a s]; [|rewrite len_cons in Hz; pose proof (len_nonneg s); lia].
    exists []. split; [reflexivity|]. split; [reflexivity|].
    intros i Hi. change (len (@nil T)) with 0 in Hi. lia.
  - pose proof (len_nonneg s). unfold goRem.
    destruct (Z.eqb_spec (len s) 0); [lia|]. rewrite bind_Ret.
    rewrite rem_normalised by lia.
    pose proof (Z.mod_pos_bound k (len s) ltac:(lia)) as Hk.
    rewrite makeOf_Ret by lia. rewrite bind_Ret.
    destruct (RotateLoop_spec s (len s) (k mod len s) eq_refl ltac:(lia) Hk
                s [] (replicate (Z.to_nat (len s)) zero))
      as (r & Hr & Hrl & Hall).
    + reflexivity.
    + unfold len. rewrite length_replicate. lia.
    + intros i Hi. change (len (@nil T)) with 0.
      pose proof (Z.mod_pos_bound (i - k mod len s) (len s) ltac:(lia)).
      destruct (Z.ltb_spec ((i - k mod len s) mod len s) 0); [lia|].
      unfold index. destruct (Z.ltb_spec i 0); [lia|].
      rewrite lookup_replicate_2; [reflexivity | lia].
    + exists r. split; [exact Hr|]. split; [exact Hrl|].
      intros i Hi. rewrite (Hall i Hi). f_equal.
      apply Zminus_mod_idemp_r.
Qed.

End RewritingCopies.

(** ** Counting and selecting with a predicate *)

Section CountingFacts.
Context {T : Type}.
Variable fn : T -> bool.

Lemma CountLoop_filter (s : list T) (cnt : Z) :
  CountLoop s fn cnt = cnt + len (List.filter fn s).
Proof.
  revert cnt. induction s as [|ele s IH]; intros cnt.
  - simpl. change (len (@nil T)) with 0. lia.
  - cbn [CountLoop List.filter]. destruct (fn ele) eqn:Hfn.
    + rewrite IH, len_cons. lia.
    + apply IH.
Qed.

Lemma Count_nonneg (s : list T) : 0 <= Count s fn <= len s.
Proof.
  unfold Count. rewrite CountLoop_filter.
  pose proof (len_nonneg (List.filter fn s)).
  pose proof (List.filter_length_le fn s). unfold len in *. lia.
Qed.

Lemma CountLoop_shift (s : list T) (cnt : Z) :
  CountLoop s fn cnt = cnt + Count s fn.
Proof. unfold Count. rewrite !CountLoop_filter. lia. Qed.

Lemma AtLeastLoop_Count (n : Z) (s : list T) (cnt : Z) :
  AtLeastLoop s n fn cnt = (cnt + Count s fn >=? n).
Proof.
  revert cnt. induction s as [|ele s IH]; intros cnt.
  - simpl. unfold Count. simpl. f_equal. lia.
  - cbn [AtLeastLoop]. unfold Count. cbn [CountLoop].
    destruct (fn ele).
    + cbv zeta. rewrite (CountLoop_shift s (0 + 1)).
      pose proof (Count_nonneg s).
      destruct (Z.geb_spec (cnt + 1) n).
      * symmetry. apply Z.geb_le. lia.
      * rewrite IH. f_equal. lia.
    + rewrite IH. unfold Count. reflexivity.
Qed.

Lemma AtMostLoop_Count (n : Z) (s : list T) (cnt : Z) :
  AtMostLoop s n fn cnt = (cnt + Count s fn <=? n).
Proof.
  revert cnt. induction s as [|ele s IH]; intros cnt.
  - simpl. unfold Count. simpl. f_equal. lia.
  - cbn [AtMostLoop]. unfold Count. cbn [CountLoop].
    destruct (fn ele).
    + cbv zeta. rewrite (CountLoop_shift s (0 + 1)).
      pose proof (Count_nonneg s).
      destruct (Z.gtb_spec (cnt + 1) n).
      * symmetry. apply Z.leb_gt. lia.
      * rewrite IH. f_equal. lia.
    + rewrite IH. unfold Count. reflexivity.
Qed.

Lemma ExactlyLoop_Count (n : Z) (s : list T) (cnt : Z) :
  ExactlyLoop s n fn cnt = (cnt + Count s fn =? n).
Proof.
  revert cnt. induction s as [|ele s IH]; intros cnt.
  - simpl. unfold Count. simpl. f_equal. lia.
  - cbn [ExactlyLoop]. unfold Count. cbn [CountLoop].
    destruct (fn ele).
    + cbv zeta. rewrite (CountLoop_shift s (0 + 1)).
      pose proof (Count_nonneg s).
      destruct (Z.gtb_spec (cnt + 1) n).
      * symmetry. apply Z.eqb_neq. lia.
      * rewrite IH. f_equal. lia.
    + rewrite IH. unfold Count. reflexivity.
Qed.

Lemma FilterLoop_filter (s ss : list T) :
  FilterLoop s fn ss = ss ++ List.filter fn s.
Proof.
  revert ss. induction s as [|ele s IH]; intros ss.
  - simpl. rewrite app_nil_r. reflexivity.
  - cbn [FilterLoop List.filter]. destruct (fn ele) eqn:Hfn.
    + rewrite IH, <- app_assoc. reflexivity.
    + apply IH.
Qed.

Lemma PartitionLoop_filter (s a b : list T) :
  PartitionLoop s fn a b =
    (a ++ List.filter fn s, b ++ List.filter (fun x => negb (fn x)) s).
Proof.
  revert a b. induction s as [|ele s IH]; intros a b.
  - simpl. rewrite !app_nil_r. reflexivity.
  - cbn [PartitionLoop List.filter]. destruct (fn ele) eqn:Hfn; simpl.
    + rewrite IH, <- app_assoc. reflexivity.
    + rewrite IH, <- app_assoc. reflexivity.
Qed.

Lemma All_forall (s : list T) :
  All s fn = true <-> forall x, x ∈ s -> fn x = true.
Proof.
  induction s as [|ele s IH]; simpl.
  - split; [|reflexivity]. intros _ x Hx. inversion Hx.
  - destruct (fn ele) eqn:Hfn; simpl.
    + rewrite IH. split.
      * intros Hall x Hx. inversion Hx; subst; auto.
      * intros Hall x Hx. apply Hall. right. exact Hx.
    + split; [discriminate|]. intros Hall.
      rewrite <- Hfn. apply Hall. left.
Qed.

Lemma Any_exists (s : list T) :
  Any s fn = true <-> exists x, x ∈ s /\ fn x = true.
Proof.
  induction s as [|ele s IH]; simpl.
  - split; [discriminate|]. intros (x & Hx & _). inversion Hx.
  - destruct (fn ele) eqn:Hfn.
    + split; [|reflexivity]. intros _. exists ele. split; [left | exact Hfn].
    + rewrite IH. split.
      * intros (x & Hx & Hfx). exists x. split; [right; exact Hx | exact Hfx].
      * intros (x & Hx & Hfx). inversion Hx; subst; [congruence|].
        exists x. auto.
Qed.

Lemma FirstIndexWhereLoop_spec :
  forall (rest pre : list T),
    (forall x, x ∈ pre -> fn x = false) ->
    let r := FirstIndexWhereLoop rest fn (len pre) in
    (r = -1 /\ forall x, x ∈ pre ++ rest -> fn x = false) \/
    (len pre <= r < len pre + len rest /\
     (exists a, index (pre ++ rest) r = Ret a /\ fn a = true) /\
     forall j a, 0 <= j < r -> index (pre ++ rest) j = Ret a -> fn a = false).
Proof.
  induction rest as [|ele rest IH]; intros pre Hpre; cbv zeta.
  - left. split; [reflexivity|]. rewrite app_nil_r. exact Hpre.
  - cbn [FirstIndexWhereLoop]. destruct (fn ele) eqn:Hfn.
    + right. rewrite len_cons. pose proof (len_nonneg rest).
      split; [lia|]. split.
      * exists ele. split; [apply index_middle | exact Hfn].
      * intros j a Hj Ha. apply Hpre.
        rewrite index_app_l in Ha by lia.
        eapply index_Ret_elem_of. exact Ha.
    + specialize (IH (pre ++ [ele])). cbv zeta in IH.
      rewrite len_app, len_cons in IH. change (len (@nil T)) with 0 in IH.
      replace (len pre + (0 + 1)) with (len pre + 1) in IH by lia.
      rewrite <- app_assoc in IH. simpl in IH.
      rewrite len_cons.
      destruct IH as [[Hr Hnone]|(Hr & Hhit & Hbefore)].
      * intros x Hx. apply elem_of_app in Hx as [Hx|Hx]; [auto|].
        apply list_elem_of_singleton in Hx. subst. exact Hfn.
      * left. auto.
      * right. split; [lia|]. auto.
Qed.

End CountingFacts.

(** ** Positions of an element *)

Section Positions.
Context {T : Type}.
Variable eqb : T -> T -> bool.

Lemma FirstIndexOfLoop_where (ele : T) (rest : list T) (idx : Z) :
  FirstIndexOfLoop eqb rest ele idx =
  FirstIndexWhereLoop rest (fun e => eqb e ele) idx.
Proof.
  revert idx. induction rest as [|e rest IH]; intros idx; [reflexivity|].
  simpl. destruct (eqb e ele); [reflexivity | apply IH].
Qed.

Lemma Contains_Any (s : list T) (ele : T) :
  Contains eqb s ele = Any s (fun e => eqb e ele).
Proof.
  induction s as [|e s IH]; [reflexivity|].
  simpl. destruct (eqb e ele); [reflexivity | exact IH].
Qed.

Lemma LastIndexOfLoop_spec (s : list T) (ele : T) :
  forall (n : nat) (idx : Z),
    -1 <= idx < len s ->
    (forall j a, idx < j -> index s j = Ret a -> eqb ele a = false) ->
    post (LastIndexOfLoop eqb n s ele idx) (idx + 1 < Z.of_nat n)
      (fun r =>
         (r = -1 /\ forall j a, index s j = Ret a -> eqb ele a = false) \/
         (0 <= r < len s /\
          (exists a, index s r = Ret a /\ eqb ele a = true) /\
          forall j a, r < j -> index s j = Ret a -> eqb ele a = false)).
Proof.
  induction n as [|n IH]; intros idx Hidx Hafter.
  - simpl. lia.
  - cbn [LastIndexOfLoop]. destruct (Z.geb_spec idx 0) as [Hge|Hlt].
    + read s idx a Ha. destruct (eqb ele a) eqn:Hea.
      * simpl. right. split; [lia|]. split; [eauto | exact Hafter].
      * eapply post_weaken; [apply (IH (idx - 1)); [lia|] | lia | auto].
        intros j b Hj Hb. destruct (Z.eq_dec j idx) as [->|Hne].
        -- rewrite Ha in Hb. injection Hb as <-. exact Hea.
        -- apply (Hafter j); [lia | exact Hb].
    + simpl. left. split; [reflexivity|]. intros j a Ha.
      apply (Hafter j); [|exact Ha].
      pose proof (index_Ret_inb _ _ _ Ha). lia.
Qed.

Lemma NthIndexOfLoop_first (ele : T) (rest : list T) (idx : Z) :
  NthIndexOfLoop eqb rest 1 ele idx = FirstIndexOfLoop eqb rest ele idx.
Proof.
  revert idx. induction rest as [|e rest IH]; intros idx; [reflexivity|].
  simpl. destruct (eqb e ele); [reflexivity | apply IH].
Qed.

Lemma Count_cons (fn : T -> bool) (e : T) (s : list T) :
  Count (e :: s) fn = (if fn e then 1 else 0) + Count s fn.
Proof.
  unfold Count. cbn [CountLoop]. destruct (fn e); [|lia].
  rewrite (CountLoop_shift fn s (0 + 1)). unfold Count. lia.
Qed.

Lemma NthIndexOfLoop_spec (ele : T) :
  forall (rest : list T) (n idx : Z),
    1 <= n < 2 ^ 63 -> 0 <= idx ->
    let r := NthIndexOfLoop eqb rest n ele idx in
    (r = -1 /\ Count rest (fun e => eqb e ele) < n) \/
    (idx <= r < idx + len rest /\
     (exists a, index rest (r - idx) = Ret a /\ eqb a ele = true) /\
     Count (take (Z.to_nat (r - idx)) rest) (fun e => eqb e ele) = n - 1).
Proof.
  induction rest as [|e rest IH]; intros n idx Hn Hidx; cbv zeta.
  - left. split; [reflexivity|]. unfold Count. simpl. lia.
  - cbn [NthIndexOfLoop]. rewrite Count_cons, len_cons.
    pose proof (len_nonneg rest). destruct (eqb e ele) eqn:Hee.
    + cbv zeta. rewrite wrapInt_small by lia.
      destruct (Z.eqb_spec (n - 1) 0) as [Hone|Hmore].
      * right. split; [lia|]. replace (idx - idx) with 0 by lia. split.
        -- exists e. split; [reflexivity | exact Hee].
        -- unfold Count. simpl. lia.
      * specialize (IH (n - 1) (idx + 1) ltac:(lia) ltac:(lia)). cbv zeta in IH.
        destruct IH as [[Hr Hcnt]|(Hr & (a & Ha & Hae) & Hcnt)].
        -- left. split; [exact Hr | lia].
        -- right. split; [lia|]. split.
           ++ exists a. split; [|exact Hae].
              replace (NthIndexOfLoop eqb rest (n - 1) ele (idx + 1) - idx)
                with (NthIndexOfLoop eqb rest (n - 1) ele (idx + 1) - (idx + 1) + 1)
                by lia.
              rewrite index_tail by lia. exact Ha.
           ++ replace (Z.to_nat (NthIndexOfLoop eqb rest (n - 1) ele (idx + 1) - idx))
                with (S (Z.to_nat (NthIndexOfLoop eqb rest (n - 1) ele (idx + 1) - (idx + 1))))
                by lia.
              cbn [take]. rewrite Count_cons, Hee, Hcnt. lia.
    + specialize (IH n (idx + 1) Hn ltac:(lia)). cbv zeta in IH.
      destruct IH as [[Hr Hcnt]|(Hr & (a & Ha & Hae) & Hcnt)].
      * left. split; [exact Hr | lia].
      * right. split; [lia|]. split.
        -- exists a. split; [|exact Hae].
           replace (NthIndexOfLoop eqb rest n ele (idx + 1) - idx)
             with (NthIndexOfLoop eqb rest n ele (idx + 1) - (idx + 1) + 1)
             by lia.
           rewrite index_tail by lia. exact Ha.
        -- replace (Z.to_nat (NthIndexOfLoop eqb rest n ele (idx + 1) - idx))
             with (S (Z.to_nat (NthIndexOfLoop eqb rest n ele (idx + 1) - (idx + 1))))
             by lia.
           cbn [take]. rewrite Count_cons, Hee, Hcnt. lia.
Qed.

(** The number of matches it takes to bring [n] down to [0], the
    wrap-around of [int] included. *)
Lemma NthIndexOfLoop_out_of_reach (ele : T) :
  forall (rest : list T) (n idx : Z),
    Count rest (fun e => eqb e ele) < (n - 1) mod 2 ^ 64 + 1 ->
    NthIndexOfLoop eqb rest n ele idx = -1.
Proof.
  induction rest as [|e rest IH]; intros n idx Hcnt; [reflexivity|].
  cbn [NthIndexOfLoop]. rewrite Count_cons in Hcnt.
  pose proof (Count_nonneg (fun e => eqb e ele) rest) as Hc.
  destruct (eqb e ele).
  - cbv zeta. unfold wrapInt.
    assert (Hmod : (n - 1) mod 2 ^ 64 >= 1) by lia.
    assert (Hstep : (n - 1 + 2 ^ 63) mod 2 ^ 64 - 2 ^ 63 <> 0 /\
                    ((n - 1 + 2 ^ 63) mod 2 ^ 64 - 2 ^ 63 - 1) mod 2 ^ 64 =
                    (n - 1) mod 2 ^ 64 - 1).
    { clear - Hmod. Z.div_mod_to_equations. lia. }
    destruct Hstep as [Hnz Hd].
    destruct (Z.eqb_spec ((n - 1 + 2 ^ 63) mod 2 ^ 64 - 2 ^ 63) 0); [contradiction|].
    apply IH. rewrite Hd. lia.
  - apply IH. lia.
Qed.

End Positions.

(** ** Extremes *)

Section Extremes.
Context {T : Type}.
Variable zero : T.
Variable lt : T -> T -> bool.

Hypothesis lt_irrefl : forall a, lt a a = false.
Hypothesis lt_trans : forall a b c, lt a b = true -> lt b c = true -> lt a c = true.

Lemma MaxLoop_spec (s : list T) :
  forall (n : nat) (best : T) (idx : Z),
    0 <= idx <= len s ->
    best ∈ s ->
    (forall j a, 0 <= j < idx -> index s j = Ret a -> lt best a = false) ->
    post (MaxLoop lt n s best idx) (len s - idx < Z.of_nat n)
      (fun m => m ∈ s /\ forall x, x ∈ s -> lt m x = false).
Proof.
  induction n as [|n IH]; intros best idx Hidx Hin Hmax.
  - simpl. lia.
  - cbn [MaxLoop]. destruct (Z.ltb_spec idx (len s)) as [Hlt|Hge].
    + read s idx a Ha. destruct (lt best a) eqn:Hba.
      * eapply post_weaken; [apply (IH a (idx + 1)); [lia | |] | lia | auto].
        -- eapply index_Ret_elem_of. exact Ha.
        -- intros j b Hj Hb. destruct (Z.eq_dec j idx) as [->|Hne].
           ++ rewrite Ha in Hb. injection Hb as <-. apply lt_irrefl.
           ++ destruct (lt a b) eqn:Hab; [|reflexivity].
              rewrite <- (Hmax j b ltac:(lia) Hb).
              symmetry. eapply lt_trans; eauto.
      * eapply post_weaken; [apply (IH best (idx + 1)); [lia | exact Hin |] | lia | auto].
        intros j b Hj Hb. destruct (Z.eq_dec j idx) as [->|Hne].
        -- rewrite Ha in Hb. injection Hb as <-. exact Hba.
        -- apply (Hmax j); [lia | exact Hb].
    + simpl. split; [exact Hin|]. intros x Hx.
      destruct (elem_of_index s x Hx) as (j & Hj & Hjx).
      apply (Hmax j); [lia | exact Hjx].
Qed.

Lemma MinLoop_spec (s : list T) :
  forall (n : nat) (best : T) (idx : Z),
    0 <= idx <= len s ->
    best ∈ s ->
    (forall j a, 0 <= j < idx -> index s j = Ret a -> lt a best = false) ->
    post (MinLoop lt n s best idx) (len s - idx < Z.of_nat n)
      (fun m => m ∈ s /\ forall x, x ∈ s -> lt x m = false).
Proof.
  induction n as [|n IH]; intros best idx Hidx Hin Hmin.
  - simpl. lia.
  - cbn [MinLoop]. destruct (Z.ltb_spec idx (len s)) as [Hlt|Hge].
    + read s idx a Ha. destruct (lt a best) eqn:Hab.
      * eapply post_weaken; [apply (IH a (idx + 1)); [lia | |] | lia | auto].
        -- eapply index_Ret_elem_of. exact Ha.
        -- intros j b Hj Hb. destruct (Z.eq_dec j idx) as [->|Hne].
           ++ rewrite Ha in Hb. injection Hb as <-. apply lt_irrefl.
           ++ destruct (lt b a) eqn:Hba; [|reflexivity].
              rewrite <- (Hmin j b ltac:(lia) Hb).
              symmetry. eapply lt_trans; eauto.
      * eapply post_weaken; [apply (IH best (idx + 1)); [lia | exact Hin |] | lia | auto].
        intros j b Hj Hb. destruct (Z.eq_dec j idx) as [->|Hne].
        -- rewrite Ha in Hb. injection Hb as <-. exact Hab.
        -- apply (Hmin j); [lia | exact Hb].
    + simpl. split; [exact Hin|]. intros x Hx.
      destruct (elem_of_index s x Hx) as (j & Hj & Hjx).
      apply (Hmin j); [lia | exact Hjx].
Qed.

Lemma Max_spec (fuel : nat) (s : list T) :
  post (Max zero lt fuel s) (len s <= Z.of_nat fuel)
    (fun r =>
       match s with
       | [] => r = (zero, Some "no such element"%string)
       | _ => snd r = None /\ fst r ∈ s /\
              forall x, x ∈ s -> lt (fst r) x = false
       end).
Proof.
  unfold Max. destruct s as [|a s]; [reflexivity|].
  destruct (Z.leb_spec (len (a :: s)) 0) as [Hle|Hgt].
  { rewrite len_cons in Hle. pose proof (len_nonneg s). lia. }
  rewrite index_head, bind_Ret. eapply post_bind.
  - eapply post_weaken;
      [apply (MaxLoop_spec (a :: s) fuel a 1); [lia | left |] | lia |].
    + intros j b Hj Hb. assert (j = 0) as -> by lia.
      rewrite index_head in Hb. injection Hb as <-. apply lt_irrefl.
    + intros m Hm. exact Hm.
  - intros m [Hin Hmax]. simpl. auto.
Qed.

Lemma Min_spec (fuel : nat) (s : list T) :
  post (Min zero lt fuel s) (len s <= Z.of_nat fuel)
    (fun r =>
       match s with
       | [] => r = (zero, Some "no such element"%string)
       | _ => snd r = None /\ fst r ∈ s /\
              forall x, x ∈ s -> lt x (fst r) = false
       end).
Proof.
  unfold Min. destruct s as [|a s]; [reflexivity|].
  destruct (Z.leb_spec (len (a :: s)) 0) as [Hle|Hgt].
  { rewrite len_cons in Hle. pose proof (len_nonneg s). lia. }
  rewrite index_head, bind_Ret. eapply post_bind.
  - eapply post_weaken;
      [apply (MinLoop_spec (a :: s) fuel a 1); [lia | left |] | lia |].
    + intros j b Hj Hb. assert (j = 0) as -> by lia.
      rewrite index_head in Hb. injection Hb as <-. apply lt_irrefl.
    + intros m Hm. exact Hm.
  - intros m [Hin Hmin]. simpl. auto.
Qed.

End Extremes.

(** ** Zipping *)

Section ZippingFacts.
Context {T U : Type}.
Variable zeroT : T.
Variable zeroU : U.

Lemma ZipLoop_spec (s : list T) (ss : list U) (n : Z) :
  forall (cnt : nat) (result : list (Pair T U)) (idx : Z),
    0 <= idx -> idx + Z.of_nat cnt = n -> len result = n ->
    (forall i, 0 <= i < idx -> index result i = Ret (zipAt zeroT zeroU s ss i)) ->
    exists r, ZipLoop zeroT zeroU cnt s ss result idx = Ret r /\
      len r = n /\ forall i, 0 <= i < n -> index r i = Ret (zipAt zeroT zeroU s ss i).
Proof.
  induction cnt as [|cnt IH]; intros result idx Hidx Hcnt Hlen Hdone.
  - exists result. split; [reflexivity|]. split; [exact Hlen|].
    intros i Hi. apply Hdone. lia.
  - cbn [ZipLoop].
    assert (Hleft : exists a,
              (if idx <? len s then index s idx else Ret zeroT) = Ret a /\
              a = Left (zipAt zeroT zeroU s ss idx)).
    { unfold zipAt. simpl. destruct (Z.ltb_spec idx (len s)).
      - destruct (index_inb s idx) as [a Ha]; [lia|]. rewrite Ha. eauto.
      - destruct (index s idx) as [a| |] eqn:Ha; eauto.
        apply index_Ret_inb in Ha. lia. }
    assert (Hright : exists b,
              (if idx <? len ss then index ss idx else Ret zeroU) = Ret b /\
              b = Right (zipAt zeroT zeroU s ss idx)).
    { unfold zipAt. simpl. destruct (Z.ltb_spec idx (len ss)).
      - destruct (index_inb ss idx) as [b Hb]; [lia|]. rewrite Hb. eauto.
      - destruct (index ss idx) as [b| |] eqn:Hb; eauto.
        apply index_Ret_inb in Hb. lia. }
    destruct Hleft as (a & -> & Ha). destruct Hright as (b & -> & Hb).
    rewrite !bind_Ret.
    destruct (index_inb result idx) as [p Hp]; [lia|]. rewrite Hp, bind_Ret.
    rewrite store_inb by lia. rewrite bind_Ret.
    rewrite index_insert_eq by lia. rewrite bind_Ret.
    rewrite store_inb by (rewrite len_insert; lia). rewrite bind_Ret.
    cbn [Left Right]. rewrite list_insert_insert_eq.
    destruct (IH (<[Z.to_nat idx := mkPair a b]> result) (idx + 1))
      as (r & Hr & Hrl & Hall); try lia.
    + rewrite len_insert. exact Hlen.
    + intros i Hi. destruct (Z.eq_dec i idx) as [->|Hne].
      * rewrite index_insert_eq by lia. subst a b.
        destruct (zipAt zeroT zeroU s ss idx). reflexivity.
      * rewrite index_insert_ne by lia. apply Hdone. lia.
    + exists r. auto.
Qed.

End ZippingFacts.

(** ** Functions that go through a Go map *)

#[local] Set Warnings "-clear-no-such-hyp".

Section MapsFacts.
Context `{Countable T}.

Lemma seenLoop_spec (eles : list T) (seen : gset T) (x : T) :
  x ∈ seenLoop eles seen <-> x ∈ eles \/ x ∈ seen.
Proof.
  revert seen. induction eles as [|e eles IH]; intros seen; simpl.
  - split; [auto|]. intros [Hx|Hx]; [inversion Hx | exact Hx].
  - rewrite IH, elem_of_union, elem_of_singleton, elem_of_cons. tauto.
Qed.

Lemma ConsistsOfLoop_spec (s : list T) (seen : gset T) :
  ConsistsOfLoop s seen = true <-> forall x, x ∈ s -> x ∈ seen.
Proof.
  induction s as [|e s IH]; simpl.
  - split; [|reflexivity]. intros _ x Hx. inversion Hx.
  - destruct (bool_decide_reflect (e ∈ seen)) as [Hin|Hout]; simpl.
    + rewrite IH. split.
      * intros Hall x Hx. apply elem_of_cons in Hx as [->|Hx]; auto.
      * intros Hall x Hx. apply Hall. right. exact Hx.
    + split; [discriminate|]. intros Hall. exfalso. apply Hout, Hall. left.
Qed.

Lemma ContainsAnyLoop_spec (s : list T) (seen : gset T) :
  ContainsAnyLoop s seen = true <-> exists x, x ∈ s /\ x ∈ seen.
Proof.
  induction s as [|e s IH]; simpl.
  - split; [discriminate|]. intros (x & Hx & _). inversion Hx.
  - destruct (bool_decide_reflect (e ∈ seen)) as [Hin|Hout].
    + split; [|reflexivity]. intros _. exists e. split; [left | exact Hin].
    + rewrite IH. split.
      * intros (x & Hx & Hs). exists x. split; [right; exact Hx | exact Hs].
      * intros (x & Hx & Hs). apply elem_of_cons in Hx as [->|Hx]; [contradiction|].
        exists x. auto.
Qed.

Lemma countsOf_empty : countsOf (∅ : gmap T Z) (∅ : gmultiset T).
Proof.
  intros x. rewrite lookup_empty, multiplicity_empty.
  rewrite decide_True by reflexivity. reflexivity.
Qed.

Lemma countsOf_default (cnts : gmap T Z) (X : gmultiset T) (x : T) :
  countsOf cnts X -> default 0 (cnts !! x) = Z.of_nat (multiplicity x X).
Proof.
  intros Hc. rewrite (Hc x). destruct (decide (multiplicity x X = 0%nat)) as [->|?];
    reflexivity.
Qed.

Lemma countsOf_incr (cnts : gmap T Z) (X : gmultiset T) (e : T) :
  countsOf cnts X -> countsOf (incr cnts e) ({[+ e +]} ⊎ X).
Proof.
  intros Hc x. unfold incr. rewrite multiplicity_disj_union.
  destruct (decide (x = e)) as [->|Hne].
  - rewrite lookup_insert_eq, multiplicity_singleton_eq.
    rewrite (countsOf_default _ _ _ Hc).
    rewrite decide_False by lia. f_equal. lia.
  - rewrite lookup_insert_ne by congruence.
    rewrite multiplicity_singleton_ne by exact Hne. apply Hc.
Qed.

Lemma countsOf_lookup (cnts : gmap T Z) (X : gmultiset T) (e : T) :
  countsOf cnts X -> (cnts !! e = None <-> e ∉ X).
Proof.
  intros Hc. rewrite (Hc e). unfold elem_of, gmultiset_elem_of.
  destruct (decide (multiplicity e X = 0%nat)) as [Hz|Hnz].
  - split; [lia | reflexivity].
  - split; [discriminate | lia].
Qed.

Lemma countsOf_decr (cnts : gmap T Z) (X : gmultiset T) (e : T) :
  countsOf cnts X -> e ∈ X -> countsOf (decr cnts e) (X ∖ {[+ e +]}).
Proof.
  intros Hc He x. unfold decr. cbv zeta.
  rewrite lookup_insert_eq. simpl.
  rewrite (countsOf_default _ _ _ Hc).
  assert (Hm : (1 <= multiplicity e X)%nat) by exact He.
  rewrite multiplicity_difference.
  destruct (decide (x = e)) as [->|Hne].
  - rewrite multiplicity_singleton_eq.
    destruct (Z.eqb_spec (Z.of_nat (multiplicity e X) - 1) 0) as [Hz|Hnz].
    + rewrite lookup_delete_eq. rewrite decide_True by lia. reflexivity.
    + rewrite lookup_insert_eq. rewrite decide_False by lia. f_equal. lia.
  - rewrite multiplicity_singleton_ne by exact Hne.
    rewrite Nat.sub_0_r.
    destruct (Z.eqb_spec (Z.of_nat (multiplicity e X) - 1) 0).
    + rewrite lookup_delete_ne by congruence.
      rewrite lookup_insert_ne by congruence. apply Hc.
    + rewrite lookup_insert_ne by congruence. apply Hc.
Qed.

Lemma countsOf_size (cnts : gmap T Z) (X : gmultiset T) :
  countsOf cnts X -> (Z.of_nat (size cnts) = 0 <-> X = ∅).
Proof.
  intros Hc. split.
  - intros Hs. assert (Hemp : cnts = ∅) by (apply map_size_empty_iff; lia).
    apply gmultiset_eq. intros x. rewrite multiplicity_empty.
    pose proof (Hc x) as Hx. rewrite Hemp, lookup_empty in Hx.
    destruct (decide (multiplicity x X = 0%nat)); [assumption | discriminate].
  - intros ->. assert (Hemp : cnts = ∅).
    { apply map_eq. intros x. rewrite (Hc x), lookup_empty, multiplicity_empty.
      rewrite decide_True by reflexivity. reflexivity. }
    rewrite Hemp, map_size_empty. reflexivity.
Qed.

Lemma countsLoop_spec (eles : list T) :
  forall (cnts : gmap T Z) (X : gmultiset T),
    countsOf cnts X ->
    countsOf (countsLoop eles cnts) (list_to_set_disj eles ⊎ X).
Proof.
  induction eles as [|e eles IH]; intros cnts X Hc; simpl.
  - rewrite (left_id ∅ (⊎)). exact Hc.
  - replace ({[+ e +]} ⊎ list_to_set_disj eles ⊎ X)
      with (list_to_set_disj eles ⊎ ({[+ e +]} ⊎ X)) by multiset_solver.
    apply IH, countsOf_incr, Hc.
Qed.

Lemma ComprisesLoop_spec (s : list T) :
  forall (cnts : gmap T Z) (X : gmultiset T),
    countsOf cnts X ->
    (ComprisesLoop s cnts = true <-> X = list_to_set_disj s).
Proof.
  induction s as [|e s IH]; intros cnts X Hc; simpl.
  - rewrite Z.eqb_eq. apply countsOf_size, Hc.
  - destruct (cnts !! e) as [v|] eqn:Hlook.
    + assert (He : e ∈ X).
      { destruct (decide (e ∈ X)) as [Hin|Hout]; [exact Hin|].
        apply (countsOf_lookup _ _ _ Hc) in Hout. congruence. }
      rewrite (IH _ _ (countsOf_decr _ _ _ Hc He)).
      split; intros Heq; multiset_solver.
    + apply (countsOf_lookup _ _ _ Hc) in Hlook.
      split; [discriminate|]. intros ->. exfalso. apply Hlook. multiset_solver.
Qed.

Lemma ContainsAllLoop_spec (s : list T) :
  forall (cnts : gmap T Z) (X : gmultiset T),
    countsOf cnts X -> X <> ∅ ->
    (ContainsAllLoop s cnts = true <-> X ⊆ list_to_set_disj s).
Proof.
  induction s as [|e s IH]; intros cnts X Hc Hne; simpl.
  - split; [discriminate|]. intros Hsub. exfalso. apply Hne. multiset_solver.
  - destruct (cnts !! e) as [v|] eqn:Hlook.
    + assert (He : e ∈ X).
      { destruct (decide (e ∈ X)) as [Hin|Hout]; [exact Hin|].
        apply (countsOf_lookup _ _ _ Hc) in Hout. congruence. }
      pose proof (countsOf_decr _ _ _ Hc He) as Hc'.
      destruct (Z.eqb_spec (Z.of_nat (size (decr cnts e))) 0) as [Hz|Hnz].
      * apply (countsOf_size _ _ Hc') in Hz.
        split; [|reflexivity]. intros _. multiset_solver.
      * assert (Hne' : X ∖ {[+ e +]} <> ∅).
        { intros Hemp. apply Hnz, (countsOf_size _ _ Hc'), Hemp. }
        rewrite (IH _ _ Hc' Hne'). split; intros Hsub; multiset_solver.
    + pose proof (proj1 (countsOf_lookup _ _ _ Hc) Hlook) as Hout.
      destruct (Z.eqb_spec (Z.of_nat (size cnts)) 0) as [Hz|Hnz].
      * apply (countsOf_size _ _ Hc) in Hz. contradiction.
      * rewrite (IH _ _ Hc Hne). split; intros Hsub; multiset_solver.
Qed.

Lemma elements_list_to_set_disj (l : list T) :
  elements (list_to_set_disj l : gmultiset T) ≡ₚ l.
Proof.
  induction l as [|x l IH]; simpl.
  - rewrite gmultiset_elements_empty. reflexivity.
  - rewrite gmultiset_elements_disj_union, gmultiset_elements_singleton.
    simpl. rewrite IH. reflexivity.
Qed.

Lemma list_to_set_disj_eq_perm (l1 l2 : list T) :
  (list_to_set_disj l1 : gmultiset T) = list_to_set_disj l2 <-> l1 ≡ₚ l2.
Proof.
  split.
  - intros Heq. rewrite <- (elements_list_to_set_disj l1), Heq.
    apply elements_list_to_set_disj.
  - intros Hp. rewrite Hp. reflexivity.
Qed.

Lemma list_to_set_disj_subseteq (l1 l2 : list T) :
  (list_to_set_disj l1 : gmultiset T) ⊆ list_to_set_disj l2 <-> l1 ⊆+ l2.
Proof.
  split.
  - intros Hsub. apply gmultiset_elements_submseteq in Hsub.
    rewrite !elements_list_to_set_disj in Hsub. exact Hsub.
  - intros Hsub. apply submseteq_Permutation in Hsub as [k Hk].
    rewrite Hk, list_to_set_disj_app. multiset_solver.
Qed.

Lemma DistinctLoop_spec (s : list T) :
  forall (result : list T) (seen : gset T),
    (forall x, x ∈ seen <-> x ∈ result) -> NoDup result ->
    exists new,
      DistinctLoop s result seen = result ++ new /\
      NoDup (result ++ new) /\
      new `sublist_of` s /\
      forall x, x ∈ result ++ new <-> x ∈ result \/ x ∈ s.
Proof.
  induction s as [|e s IH]; intros result seen Hseen Hnd; simpl.
  - exists []. rewrite app_nil_r. split; [reflexivity|]. split; [exact Hnd|].
    split; [reflexivity|]. intros x. split; [auto|].
    intros [Hx|Hx]; [exact Hx | inversion Hx].
  - destruct (bool_decide_reflect (e ∈ seen)) as [Hin|Hout]; simpl.
    + destruct (IH result seen Hseen Hnd) as (new & Heq & Hnd' & Hsub & Hall).
      exists new. split; [exact Heq|]. split; [exact Hnd'|].
      split; [apply sublist_cons, Hsub|].
      intros x. rewrite Hall, elem_of_cons. split; [tauto|].
      intros [Hx|[->|Hx]]; [auto | left; apply Hseen, Hin | auto].
    + destruct (IH (result ++ [e]) ({[e]} ∪ seen)) as (new & Heq & Hnd' & Hsub & Hall).
      * intros x. rewrite elem_of_union, elem_of_singleton, elem_of_app,
          list_elem_of_singleton, Hseen. tauto.
      * apply NoDup_app. split; [exact Hnd|]. split.
        -- intros x Hx Hx'. apply list_elem_of_singleton in Hx'. subst.
           apply Hout, Hseen, Hx.
        -- apply NoDup_singleton.
      * rewrite <- app_assoc in Heq, Hnd', Hall. simpl in *.
        exists (e :: new). split; [exact Heq|]. split; [exact Hnd'|].
        split; [apply sublist_skip, Hsub|].
        intros x. rewrite Hall, elem_of_app, list_elem_of_singleton, elem_of_cons. tauto.
Qed.

Lemma DistinctLoop_NoDup (s : list T) :
  forall (result : list T) (seen : gset T),
    NoDup s -> (forall x, x ∈ s -> x ∉ seen) ->
    DistinctLoop s result seen = result ++ s.
Proof.
  induction s as [|e s IH]; intros result seen Hnd Hfresh; simpl.
  - rewrite app_nil_r. reflexivity.
  - apply NoDup_cons in Hnd as [Hne Hnd].
    destruct (bool_decide_reflect (e ∈ seen)) as [Hin|Hout]; simpl.
    + exfalso. apply (Hfresh e); [left | exact Hin].
    + rewrite IH; [rewrite <- app_assoc; reflexivity | exact Hnd |].
      intros x Hx. rewrite elem_of_union, elem_of_singleton.
      intros [->|Hs]; [contradiction|]. apply (Hfresh x); [right; exact Hx | exact Hs].
Qed.


End MapsFacts.

(** ** Transposition *)

Section TranspositionFacts.
Context {T : Type}.
Variable zero : T.

Lemma raggedLoop_spec (s : list (list T)) (n : Z) :
  forall (k : nat) (i : Z),
    0 <= i <= len s ->
    (forall a row, 0 <= a < i -> index s a = Ret row -> len row = n) ->
    post (raggedLoop k s n i) (len s - i < Z.of_nat k)
      (fun bad =>
         if bad then exists a row, index s a = Ret row /\ len row <> n
         else forall a row, index s a = Ret row -> len row = n).
Proof.
  induction k as [|k IH]; intros i Hi Hdone.
  - simpl. lia.
  - cbn [raggedLoop]. destruct (Z.ltb_spec i (len s)) as [Hlt|Hge].
    + read s i row Hrow. destruct (Z.eqb_spec (len row) n) as [Heq|Hne]; simpl.
      * eapply post_weaken; [apply (IH (i + 1)); [lia|] | lia | auto].
        intros a r Ha Hr. destruct (Z.eq_dec a i) as [->|Hai].
        -- rewrite Hrow in Hr. injection Hr as <-. exact Heq.
        -- apply (Hdone a); [lia | exact Hr].
      * exists i, row. auto.
    + simpl. intros a row Ha. apply (Hdone a); [|exact Ha].
      apply index_Ret_inb in Ha. lia.
Qed.

Lemma TransposeInner_spec (s : list (list T)) (m n i : Z) :
  m = len s -> 0 <= i < n ->
  (forall a row, index s a = Ret row -> len row = n) ->
  forall (k : nat) (result : list (list T)) (dst : list T) (j : Z),
    0 <= j <= m -> len result = n ->
    index result i = Ret dst -> len dst = m ->
    (forall b, 0 <= b < j -> index dst b = cell s b i) ->
    post (TransposeInner k s result m i j) (m - j < Z.of_nat k)
      (fun result' =>
         len result' = n /\
         (forall a, a <> i -> index result' a = index result a) /\
         exists dst', index result' i = Ret dst' /\ len dst' = m /\
           forall b, 0 <= b < m -> index dst' b = cell s b i).
Proof.
  intros Hm Hi Hrect. induction k as [|k IH];
    intros result dst j Hj Hlen Hdst Hdl Hdone.
  - simpl. lia.
  - cbn [TransposeInner]. destruct (Z.ltb_spec j m) as [Hlt|Hge].
    + read s j row Hrow. pose proof (Hrect _ _ Hrow) as Hrl.
      read row i v Hv. rewrite Hdst, bind_Ret.
      rewrite store_inb by lia. rewrite bind_Ret.
      rewrite store_inb by lia. rewrite bind_Ret.
      eapply post_weaken;
        [apply (IH _ (<[Z.to_nat j := v]> dst) (j + 1)); [lia | | | |] | lia |].
      * rewrite len_insert. exact Hlen.
      * apply index_insert_eq. lia.
      * rewrite len_insert. exact Hdl.
      * intros b Hb. destruct (Z.eq_dec b j) as [->|Hbj].
        -- rewrite index_insert_eq by lia. unfold cell.
           rewrite Hrow, bind_Ret, Hv. reflexivity.
        -- rewrite index_insert_ne by lia. apply Hdone. lia.
      * intros result' (Hl' & Hother & Hrow').
        split; [exact Hl'|]. split; [|exact Hrow'].
        intros a Ha. rewrite (Hother a Ha). apply index_insert_ne; [lia | congruence].
    + simpl. split; [exact Hlen|]. split; [auto|].
      exists dst. split; [exact Hdst|]. split; [exact Hdl|].
      intros b Hb. apply Hdone. lia.
Qed.

Lemma TransposeOuter_spec (fuel : nat) (s : list (list T)) (m n : Z) :
  m = len s -> 0 <= n ->
  (forall a row, index s a = Ret row -> len row = n) ->
  forall (k : nat) (result : list (list T)) (i : Z),
    0 <= i <= n -> len result = n ->
    (forall a, 0 <= a < i ->
       exists row, index result a = Ret row /\ len row = m /\
         forall b, 0 <= b < m -> index row b = cell s b a) ->
    post (TransposeOuter zero fuel k s result m n i)
      (n - i < Z.of_nat k /\ m < Z.of_nat fuel)
      (fun t =>
         len t = n /\
         forall a, 0 <= a < n ->
           exists row, index t a = Ret row /\ len row = m /\
             forall b, 0 <= b < m -> index row b = cell s b a).
Proof.
  intros Hm Hn Hrect. pose proof (len_nonneg s) as Hs.
  induction k as [|k IH]; intros result i Hi Hlen Hdone.
  - simpl. lia.
  - cbn [TransposeOuter]. destruct (Z.ltb_spec i n) as [Hlt|Hge].
    + rewrite makeOf_Ret by lia. rewrite bind_Ret.
      rewrite store_inb by lia. rewrite bind_Ret.
      eapply post_bind.
      { eapply post_weaken;
          [apply (TransposeInner_spec s m n i Hm ltac:(lia) Hrect fuel
                    _ (replicate (Z.to_nat m) zero) 0); [lia | | | |]
          | lia | intros r Hr; exact Hr].
        - rewrite len_insert. exact Hlen.
        - apply index_insert_eq. lia.
        - unfold len. rewrite length_replicate. lia.
        - intros b Hb. lia. }
      intros result' (Hl' & Hother & Hrow').
      eapply post_weaken; [apply (IH result' (i + 1)); [lia | exact Hl' |] | lia | auto].
      intros a Ha. destruct (Z.eq_dec a i) as [->|Hai]; [exact Hrow'|].
      rewrite (Hother a Hai). rewrite index_insert_ne by lia.
      apply Hdone. lia.
    + simpl. split; [exact Hlen|]. intros a Ha. apply Hdone. lia.
Qed.

(** What [Transpose] returns, with fuel above the number of rows and the
    number of columns. *)
Lemma Transpose_spec (fuel : nat) (s : list (list T)) :
  post (Transpose zero fuel s)
    (len s < Z.of_nat fuel /\
     forall row, index s 0 = Ret row -> len row < Z.of_nat fuel)
    (fun r =>
       match s with
       | [] => r = ([], None)
       | row0 :: _ =>
           (snd r = Some "all slices in s must have the same length"%string /\
            fst r = [] /\
            exists a row, index s a = Ret row /\ len row <> len row0) \/
           (snd r = None /\
            (forall a row, index s a = Ret row -> len row = len row0) /\
            len (fst r) = len row0 /\
            forall a, 0 <= a < len row0 ->
              exists row, index (fst r) a = Ret row /\ len row = len s /\
                forall b, 0 <= b < len s -> index row b = cell s b a)
       end).
Proof.
  unfold Transpose. cbv zeta. destruct s as [|row0 s]; [reflexivity|].
  pose proof (len_nonneg s). pose proof (len_nonneg row0).
  destruct (Z.eqb_spec (len (row0 :: s)) 0) as [Hz|_];
    [rewrite len_cons in Hz; lia|].
  rewrite index_head, bind_Ret. eapply post_bind.
  { eapply post_weaken;
      [apply (raggedLoop_spec (row0 :: s) (len row0) fuel 1);
         [rewrite len_cons; lia|]
      | intros [Hf _]; lia | intros bad Hbad; exact Hbad].
    intros a row Ha Hrow. assert (a = 0) as -> by lia.
    rewrite index_head in Hrow. injection Hrow as <-. reflexivity. }
  intros [|] Hbad.
  - simpl. left. auto.
  - rewrite makeOf_Ret by lia. rewrite bind_Ret. eapply post_bind.
    { eapply post_weaken;
        [apply (TransposeOuter_spec fuel (row0 :: s) (len (row0 :: s)) (len row0)
                  eq_refl ltac:(lia) Hbad fuel _ 0); [lia | |]
        | | intros t Ht; exact Ht].
      - unfold len. rewrite length_replicate. lia.
      - intros a Ha. lia.
      - intros [Hf Hcols]. specialize (Hcols row0 eq_refl). lia. }
    intros t [Hl Hall]. simpl. right. auto.
Qed.

End TranspositionFacts.

(** ** Properties of the sibling predicates *)

Section SiblingProperties.
Context {T : Type}.
Variable eqb : T -> T -> bool.

(** X1: [StartsWithSequence] never panics; it is true exactly when [seq]
    is no longer than [s] and [s[t] == seq[t]] at every index [t] of
    [seq]. *)
Theorem StartsWithSequence_prefix (s seq : list T) :
  exists b, StartsWithSequence eqb s seq = Ret b /\
    (b = true <->
     len seq <= len s /\ forall t, 0 <= t < len seq -> E eqb s t seq t).
Proof. apply StartsWithSequence_spec. Qed.

(** X2: [EndsWithSequence] never panics, returns once the fuel exceeds the
    length of [seq], and is true exactly when [seq] is no longer than [s]
    and the last [len(seq)] elements of [s] match it position by
    position. *)
Theorem EndsWithSequence_suffix (fuel : nat) (s seq : list T) :
  EndsWithSequence eqb fuel s seq <> OutOfBounds /\
  ((length seq < fuel)%nat ->
   exists b, EndsWithSequence eqb fuel s seq = Ret b /\
     (b = true <->
      len seq <= len s /\
      forall t, 0 <= t < len seq -> E eqb s (len s - len seq + t) seq t)).
Proof.
  split.
  - eapply post_not_OutOfBounds. apply EndsWithSequence_spec.
  - intros Hfuel.
    apply (post_Ret_inv _ _ _ (EndsWithSequence_spec eqb fuel s seq)).
    unfold len. lia.
Qed.

(** X3: with [==] symmetric and transitive and fuel above the length of
    the haystack, [ContainsSequence] returns, for a pattern of any length
    and any options, whether the pattern occurs at some offset of the
    haystack. *)
Theorem ContainsSequence_finds_occurrence (fuel : nat) (s seq : list T)
  (opts : list ContainsSequenceOpt) :
  PER eqb -> (length s < fuel)%nat ->
  exists b, ContainsSequence eqb fuel s seq opts = Ret b /\
    (b = true <->
     exists idx, 0 <= idx <= len s - len seq /\
       forall t, 0 <= t < len seq -> E eqb seq t s (idx + t)).
Proof. apply ContainsSequence_occurs. Qed.

(** X4: a slice contains every sequence it starts with and every sequence
    it ends with. *)
Theorem prefix_and_suffix_are_contained (fuel fuel' : nat) (s seq : list T)
  (opts : list ContainsSequenceOpt) :
  PER eqb -> (length s < fuel)%nat ->
  (StartsWithSequence eqb s seq = Ret true ->
   ContainsSequence eqb fuel s seq opts = Ret true) /\
  (EndsWithSequence eqb fuel' s seq = Ret true ->
   ContainsSequence eqb fuel s seq opts = Ret true).
Proof.
  intros Hper Hfuel. split.
  - intros Hstart.
    destruct (StartsWithSequence_spec eqb s seq) as (b & Hb & Hiff).
    rewrite Hb in Hstart. injection Hstart as ->.
    destruct (proj1 Hiff eq_refl) as [Hlen Hall].
    apply ContainsSequence_true_iff; [exact Hper | exact Hfuel|].
    exists 0. split; [pose proof (len_nonneg seq); lia|].
    intros t Ht. apply E_sym; [exact Hper|]. apply Hall, Ht.
  - intros Hend.
    pose proof (EndsWithSequence_spec eqb fuel' s seq) as Hpost.
    rewrite Hend in Hpost. simpl in Hpost.
    destruct (proj1 Hpost eq_refl) as [Hlen Hall].
    apply ContainsSequence_true_iff; [exact Hper | exact Hfuel|].
    exists (len s - len seq). split; [lia|].
    intros t Ht. apply E_sym; [exact Hper|]. apply Hall, Ht.
Qed.

(** X5: containment is transitive: a slice that contains [seq] contains
    every sequence that [seq] contains. *)
Theorem ContainsSequence_transitive (fuel fuel' : nat) (s seq sub : list T)
  (opts opts' opts'' : list ContainsSequenceOpt) :
  PER eqb -> (length s < fuel)%nat -> (length seq < fuel')%nat ->
  ContainsSequence eqb fuel s seq opts = Ret true ->
  ContainsSequence eqb fuel' seq sub opts' = Ret true ->
  ContainsSequence eqb fuel s sub opts'' = Ret true.
Proof.
  intros Hper Hfuel Hfuel' Hs Hseq.
  apply ContainsSequence_true_iff in Hs as (a & Ha); [|exact Hper | exact Hfuel].
  apply ContainsSequence_true_iff in Hseq as (b & Hb); [|exact Hper | exact Hfuel'].
  apply ContainsSequence_true_iff; [exact Hper | exact Hfuel|].
  exists (a + b). eapply occurs_trans; eauto.
Qed.

(** X6: what a slice contains, the slice with elements appended or
    prepended contains too. *)
Theorem ContainsSequence_Append_Prepend (fuel fuel' : nat)
  (s eles seq : list T) (opts opts' : list ContainsSequenceOpt) :
  PER eqb -> (length s < fuel)%nat -> (length s + length eles < fuel')%nat ->
  ContainsSequence eqb fuel s seq opts = Ret true ->
  ContainsSequence eqb fuel' (Append s eles) seq opts' = Ret true /\
  ContainsSequence eqb fuel' (Prepend s eles) seq opts' = Ret true.
Proof.
  intros Hper Hfuel Hfuel' Hs.
  apply ContainsSequence_true_iff in Hs as (a & Ha); [|exact Hper | exact Hfuel].
  unfold Append, Prepend. cbv zeta. simpl. split.
  - apply ContainsSequence_true_iff;
      [exact Hper | rewrite length_app; lia |].
    exists (len (@nil T) + a). apply (occurs_app eqb [] s eles seq a Ha).
  - apply ContainsSequence_true_iff;
      [exact Hper | rewrite length_app; lia |].
    exists (len eles + a).
    pose proof (occurs_app eqb eles s [] seq a Ha) as Hocc.
    rewrite app_nil_r in Hocc. exact Hocc.
Qed.

(** X7: [Equal] never panics; it is true exactly when the slices have the
    same length and [s1[t] == s2[t]] at every index, that is when they
    have the same length and [s1] starts with [s2]. *)
Theorem Equal_pointwise (s1 s2 : list T) :
  exists b, Equal eqb s1 s2 = Ret b /\
    (b = true <->
     len s1 = len s2 /\ forall t, 0 <= t < len s1 -> E eqb s1 t s2 t) /\
    (b = true <->
     len s1 = len s2 /\ StartsWithSequence eqb s1 s2 = Ret true).
Proof.
  destruct (Equal_spec eqb s1 s2) as (b & Hb & Hiff).
  exists b. split; [exact Hb|]. split; [exact Hiff|].
  destruct (StartsWithSequence_spec eqb s1 s2) as (c & Hc & Hciff).
  rewrite Hiff, Hc. split.
  - intros [Hlen Hall]. split; [exact Hlen|]. f_equal. apply Hciff.
    split; [lia|]. intros t Ht. apply Hall. lia.
  - intros [Hlen [= ->]]. split; [exact Hlen|].
    destruct (proj1 Hciff eq_refl) as [_ Hall].
    intros t Ht. apply Hall. lia.
Qed.

(** X8: [FirstIndexOf] returns [-1] exactly when [Contains] is false;
    otherwise it returns an index of [s] whose element equals [ele] and
    before which no element does. *)
Theorem FirstIndexOf_first (s : list T) (ele : T) :
  (FirstIndexOf eqb s ele = -1 /\ Contains eqb s ele = false) \/
  (0 <= FirstIndexOf eqb s ele < len s /\
   Contains eqb s ele = true /\
   (exists a, index s (FirstIndexOf eqb s ele) = Ret a /\ eqb a ele = true) /\
   forall j a, 0 <= j < FirstIndexOf eqb s ele ->
     index s j = Ret a -> eqb a ele = false).
Proof.
  unfold FirstIndexOf. rewrite FirstIndexOfLoop_where, Contains_Any.
  pose proof (FirstIndexWhereLoop_spec (fun e => eqb e ele) s []) as Hspec.
  cbv zeta in Hspec. change (len (@nil T)) with 0 in Hspec. simpl in Hspec.
  destruct Hspec as [[Hr Hnone]|(Hr & (a & Ha & Hae) & Hbefore)].
  - intros x Hx. inversion Hx.
  - left. split; [exact Hr|].
    destruct (Any s (fun e => eqb e ele)) eqn:Hany; [|reflexivity].
    apply Any_exists in Hany as (x & Hx & Hxe).
    rewrite (Hnone x Hx) in Hxe. discriminate.
  - right. split; [lia|]. split.
    + apply Any_exists. exists a. split; [eapply index_Ret_elem_of; exact Ha | exact Hae].
    + split; [eauto | exact Hbefore].
Qed.

(** X9: [LastIndexOf] never panics and returns once the fuel exceeds the
    length of [s]: [-1] when no element of [s] equals [ele], otherwise an
    index whose element equals [ele] and after which no element does. *)
Theorem LastIndexOf_last (fuel : nat) (s : list T) (ele : T) :
  LastIndexOf eqb fuel s ele <> OutOfBounds /\
  ((length s < fuel)%nat ->
   exists r, LastIndexOf eqb fuel s ele = Ret r /\
     ((r = -1 /\ forall j a, index s j = Ret a -> eqb ele a = false) \/
      (0 <= r < len s /\
       (exists a, index s r = Ret a /\ eqb ele a = true) /\
       forall j a, r < j -> index s j = Ret a -> eqb ele a = false))).
Proof.
  assert (Hpost := LastIndexOfLoop_spec eqb s ele fuel (len s - 1)).
  pose proof (len_nonneg s) as Hs.
  specialize (Hpost ltac:(lia)).
  assert (Hafter : forall j a, len s - 1 < j -> index s j = Ret a ->
                     eqb ele a = false).
  { intros j a Hj Ha. apply index_Ret_inb in Ha. lia. }
  specialize (Hpost Hafter). split.
  - eapply post_not_OutOfBounds. exact Hpost.
  - intros Hfuel. apply (post_Ret_inv _ _ _ Hpost). unfold len. lia.
Qed.

(** X10: with [==] symmetric, [FirstIndexOf] and [LastIndexOf] find an
    element together, and the first index is not after the last one. *)
Theorem FirstIndexOf_le_LastIndexOf (fuel : nat) (s : list T) (ele : T) :
  (forall a b, eqb a b = true -> eqb b a = true) ->
  (length s < fuel)%nat ->
  exists r, LastIndexOf eqb fuel s ele = Ret r /\
    FirstIndexOf eqb s ele <= r /\
    (FirstIndexOf eqb s ele = -1 <-> r = -1).
Proof.
  intros Hsym Hfuel.
  assert (Hpost := LastIndexOfLoop_spec eqb s ele fuel (len s - 1)).
  pose proof (len_nonneg s) as Hs.
  specialize (Hpost ltac:(lia)).
  assert (Hafter : forall j a, len s - 1 < j -> index s j = Ret a ->
                     eqb ele a = false).
  { intros j a Hj Ha. apply index_Ret_inb in Ha. lia. }
  specialize (Hpost Hafter).
  destruct (post_Ret_inv _ _ _ Hpost) as (r & Hr & Hlast); [unfold len; lia|].
  exists r. split; [exact Hr|].
  unfold FirstIndexOf. rewrite FirstIndexOfLoop_where.
  pose proof (FirstIndexWhereLoop_spec (fun e => eqb e ele) s []) as Hfirst.
  cbv zeta in Hfirst. change (len (@nil T)) with 0 in Hfirst. simpl in Hfirst.
  specialize (Hfirst ltac:(intros x Hx; inversion Hx)).
  destruct Hfirst as [[Hf Hnone]|(Hf & (a & Ha & Hae) & Hbefore)];
    destruct Hlast as [[Hl Hnone']|(Hl & (b & Hb & Hbe) & Hafter')].
  - lia.
  - exfalso. apply Hsym in Hbe.
    rewrite (Hnone b) in Hbe; [discriminate|].
    eapply index_Ret_elem_of. exact Hb.
  - exfalso. apply Hsym in Hae. rewrite (Hnone' _ _ Ha) in Hae. discriminate.
  - split; [|lia].
    destruct (Z_le_gt_dec (FirstIndexWhereLoop s (fun e => eqb e ele) 0) r)
      as [Hle|Hgt]; [exact Hle|].
    exfalso. apply Hsym in Hae.
    specialize (Hafter' _ _ (Z.gt_lt _ _ Hgt) Ha). congruence.
Qed.

(** X11: for [1 <= n < 2^63], [NthIndexOf] returns [-1] when fewer than
    [n] elements of [s] equal [ele]; otherwise it returns an index whose
    element equals [ele] and before which exactly [n - 1] elements do.
    With [n = 1] it is [FirstIndexOf]. *)
Theorem NthIndexOf_nth (s : list T) (n : Z) (ele : T) :
  (1 <= n < 2 ^ 63 ->
   (NthIndexOf eqb s n ele = -1 /\ Count s (fun e => eqb e ele) < n) \/
   (0 <= NthIndexOf eqb s n ele < len s /\
    (exists a, index s (NthIndexOf eqb s n ele) = Ret a /\ eqb a ele = true) /\
    Count (take (Z.to_nat (NthIndexOf eqb s n ele)) s) (fun e => eqb e ele)
      = n - 1)) /\
  NthIndexOf eqb s 1 ele = FirstIndexOf eqb s ele.
Proof.
  split; [|apply NthIndexOfLoop_first].
  intros Hn. unfold NthIndexOf.
  pose proof (NthIndexOfLoop_spec eqb ele s n 0 Hn ltac:(lia)) as Hspec.
  cbv zeta in Hspec.
  replace (NthIndexOfLoop eqb s n ele 0 - 0) with (NthIndexOfLoop eqb s n ele 0)
    in Hspec by lia.
  destruct Hspec as [Hnone|(Hr & Hhit & Hcnt)]; [left; exact Hnone|].
  right. split; [lia|]. auto.
Qed.

(** X12: for [n <= 0], [NthIndexOf] returns [-1]: counted down from such
    an [n], the counter cannot reach [0] within a slice. *)
Theorem NthIndexOf_nonpositive (s : list T) (n : Z) (ele : T) :
  - 2 ^ 63 <= n <= 0 -> len s < 2 ^ 63 ->
  NthIndexOf eqb s n ele = -1.
Proof.
  intros Hn Hs. apply NthIndexOfLoop_out_of_reach.
  pose proof (Count_nonneg (fun e => eqb e ele) s).
  assert ((n - 1) mod 2 ^ 64 = n - 1 + 2 ^ 64).
  { symmetry. apply (Z.mod_unique _ _ (-1)); lia. }
  lia.
Qed.

End SiblingProperties.

(** ** Properties of the copying functions *)

Section CopyProperties.
Context {T : Type}.
Variable zero : T.

(** X13: for every [num], negative or beyond the length included, [Take],
    [Drop] and [SplitAt] return without panic; the two parts that
    [SplitAt] returns are what [Take] and [Drop] return, they add up to
    [s], and the first has [min(max(num, 0), len(s))] elements. *)
Theorem Take_Drop_SplitAt_concat (s : list T) (num : Z) :
  exists a b,
    Take zero s num = Ret a /\
    Drop zero s num = Ret b /\
    SplitAt zero s num = Ret (a, b) /\
    a ++ b = s /\
    len a = Z.max 0 (Z.min num (len s)).
Proof.
  exists (take (Z.to_nat num) s), (drop (Z.to_nat num) s).
  split; [apply Take_eq|]. split; [apply Drop_eq|].
  split; [apply SplitAt_eq|]. split; [apply take_drop|].
  unfold len. rewrite length_take. lia.
Qed.

(** X14: [TakeWhile] and [DropWhile] return without panic and split [s] at
    the same place: every element of the first part satisfies [fn], and
    the second part is empty or starts with an element that does not. *)
Theorem TakeWhile_DropWhile_concat (s : list T) (fn : T -> bool) :
  exists pre suf,
    TakeWhile zero s fn = Ret pre /\
    DropWhile zero s fn = Ret suf /\
    pre ++ suf = s /\
    All pre fn = true /\
    match suf with [] => True | x :: _ => fn x = false end.
Proof.
  destruct (whileLimit_spec fn s [] eq_refl) as (pre & suf & Heq & Hlim & Hall & Hsuf).
  simpl in Heq. change (len (@nil T)) with 0 in Hlim. subst s.
  exists pre, suf. pose proof (len_nonneg pre). pose proof (len_nonneg suf).
  assert (Htake : take (Z.to_nat (len pre)) (pre ++ suf) = pre).
  { unfold len. rewrite Nat2Z.id. apply take_app_length. }
  assert (Hdrop : drop (Z.to_nat (len pre)) (pre ++ suf) = suf).
  { unfold len. rewrite Nat2Z.id. apply drop_app_length. }
  split; [|split; [|auto]].
  - unfold TakeWhile. cbv zeta. rewrite Hlim.
    rewrite makeOf_Ret by lia. rewrite bind_Ret.
    rewrite sliceTo_Ret by (rewrite len_app; lia). rewrite bind_Ret, Htake.
    rewrite copySlice_same_length; [reflexivity|].
    rewrite length_replicate. unfold len. lia.
  - unfold DropWhile. cbv zeta. rewrite Hlim.
    rewrite makeOf_Ret by (rewrite len_app; lia). rewrite bind_Ret.
    rewrite sliceFrom_Ret by (rewrite len_app; lia). rewrite bind_Ret, Hdrop.
    rewrite copySlice_same_length; [reflexivity|].
    rewrite length_replicate, len_app. unfold len. lia.
Qed.

Lemma Reversed_eq (s : list T) : Reversed zero s = Ret (reverse s).
Proof.
  unfold Reversed. pose proof (len_nonneg s).
  rewrite makeOf_Ret by lia. rewrite bind_Ret.
  pose proof (ReversedLoop_spec zero (len s) s []) as Hloop.
  change (len (@nil T)) with 0 in Hloop. simpl in Hloop.
  rewrite app_nil_r, Z.sub_0_r in Hloop. apply Hloop. lia.
Qed.

(** X15: [Reversed] returns without panic the elements of [s] in the
    opposite order, and reversing twice gives [s] back. *)
Theorem Reversed_involutive (s : list T) :
  exists r, Reversed zero s = Ret r /\ r = reverse s /\
    Reversed zero r = Ret s.
Proof.
  exists (reverse s). split; [apply Reversed_eq|]. split; [reflexivity|].
  rewrite Reversed_eq, reverse_involutive. reflexivity.
Qed.

(** X16: on a slice of at most [2^62] elements [Rotate] returns without
    panic a slice of the same length in which the element at index [i] is
    the one [s] has [k] positions before, wrapping around:
    [r[i] = s[(i - k) mod len(s)]], for [k] of either sign. *)
Theorem Rotate_positions (s : list T) (k : Z) :
  len s <= 2 ^ 62 ->
  exists r, Rotate zero s k = Ret r /\ len r = len s /\
    forall i, 0 <= i < len s -> index r i = index s ((i - k) mod len s).
Proof. apply Rotate_spec. Qed.

(** X17: rotations compose: rotating by [a] and then by [b] is rotating by
    any [c] that agrees with [a + b] modulo the length; in particular
    rotating by a multiple of the length changes nothing. *)
Theorem Rotate_compose (s : list T) (a b c : Z) :
  len s <= 2 ^ 62 ->
  (a + b) mod len s = c mod len s ->
  (exists r, Rotate zero s a = Ret r /\ Rotate zero r b = Rotate zero s c) /\
  (c mod len s = 0 -> Rotate zero s c = Ret s).
Proof.
  intros Hbound Hmod.
  destruct (Rotate_spec zero s a Hbound) as (r1 & Hr1 & Hl1 & Hall1).
  destruct (Rotate_spec zero r1 b ltac:(lia)) as (r2 & Hr2 & Hl2 & Hall2).
  destruct (Rotate_spec zero s c Hbound) as (r3 & Hr3 & Hl3 & Hall3).
  split.
  - exists r1. split; [exact Hr1|]. rewrite Hr2, Hr3. f_equal.
    apply list_ext_index; [lia|]. intros i Hi.
    rewrite Hall2 by lia. rewrite Hl1.
    assert (Hn : 0 < len s) by lia.
    pose proof (Z.mod_pos_bound (i - b) (len s) Hn).
    rewrite Hall1 by lia. rewrite Hall3 by lia. f_equal.
    rewrite Zminus_mod_idemp_l.
    replace (i - b - a) with (i - (a + b)) by lia.
    rewrite (Zminus_mod i (a + b)), Hmod, <- Zminus_mod. reflexivity.
  - intros Hzero. rewrite Hr3. f_equal.
    apply list_ext_index; [lia|]. intros i Hi. rewrite Hl3 in Hi.
    rewrite Hall3 by lia. f_equal.
    rewrite Zminus_mod, Hzero, Z.sub_0_r, Z.mod_mod by lia.
    apply Z.mod_small. lia.
Qed.

(** X18: [Updated] returns the error "index out of bounds" and a nil slice
    exactly when [idx] is not an index of [s]; otherwise it returns no
    error and a slice of the same length that has [ele] at [idx] and the
    elements of [s] everywhere else. *)
Theorem Updated_replaces (s : list T) (idx : Z) (ele : T) :
  (idx < 0 \/ len s <= idx ->
   Updated zero s idx ele = Ret ([], Some "index out of bounds"%string)) /\
  (0 <= idx < len s ->
   exists ss, Updated zero s idx ele = Ret (ss, None) /\
     len ss = len s /\ index ss idx = Ret ele /\
     forall j, j <> idx -> index ss j = index s j).
Proof.
  rewrite Updated_eq. split.
  - intros Hout. destruct (Z.ltb_spec idx 0); [reflexivity|].
    destruct (Z.geb_spec idx (len s)); [reflexivity | lia].
  - intros Hin. destruct (Z.ltb_spec idx 0); [lia|].
    destruct (Z.geb_spec idx (len s)); [lia|]. simpl.
    exists (<[Z.to_nat idx := ele]> s). split; [reflexivity|].
    split; [apply len_insert|]. split; [apply index_insert_eq; lia|].
    intros j Hj. apply index_insert_ne; [lia | congruence].
Qed.


End CopyProperties.

(** ** Properties of the counting functions *)

Section CountProperties.
Context {T : Type}.

(** X20: the early exits of [AtLeast], [AtMost] and [Exactly] do not
    change their answers: for every [n], negative included, they compare
    [Count(s, fn)] with [n]. *)
Theorem AtLeast_AtMost_Exactly_Count (s : list T) (n : Z) (fn : T -> bool) :
  AtLeast s n fn = (Count s fn >=? n) /\
  AtMost s n fn = (Count s fn <=? n) /\
  Exactly s n fn = (Count s fn =? n) /\
  0 <= Count s fn <= len s.
Proof.
  unfold AtLeast, AtMost, Exactly.
  rewrite AtLeastLoop_Count, AtMostLoop_Count, ExactlyLoop_Count.
  repeat split; try reflexivity; apply Count_nonneg.
Qed.

(** X21: [Partition] returns what [Filter] returns for [fn] and for its
    negation; the two parts have together as many elements as [s], and
    the first has [Count(s, fn)] of them. *)
Theorem Partition_Filter_Count (s : list T) (fn : T -> bool) :
  Partition s fn = (Filter s fn, Filter s (fun x => negb (fn x))) /\
  len (Filter s fn) + len (Filter s (fun x => negb (fn x))) = len s /\
  Count s fn = len (Filter s fn) /\
  All (Filter s fn) fn = true.
Proof.
  unfold Partition, Filter, Count.
  rewrite PartitionLoop_filter, !FilterLoop_filter, CountLoop_filter. simpl.
  split; [reflexivity|]. split; [|split; [lia|]].
  - unfold len. induction s as [|e s IH]; [reflexivity|].
    simpl. destruct (fn e); simpl; lia.
  - apply All_forall. intros x Hx.
    apply list_elem_of_In, List.filter_In in Hx. apply Hx.
Qed.

(** X22: [Any] is the negation of [All] for the negated predicate; it is
    true exactly when [FirstIndexWhere] finds an index, and exactly when
    at least one element satisfies the predicate. *)
Theorem Any_All_FirstIndexWhere (s : list T) (fn : T -> bool) :
  Any s fn = negb (All s (fun x => negb (fn x))) /\
  (Any s fn = false <-> FirstIndexWhere s fn = -1) /\
  Any s fn = AtLeast s 1 fn.
Proof.
  split; [|split].
  - induction s as [|e s IH]; [reflexivity|].
    simpl. destruct (fn e); [reflexivity | exact IH].
  - unfold FirstIndexWhere.
    pose proof (FirstIndexWhereLoop_spec fn s []) as Hspec.
    cbv zeta in Hspec. change (len (@nil T)) with 0 in Hspec. simpl in Hspec.
    destruct Hspec as [[Hr Hnone]|(Hr & (a & Ha & Hfa) & _)].
    + intros x Hx. inversion Hx.
    + split; [intros _; exact Hr|]. intros _.
      destruct (Any s fn) eqn:Hany; [|reflexivity].
      apply Any_exists in Hany as (x & Hx & Hfx).
      rewrite (Hnone x Hx) in Hfx. discriminate.
    + assert (Hany : Any s fn = true).
      { apply Any_exists. exists a. split; [eapply index_Ret_elem_of; exact Ha | exact Hfa]. }
      pose proof (len_nonneg s). rewrite Hany. split; [discriminate | lia].
  - unfold AtLeast. rewrite AtLeastLoop_Count.
    induction s as [|e s IH]; [reflexivity|].
    rewrite Count_cons. simpl. pose proof (Count_nonneg fn s).
    destruct (fn e).
    + symmetry. apply Z.geb_le. lia.
    + rewrite IH. f_equal.
Qed.

End CountProperties.

(** ** Properties of the extremes and of zipping *)

Section OrderProperties.
Context {T : Type}.
Variable zero : T.
Variable lt : T -> T -> bool.

(** X23: with [<] irreflexive and transitive and fuel from the length of
    [s] on, [Max] and [Min] return the error "no such element" (and the
    zero value) for the empty slice; for any other slice they return no
    error and an element of [s], than which no element of [s] is
    greater, respectively smaller. *)
Theorem Max_Min_extremes (fuel : nat) (s : list T) :
  (forall a, lt a a = false) ->
  (forall a b c, lt a b = true -> lt b c = true -> lt a c = true) ->
  (length s <= fuel)%nat ->
  (s = [] ->
   Max zero lt fuel s = Ret (zero, Some "no such element"%string) /\
   Min zero lt fuel s = Ret (zero, Some "no such element"%string)) /\
  (s <> [] ->
   exists hi lo,
     Max zero lt fuel s = Ret (hi, None) /\
     Min zero lt fuel s = Ret (lo, None) /\
     hi ∈ s /\ lo ∈ s /\
     forall x, x ∈ s -> lt hi x = false /\ lt x lo = false).
Proof.
  intros Hirr Htrans Hfuel.
  assert (Hf : len s <= Z.of_nat fuel) by (unfold len; lia).
  destruct (post_Ret_inv _ _ _ (Max_spec zero lt Hirr Htrans fuel s) Hf)
    as ([hi ehi] & Hmax & Hhi).
  destruct (post_Ret_inv _ _ _ (Min_spec zero lt Hirr Htrans fuel s) Hf)
    as ([lo elo] & Hmin & Hlo).
  split.
  - intros ->. rewrite Hmax, Hmin, Hhi, Hlo. auto.
  - intros Hne. destruct s as [|a s]; [congruence|].
    simpl in Hhi, Hlo. destruct Hhi as (-> & Hhin & Hhmax).
    destruct Hlo as (-> & Hlin & Hlmin).
    exists hi, lo. repeat (split; [assumption|]).
    intros x Hx. split; [apply Hhmax | apply Hlmin]; exact Hx.
Qed.

End OrderProperties.

Section ZipProperties.
Context {T U : Type}.
Variable zeroT : T.
Variable zeroU : U.

(** X24: [Zip] returns without panic as many pairs as the longer slice
    has elements; the pair at an index holds the elements of [s] and of
    [ss] at that index, the zero value standing for the element of a
    slice that is too short. *)
Theorem Zip_pairs (s : list T) (ss : list U) :
  exists r, Zip zeroT zeroU s ss = Ret r /\
    len r = Z.max (len s) (len ss) /\
    forall i, 0 <= i < len r ->
      exists p, index r i = Ret p /\
        (forall a, index s i = Ret a -> Left p = a) /\
        (len s <= i -> Left p = zeroT) /\
        (forall b, index ss i = Ret b -> Right p = b) /\
        (len ss <= i -> Right p = zeroU).
Proof.
  unfold Zip. cbv zeta.
  set (n := if len ss >? len s then len ss else len s).
  assert (Hn : n = Z.max (len s) (len ss)).
  { subst n. destruct (Z.gtb_spec (len ss) (len s)); lia. }
  pose proof (len_nonneg s). pose proof (len_nonneg ss).
  rewrite makeOf_Ret by lia. rewrite bind_Ret.
  destruct (ZipLoop_spec zeroT zeroU s ss n
              (length (replicate (Z.to_nat n) (mkPair zeroT zeroU)))
              (replicate (Z.to_nat n) (mkPair zeroT zeroU)) 0)
    as (r & Hr & Hrl & Hall).
  - lia.
  - rewrite length_replicate. lia.
  - unfold len. rewrite length_replicate. lia.
  - intros i Hi. lia.
  - exists r. split; [exact Hr|]. split; [lia|].
    intros i Hi. exists (zipAt zeroT zeroU s ss i).
    split; [apply Hall; lia|]. unfold zipAt. simpl.
    split; [intros a ->; reflexivity|]. split.
    + intros Hout. destruct (index s i) as [a| |] eqn:Ha; try reflexivity.
      apply index_Ret_inb in Ha. lia.
    + split; [intros b ->; reflexivity|].
      intros Hout. destruct (index ss i) as [b| |] eqn:Hb; try reflexivity.
      apply index_Ret_inb in Hb. lia.
Qed.

End ZipProperties.

(** ** Properties of the functions that go through a map *)

Section MapProperties.
Context `{Countable T}.

(** X25: [Comprises] is true exactly when [s] is a rearrangement of
    [eles]: the same elements, each as many times. *)
Theorem Comprises_permutation (s eles : list T) :
  Comprises s eles = true <-> s ≡ₚ eles.
Proof.
  unfold Comprises. destruct (Z.eqb_spec (len eles) (len s)) as [Hlen|Hlen]; simpl.
  - pose proof (countsLoop_spec eles ∅ ∅ countsOf_empty) as Hc.
    rewrite (right_id ∅ (⊎)) in Hc.
    rewrite (ComprisesLoop_spec s _ _ Hc), list_to_set_disj_eq_perm.
    split; intros Hp; symmetry; exact Hp.
  - split; [discriminate|]. intros Hp. exfalso. apply Hlen.
    unfold len. rewrite Hp. reflexivity.
Qed.

(** X26: [ContainsAll] is true exactly when every element occurs in [s]
    at least as many times as in [eles]. *)
Theorem ContainsAll_submultiset (s eles : list T) :
  ContainsAll s eles = true <-> eles ⊆+ s.
Proof.
  unfold ContainsAll. destruct (Z.eqb_spec (len eles) 0) as [Hz|Hnz].
  - destruct eles as [|e eles];
      [|rewrite len_cons in Hz; pose proof (len_nonneg eles); lia].
    split; [intros _; apply submseteq_nil_l | reflexivity].
  - destruct (Z.gtb_spec (len eles) (len s)) as [Hgt|Hle].
    + split; [discriminate|]. intros Hsub.
      apply submseteq_length in Hsub. unfold len in Hgt. lia.
    + pose proof (countsLoop_spec eles ∅ ∅ countsOf_empty) as Hc.
      rewrite (right_id ∅ (⊎)) in Hc.
      rewrite (ContainsAllLoop_spec s _ _ Hc), list_to_set_disj_subseteq;
        [reflexivity|].
      destruct eles as [|e eles]; [contradiction|].
      rewrite list_to_set_disj_cons. multiset_solver.
Qed.

(** X27: [ConsistsOf] is true exactly when every element of [s] is among
    [eles], and [ContainsAny] exactly when some element of [s] is. *)
Theorem ConsistsOf_ContainsAny_membership (s eles : list T) :
  (ConsistsOf s eles = true <-> forall x, x ∈ s -> x ∈ eles) /\
  (ContainsAny s eles = true <-> exists x, x ∈ s /\ x ∈ eles).
Proof.
  split.
  - unfold ConsistsOf. rewrite ConsistsOfLoop_spec.
    split; intros Hall x Hx; specialize (Hall x Hx).
    + apply seenLoop_spec in Hall as [Hin|Hin]; [exact Hin | set_solver].
    + apply seenLoop_spec. left. exact Hall.
  - unfold ContainsAny. destruct (Z.eqb_spec (len eles) 0) as [Hz|Hnz].
    + destruct eles as [|e eles];
        [|rewrite len_cons in Hz; pose proof (len_nonneg eles); lia].
      split; [discriminate|]. intros (x & _ & Hx). inversion Hx.
    + rewrite ContainsAnyLoop_spec. split; intros (x & Hx & Hin); exists x.
      * split; [exact Hx|].
        apply seenLoop_spec in Hin as [Hin|Hin]; [exact Hin | set_solver].
      * split; [exact Hx|]. apply seenLoop_spec. left. exact Hin.
Qed.

(** X28: [Distinct] returns the elements of [s] without repetition: a
    duplicate-free sub-slice of [s], in the order of [s], in which every
    element of [s] occurs; on a slice without duplicates it changes
    nothing, so applying it twice is applying it once. *)
Theorem Distinct_removes_duplicates (s : list T) :
  NoDup (Distinct s) /\
  Distinct s `sublist_of` s /\
  (forall x, x ∈ Distinct s <-> x ∈ s) /\
  (NoDup s -> Distinct s = s) /\
  Distinct (Distinct s) = Distinct s.
Proof.
  unfold Distinct.
  destruct (DistinctLoop_spec s [] ∅) as (new & Heq & Hnd & Hsub & Hall).
  { intros x. split; [set_solver | intros Hx; inversion Hx]. }
  { apply NoDup_nil_2. }
  simpl in *. rewrite Heq.
  assert (Hfix : forall l : list T, NoDup l -> DistinctLoop l [] ∅ = l).
  { intros l Hl. rewrite DistinctLoop_NoDup; [reflexivity | exact Hl |].
    intros x _. set_solver. }
  split; [exact Hnd|]. split; [exact Hsub|]. split.
  - intros x. rewrite Hall. split; [intros [Hx|Hx]; [inversion Hx | exact Hx] | auto].
  - split.
    + intros Hs. rewrite <- Heq. apply Hfix, Hs.
    + apply Hfix, Hnd.
Qed.


End MapProperties.

(** ** Properties of the transposition *)

Section TransposeProperties.
Context {T : Type}.
Variable zero : T.

(** X30: with fuel above the numbers of rows and of columns, [Transpose]
    returns the error and a nil matrix when some row is not as long as the
    first one; otherwise it returns no error and a matrix [t] with one row
    per column of [s] and [t[a][b] = s[b][a]], and, when [s] has at least
    one column, transposing [t] gives [s] back.  The empty matrix is
    transposed into the empty matrix. *)
Theorem Transpose_transposes (fuel : nat) (s : list (list T)) (row0 : list T) :
  index s 0 = Ret row0 ->
  len s < Z.of_nat fuel -> len row0 < Z.of_nat fuel ->
  Transpose zero fuel [] = Ret ([], None) /\
  ((exists a row, index s a = Ret row /\ len row <> len row0) ->
   Transpose zero fuel s =
     Ret ([], Some "all slices in s must have the same length"%string)) /\
  ((forall a row, index s a = Ret row -> len row = len row0) ->
   exists t,
     Transpose zero fuel s = Ret (t, None) /\
     len t = len row0 /\
     (forall a b, 0 <= a < len row0 -> 0 <= b < len s ->
        cell t a b = cell s b a) /\
     (0 < len row0 -> Transpose zero fuel t = Ret (s, None))).
Proof.
  intros Hrow0 Hfs Hfr. split; [reflexivity|].
  assert (Hfuel : len s < Z.of_nat fuel /\
                  forall row, index s 0 = Ret row -> len row < Z.of_nat fuel).
  { split; [exact Hfs|]. intros row Hrow. rewrite Hrow0 in Hrow.
    injection Hrow as <-. exact Hfr. }
  destruct (post_Ret_inv _ _ _ (Transpose_spec zero fuel s) Hfuel)
    as ([t e] & Ht & Hpost).
  destruct s as [|r0 s]; [discriminate|].
  rewrite index_head in Hrow0. injection Hrow0 as ->. simpl in Hpost.
  split.
  - intros (a & row & Ha & Hne).
    destruct Hpost as [(-> & -> & _)|(_ & Hrect & _)]; [exact Ht|].
    exfalso. apply Hne, (Hrect a row Ha).
  - intros Hrect.
    destruct Hpost as [(_ & _ & a & row & Ha & Hne)|(-> & _ & Hlen & Hall)].
    { exfalso. apply Hne, (Hrect a row Ha). }
    exists t. split; [exact Ht|]. split; [exact Hlen|]. split.
    + intros a b Ha Hb. destruct (Hall a Ha) as (row & Hrow & _ & Hcells).
      unfold cell at 1. rewrite Hrow, bind_Ret. apply Hcells, Hb.
    + intros Hcols. pose proof (len_nonneg s) as Hs.
      destruct (Hall 0 ltac:(lia)) as (t0 & Ht0 & Ht0l & _).
      assert (Hfuel' : len t < Z.of_nat fuel /\
                forall row, index t 0 = Ret row -> len row < Z.of_nat fuel).
      { split; [lia|]. intros row Hrow. rewrite Ht0 in Hrow.
        injection Hrow as <-. lia. }
      destruct (post_Ret_inv _ _ _ (Transpose_spec zero fuel t) Hfuel')
        as ([u e] & Hu & Hpost').
      destruct t as [|t0' t']; [discriminate|].
      rewrite index_head in Ht0. injection Ht0 as ->. simpl in Hpost'.
      destruct Hpost' as [(_ & _ & a & row & Ha & Hne)|(-> & _ & Hul & Huall)].
      { exfalso. apply Hne. pose proof (index_Ret_inb _ _ _ Ha) as Hab.
        destruct (Hall a ltac:(lia)) as (row' & Hrow' & Hl' & _).
        rewrite Ha in Hrow'. injection Hrow' as <-. lia. }
      rewrite Hu. f_equal. f_equal.
      apply list_ext_index; [lia|]. intros a Ha.
      destruct (Huall a ltac:(lia)) as (urow & Hurow & Hurl & Hucells).
      destruct (index_inb (row0 :: s) a ltac:(lia)) as [srow Hsrow].
      rewrite Hurow, Hsrow. f_equal.
      pose proof (Hrect a srow Hsrow) as Hsl.
      apply list_ext_index; [lia|]. intros b Hb.
      rewrite Hucells by lia.
      destruct (Hall b ltac:(lia)) as (trow & Htrow & _ & Htcells).
      unfold cell at 1. rewrite Htrow, bind_Ret.
      rewrite Htcells by lia. unfold cell. rewrite Hsrow, bind_Ret. reflexivity.
Qed.

End TransposeProperties.

(** ** The properties on integers *)

Lemma EndsWithSequence_suffix_witness :
  (2 < 3)%nat /\
  exists b, EndsWithSequence Z.eqb 3 [1; 2; 3] [2; 3] = Ret b /\
    (b = true <->
     len [2; 3] <= len [1; 2; 3] /\
     forall t, 0 <= t < len [2; 3] ->
       E Z.eqb [1; 2; 3] (len [1; 2; 3] - len [2; 3] + t) [2; 3] t).
Proof.
  split; [lia|].
  apply (proj2 (EndsWithSequence_suffix Z.eqb 3 [1; 2; 3] [2; 3])).
  simpl. lia.
Defined.

Lemma ContainsSequence_finds_occurrence_witness :
  PER Z.eqb /\ (5 < 6)%nat /\
  exists b,
    ContainsSequence Z.eqb 6 [1; 3; 3; 3; 5] [3; 3; 3]
      [ContainsSequenceApostolicoCrochemore] = Ret b /\
    (b = true <->
     exists idx, 0 <= idx <= len [1; 3; 3; 3; 5] - len [3; 3; 3] /\
       forall t, 0 <= t < len [3; 3; 3] ->
         E Z.eqb [3; 3; 3] t [1; 3; 3; 3; 5] (idx + t)).
Proof.
  split; [exact Z_eqb_PER|]. split; [lia|].
  apply (ContainsSequence_finds_occurrence Z.eqb 6 [1; 3; 3; 3; 5] [3; 3; 3]
           [ContainsSequenceApostolicoCrochemore] Z_eqb_PER).
  simpl. lia.
Defined.

Lemma prefix_and_suffix_are_contained_witness :
  PER Z.eqb /\ (3 < 4)%nat /\
  StartsWithSequence Z.eqb [1; 2; 3] [1; 2] = Ret true /\
  EndsWithSequence Z.eqb 3 [1; 2; 3] [2; 3] = Ret true /\
  ContainsSequence Z.eqb 4 [1; 2; 3] [1; 2] [] = Ret true /\
  ContainsSequence Z.eqb 4 [1; 2; 3] [2; 3] [] = Ret true.
Proof.
  assert (Hfuel : (length [1; 2; 3] < 4)%nat) by (simpl; lia).
  assert (Hstart : StartsWithSequence Z.eqb [1; 2; 3] [1; 2] = Ret true)
    by reflexivity.
  assert (Hend : EndsWithSequence Z.eqb 3 [1; 2; 3] [2; 3] = Ret true)
    by reflexivity.
  split; [exact Z_eqb_PER|]. split; [lia|].
  split; [exact Hstart|]. split; [exact Hend|]. split.
  - exact (proj1 (prefix_and_suffix_are_contained Z.eqb 4 3 [1; 2; 3] [1; 2] []
                    Z_eqb_PER Hfuel) Hstart).
  - exact (proj2 (prefix_and_suffix_are_contained Z.eqb 4 3 [1; 2; 3] [2; 3] []
                    Z_eqb_PER Hfuel) Hend).
Defined.

Lemma ContainsSequence_transitive_witness :
  PER Z.eqb /\ (5 < 6)%nat /\ (3 < 4)%nat /\
  ContainsSequence Z.eqb 6 [1; 2; 3; 4; 5] [2; 3; 4] [] = Ret true /\
  ContainsSequence Z.eqb 4 [2; 3; 4] [3; 4]
    [ContainsSequenceApostolicoCrochemore] = Ret true /\
  ContainsSequence Z.eqb 6 [1; 2; 3; 4; 5] [3; 4]
    [ContainsSequenceApostolicoCrochemore] = Ret true.
Proof.
  assert (H1 : ContainsSequence Z.eqb 6 [1; 2; 3; 4; 5] [2; 3; 4] [] = Ret true)
    by reflexivity.
  assert (H2 : ContainsSequence Z.eqb 4 [2; 3; 4] [3; 4]
                 [ContainsSequenceApostolicoCrochemore] = Ret true)
    by reflexivity.
  split; [exact Z_eqb_PER|]. split; [lia|]. split; [lia|].
  split; [exact H1|]. split; [exact H2|].
  apply (ContainsSequence_transitive Z.eqb 6 4 [1; 2; 3; 4; 5] [2; 3; 4] [3; 4]
           [] [ContainsSequenceApostolicoCrochemore]
           [ContainsSequenceApostolicoCrochemore] Z_eqb_PER);
    [simpl; lia | simpl; lia | exact H1 | exact H2].
Defined.

Lemma ContainsSequence_Append_Prepend_witness :
  PER Z.eqb /\ (3 < 4)%nat /\ (3 + 2 < 6)%nat /\
  ContainsSequence Z.eqb 4 [1; 2; 3] [2; 3] [] = Ret true /\
  ContainsSequence Z.eqb 6 (Append [1; 2; 3] [8; 9]) [2; 3] [] = Ret true /\
  ContainsSequence Z.eqb 6 (Prepend [1; 2; 3] [8; 9]) [2; 3] [] = Ret true.
Proof.
  assert (H1 : ContainsSequence Z.eqb 4 [1; 2; 3] [2; 3] [] = Ret true)
    by reflexivity.
  split; [exact Z_eqb_PER|]. split; [lia|]. split; [lia|]. split; [exact H1|].
  apply (ContainsSequence_Append_Prepend Z.eqb 4 6 [1; 2; 3] [8; 9] [2; 3] [] []
           Z_eqb_PER); [simpl; lia | simpl; lia | exact H1].
Defined.

Lemma LastIndexOf_last_witness :
  (4 < 5)%nat /\
  exists r, LastIndexOf Z.eqb 5 [7; 8; 7; 9] 7 = Ret r /\
    ((r = -1 /\
      forall j a, index [7; 8; 7; 9] j = Ret a -> (7 =? a) = false) \/
     (0 <= r < len [7; 8; 7; 9] /\
      (exists a, index [7; 8; 7; 9] r = Ret a /\ (7 =? a) = true) /\
      forall j a, r < j -> index [7; 8; 7; 9] j = Ret a -> (7 =? a) = false)).
Proof.
  split; [lia|].
  apply (proj2 (LastIndexOf_last Z.eqb 5 [7; 8; 7; 9] 7)).
  simpl. lia.
Defined.

Lemma FirstIndexOf_le_LastIndexOf_witness :
  (forall a b, (a =? b) = true -> (b =? a) = true) /\ (4 < 5)%nat /\
  exists r, LastIndexOf Z.eqb 5 [7; 8; 7; 9] 7 = Ret r /\
    FirstIndexOf Z.eqb [7; 8; 7; 9] 7 <= r /\
    (FirstIndexOf Z.eqb [7; 8; 7; 9] 7 = -1 <-> r = -1).
Proof.
  split; [exact Z_eqb_sym|]. split; [lia|].
  apply (FirstIndexOf_le_LastIndexOf Z.eqb 5 [7; 8; 7; 9] 7 Z_eqb_sym).
  simpl. lia.
Defined.

Lemma NthIndexOf_nth_witness :
  1 <= 2 < 2 ^ 63 /\
  ((NthIndexOf Z.eqb [7; 8; 7; 9] 2 7 = -1 /\
    Count [7; 8; 7; 9] (fun e => e =? 7) < 2) \/
   (0 <= NthIndexOf Z.eqb [7; 8; 7; 9] 2 7 < len [7; 8; 7; 9] /\
    (exists a, index [7; 8; 7; 9] (NthIndexOf Z.eqb [7; 8; 7; 9] 2 7) = Ret a /\
               (a =? 7) = true) /\
    Count (take (Z.to_nat (NthIndexOf Z.eqb [7; 8; 7; 9] 2 7)) [7; 8; 7; 9])
      (fun e => e =? 7) = 2 - 1)).
Proof.
  assert (Hn : 1 <= 2 < 2 ^ 63) by lia.
  split; [exact Hn|].
  exact (proj1 (NthIndexOf_nth Z.eqb [7; 8; 7; 9] 2 7) Hn).
Defined.

Lemma NthIndexOf_nonpositive_witness :
  - 2 ^ 63 <= 0 <= 0 /\ len [7; 8; 7; 9] < 2 ^ 63 /\
  NthIndexOf Z.eqb [7; 8; 7; 9] 0 7 = -1.
Proof.
  assert (Hn : - 2 ^ 63 <= 0 <= 0) by lia.
  assert (Hs : len [7; 8; 7; 9] < 2 ^ 63) by (unfold len; simpl; lia).
  split; [exact Hn|]. split; [exact Hs|].
  exact (NthIndexOf_nonpositive Z.eqb [7; 8; 7; 9] 0 7 Hn Hs).
Defined.

Lemma Rotate_positions_witness :
  len [1; 2; 3; 4] <= 2 ^ 62 /\
  exists r, Rotate 0 [1; 2; 3; 4] (-1) = Ret r /\
    len r = len [1; 2; 3; 4] /\
    forall i, 0 <= i < len [1; 2; 3; 4] ->
      index r i = index [1; 2; 3; 4] ((i - -1) mod len [1; 2; 3; 4]).
Proof.
  assert (Hs : len [1; 2; 3; 4] <= 2 ^ 62) by (unfold len; simpl; lia).
  split; [exact Hs|].
  exact (Rotate_positions 0 [1; 2; 3; 4] (-1) Hs).
Defined.

Lemma Rotate_compose_witness :
  len [1; 2; 3; 4] <= 2 ^ 62 /\
  (3 + -7) mod len [1; 2; 3; 4] = 0 mod len [1; 2; 3; 4] /\
  (exists r, Rotate 0 [1; 2; 3; 4] 3 = Ret r /\
             Rotate 0 r (-7) = Rotate 0 [1; 2; 3; 4] 0) /\
  Rotate 0 [1; 2; 3; 4] 0 = Ret [1; 2; 3; 4].
Proof.
  assert (Hs : len [1; 2; 3; 4] <= 2 ^ 62) by (unfold len; simpl; lia).
  assert (Hm : (3 + -7) mod len [1; 2; 3; 4] = 0 mod len [1; 2; 3; 4])
    by reflexivity.
  split; [exact Hs|]. split; [exact Hm|].
  destruct (Rotate_compose 0 [1; 2; 3; 4] 3 (-7) 0 Hs Hm) as [Hcomp Hid].
  split; [exact Hcomp|]. apply Hid. reflexivity.
Defined.

Lemma Updated_replaces_witness :
  (5 < 0 \/ len [1; 2; 3] <= 5) /\
  Updated 0 [1; 2; 3] 5 9 = Ret ([], Some "index out of bounds"%string) /\
  0 <= 1 < len [1; 2; 3] /\
  exists ss, Updated 0 [1; 2; 3] 1 9 = Ret (ss, None) /\
    len ss = len [1; 2; 3] /\ index ss 1 = Ret 9 /\
    forall j, j <> 1 -> index ss j = index [1; 2; 3] j.
Proof.
  assert (Hout : 5 < 0 \/ len [1; 2; 3] <= 5) by (right; unfold len; simpl; lia).
  assert (Hin : 0 <= 1 < len [1; 2; 3]) by (unfold len; simpl; lia).
  split; [exact Hout|].
  split; [exact (proj1 (Updated_replaces 0 [1; 2; 3] 5 9) Hout)|].
  split; [exact Hin|].
  exact (proj2 (Updated_replaces 0 [1; 2; 3] 1 9) Hin).
Defined.


Lemma Z_ltb_irrefl (a : Z) : (a <? a) = false.
Proof. apply Z.ltb_irrefl. Qed.

Lemma Z_ltb_trans (a b c : Z) :
  (a <? b) = true -> (b <? c) = true -> (a <? c) = true.
Proof. rewrite !Z.ltb_lt. lia. Qed.

Lemma Max_Min_extremes_witness :
  (3 <= 3)%nat /\ [4; 9; 2] <> [] /\
  exists hi lo,
    Max 0 Z.ltb 3 [4; 9; 2] = Ret (hi, None) /\
    Min 0 Z.ltb 3 [4; 9; 2] = Ret (lo, None) /\
    hi ∈ [4; 9; 2] /\ lo ∈ [4; 9; 2] /\
    forall x, x ∈ [4; 9; 2] -> (hi <? x) = false /\ (x <? lo) = false.
Proof.
  assert (Hfuel : (length [4; 9; 2] <= 3)%nat) by (simpl; lia).
  assert (Hne : [4; 9; 2] <> []) by discriminate.
  split; [lia|]. split; [exact Hne|].
  exact (proj2 (Max_Min_extremes 0 Z.ltb 3 [4; 9; 2] Z_ltb_irrefl Z_ltb_trans
                  Hfuel) Hne).
Defined.

Lemma Distinct_removes_duplicates_witness :
  NoDup [3; 1; 2] /\ Distinct [3; 1; 2] = [3; 1; 2] /\
  Distinct (Distinct [3; 1; 3; 2; 1]) = Distinct [3; 1; 3; 2; 1].
Proof.
  assert (Hnd : NoDup [3; 1; 2]).
  { repeat (apply NoDup_cons; split; [set_solver|]). apply NoDup_nil_2. }
  split; [exact Hnd|]. split.
  - exact (proj1 (proj2 (proj2 (proj2
             (Distinct_removes_duplicates [3; 1; 2])))) Hnd).
  - exact (proj2 (proj2 (proj2 (proj2
             (Distinct_removes_duplicates [3; 1; 3; 2; 1]))))).
Defined.


(** The functions on the inputs of the package's tests. *)

Example Rotate_examples :
  Rotate 0 [1; 2; 3; 4; 5] 2 = Ret [4; 5; 1; 2; 3] /\
  Rotate 0 [1; 2; 3; 4; 5] 5 = Ret [1; 2; 3; 4; 5] /\
  Rotate 0 [1; 2; 3; 4; 5] 6 = Ret [5; 1; 2; 3; 4] /\
  Rotate 0 [1; 2; 3; 4; 5] (-2) = Ret [3; 4; 5; 1; 2] /\
  Rotate 0 [1; 2; 3; 4; 5] (-6) = Ret [2; 3; 4; 5; 1] /\
  Rotate 0 [] 2 = Ret [].
Proof. repeat split; vm_compute; reflexivity. Qed.

Example Comprises_examples :
  Comprises [1; 2; 2; 3] [2; 3; 1; 2] = true /\
  Comprises [1; 2; 2; 3] [1; 2; 3; 3] = false /\
  ContainsAll [1; 2; 2; 3] [2; 2] = true /\
  ContainsAll [1; 2; 3] [2; 2] = false /\
  Distinct [3; 1; 3; 2; 1] = [3; 1; 2].
Proof. repeat split; vm_compute; reflexivity. Qed.

Example NthIndexOf_examples :
  NthIndexOf Z.eqb [7; 8; 7; 9] 2 7 = 2 /\
  NthIndexOf Z.eqb [7; 8; 7; 9] 3 7 = -1 /\
  NthIndexOf Z.eqb [7; 8; 7; 9] 0 7 = -1.
Proof. repeat split; vm_compute; reflexivity. Qed.

Lemma Transpose_transposes_witness :
  index [[1; 2; 3]; [4; 5; 6]] 0 = Ret [1; 2; 3] /\
  len [[1; 2; 3]; [4; 5; 6]] < Z.of_nat 4 /\ len [1; 2; 3] < Z.of_nat 4 /\
  exists t,
    Transpose 0 4 [[1; 2; 3]; [4; 5; 6]] = Ret (t, None) /\
    len t = len [1; 2; 3] /\
    (forall a b, 0 <= a < len [1; 2; 3] -> 0 <= b < len [[1; 2; 3]; [4; 5; 6]] ->
       cell t a b = cell [[1; 2; 3]; [4; 5; 6]] b a) /\
    (0 < len [1; 2; 3] -> Transpose 0 4 t = Ret ([[1; 2; 3]; [4; 5; 6]], None)).
Proof.
  assert (H0 : index [[1; 2; 3]; [4; 5; 6]] 0 = Ret [1; 2; 3]) by reflexivity.
  assert (H1 : len [[1; 2; 3]; [4; 5; 6]] < Z.of_nat 4) by (unfold len; simpl; lia).
  assert (H2 : len [1; 2; 3] < Z.of_nat 4) by (unfold len; simpl; lia).
  split; [exact H0|]. split; [exact H1|]. split; [exact H2|].
  apply (proj2 (proj2 (Transpose_transposes 0 4 [[1; 2; 3]; [4; 5; 6]] [1; 2; 3]
                         H0 H1 H2))).
  intros a row Ha. pose proof (index_Ret_inb _ _ _ Ha) as Hb.
  unfold len in Hb. simpl in Hb.
  assert (a = 0 \/ a = 1) as [-> | ->] by lia;
    vm_compute in Ha; injection Ha as <-; reflexivity.
Defined.

Example Transpose_examples :
  Transpose 0 4 [[1; 2; 3]; [4; 5; 6]] = Ret ([[1; 4]; [2; 5]; [3; 6]], None) /\
  Transpose 0 4 [[1; 2]; [3]] =
    Ret ([], Some "all slices in s must have the same length"%string) /\
  Transpose 0 4 [[]; []] = Ret ([], None) /\
  Transpose 0 4 ([] : list (list Z)) = Ret ([], None).
Proof. repeat split; vm_compute; reflexivity. Qed.
